(** * uint16_tree.TreeV4: an arena-backed Patricia trie for IPv4 prefixes

    Shallow embedding of [uint16_tree/tree_v4.go] and the properties of
    its operations.

    Conventions of the embedding.
    - Go's [uint] (node indexes, prefix lengths, tag counts) is [nat]: these
      numbers are bounded by the size of the arena and of the tag map, they
      are never shifted, and the only subtraction ([Length -= n]) is guarded
      by [n <= Length].
    - [uint32] prefixes are [Z] in [0, 2^32); the left shift wraps.
    - [uint64] tag-map keys are [Z] with the wrap-around of the key
      computation written out.
    - [uint16] tags are [Z]; no arithmetic is done on them.
    - [t.nodes] is a [list]; a pointer [&t.nodes[i]] is the index [i], and a
      field write through it is an in-place update of slot [i].  [Add]
      reserves capacity before taking pointers, so [append] never moves the
      array while a pointer is held.
    - [t.tags] is a [gmap]; reading an absent key gives Go's zero value.
    - a Go panic is [Panic]; loops run on fuel and give [OutOfFuel] when it
      is exhausted. *)

From Stdlib Require Import ZArith Lia Bool.
From stdpp Require Import base option list gmap.

Local Open Scope Z_scope.
Local Open Scope nat_scope.

(** ** Results of possibly panicking computations *)

Inductive result (A : Type) : Type :=
| Ok (a : A)
| Panic
| OutOfFuel.
Arguments Ok {A} a.
Arguments Panic {A}.
Arguments OutOfFuel {A}.

Definition result_bind {A B : Type} (f : A → result B) (m : result A) : result B :=
  match m with
  | Ok a => f a
  | Panic => Panic
  | OutOfFuel => OutOfFuel
  end.

#[global] Instance result_mbind : MBind result := @result_bind.
#[global] Instance result_mret : MRet result := @Ok.

(** ** Data model *)

Definition uint16 := Z.

(** [patricia.IPv4Address]: a left-aligned 32-bit prefix and its length. *)
Record IPv4Address : Type := mkAddr {
  Address : Z;
  Length : nat
}.

(** [treeNodeV4]: the node record of the arena. *)
Record treeNodeV4 : Type := mkNode {
  Left : nat;
  Right : nat;
  prefix : Z;
  prefixLength : nat;
  TagCount : nat
}.

Record TreeV4 : Type := mkTree {
  nodes : list treeNodeV4;
  availableIndexes : list nat;
  tags : gmap Z uint16
}.

Definition MatchesFunc := uint16 → uint16 → bool.
Definition FilterFunc := uint16 → bool.

Definition _leftmost32Bit : Z := 2 ^ 31.

Definition zeroNode : treeNodeV4 := mkNode 0 0 0%Z 0 0.

(** [NewTreeV4]: slot 0 is unused, slot 1 is the root. *)
Definition NewTreeV4 : TreeV4 := mkTree [zeroNode; zeroNode] [] ∅.

(** ** Bits of a 32-bit word, most significant first *)

Definition bit32 (x : Z) (i : nat) : bool := Z.testbit x (31 - Z.of_nat i).

Definition bits32 (x : Z) : list bool := map (bit32 x) (seq 0 32).

Fixpoint of_bits (w : nat) (bs : list bool) : Z :=
  match w with
  | O => 0%Z
  | S w' =>
      match bs with
      | [] => 0%Z
      | b :: bs' => ((if b then 2 ^ Z.of_nat w' else 0) + of_bits w' bs')%Z
      end
  end.

Fixpoint common_prefix_length (xs ys : list bool) : nat :=
  match xs, ys with
  | x :: xs', y :: ys' =>
      if Bool.eqb x y then S (common_prefix_length xs' ys') else 0
  | _, _ => 0
  end.

(** [x << n] on [uint32]. *)
Definition shl32 (x : Z) (n : nat) : Z := (Z.shiftl x (Z.of_nat n) mod 2 ^ 32)%Z.

(** ** The address primitive and the prefix helpers *)

(** Modelled from the spec: [IPv4Address.ShiftLeft] is not among the sources.
    It sets [prefix <- prefix << n] and [length <- length - n]. *)
Definition ShiftLeft (a : IPv4Address) (shiftCount : nat) : IPv4Address :=
  mkAddr (shl32 (Address a) shiftCount) (Length a - shiftCount).

(** Modelled from the spec: [treeNodeV4.MatchCount] is not among the sources.
    It is the number of leading bits equal between the address prefix and
    the node prefix, over the first [min length prefix_length] bits. *)
Definition MatchCount (n : treeNodeV4) (a : IPv4Address) : nat :=
  common_prefix_length
    (take (prefixLength n) (bits32 (prefix n)))
    (take (Length a) (bits32 (Address a))).

(** Modelled from the spec: [patricia.MergePrefixes32] is not among the
    sources.  It gives the left-aligned prefix of length [a_len + b_len]
    made of the bits of [a] followed by the bits of [b]. *)
Definition MergePrefixes32 (a : Z) (a_len : nat) (b : Z) (b_len : nat) : Z * nat :=
  (of_bits 32 (take a_len (bits32 a) ++ take b_len (bits32 b)), a_len + b_len).

(** ** Access to the arena *)

(** [t.nodes[i]]: out of range panics. *)
Definition getNode (t : TreeV4) (i : nat) : result treeNodeV4 :=
  match nodes t !! i with
  | Some n => Ok n
  | None => Panic
  end.

Definition set_Left (v : nat) (n : treeNodeV4) : treeNodeV4 :=
  mkNode v (Right n) (prefix n) (prefixLength n) (TagCount n).
Definition set_Right (v : nat) (n : treeNodeV4) : treeNodeV4 :=
  mkNode (Left n) v (prefix n) (prefixLength n) (TagCount n).
Definition set_prefix (p : Z) (l : nat) (n : treeNodeV4) : treeNodeV4 :=
  mkNode (Left n) (Right n) p l (TagCount n).
Definition set_TagCount (c : nat) (n : treeNodeV4) : treeNodeV4 :=
  mkNode (Left n) (Right n) (prefix n) (prefixLength n) c.

(** A field write through the pointer [&t.nodes[i]]. *)
Definition updNode (f : treeNodeV4 → treeNodeV4) (i : nat) (t : TreeV4) : TreeV4 :=
  mkTree (alter f i (nodes t)) (availableIndexes t) (tags t).

Definition setTags (m : gmap Z uint16) (t : TreeV4) : TreeV4 :=
  mkTree (nodes t) (availableIndexes t) m.

(** [node.ShiftPrefix(n)]: [prefix <<= n; prefixLength -= n] (the method is
    declared with the node type; it mirrors [ShiftLeft]). *)
Definition ShiftPrefix (shiftCount : nat) (n : treeNodeV4) : treeNodeV4 :=
  set_prefix (shl32 (prefix n) shiftCount) (prefixLength n - shiftCount) n.

(** ** Tag store *)

(** [(uint64(nodeIndex) << 32) + uint64(slot)]. *)
Definition tagKey (nodeIndex slot : nat) : Z :=
  (((Z.of_nat nodeIndex * 2 ^ 32) mod 2 ^ 64 + Z.of_nat slot) mod 2 ^ 64)%Z.

Definition readTag (m : gmap Z uint16) (k : Z) : uint16 := default 0%Z (m !! k).

Definition addTag (t : TreeV4) (tag : uint16) (nodeIndex : nat) : result TreeV4 :=
  n ← getNode t nodeIndex;
  let tagCount := TagCount n in
  let t := setTags (<[tagKey nodeIndex tagCount := tag]> (tags t)) t in
  Ok (updNode (λ n, set_TagCount (S (TagCount n)) n) nodeIndex t).

Definition tagsForNode (t : TreeV4) (nodeIndex : nat) : result (list uint16) :=
  n ← getNode t nodeIndex;
  Ok (map (λ i, readTag (tags t) (tagKey nodeIndex i)) (seq 0 (TagCount n))).

Definition moveTags_step (fromIndex toIndex : nat) (m : gmap Z uint16) (i : nat)
  : gmap Z uint16 :=
  delete (tagKey fromIndex i)
         (<[tagKey toIndex i := readTag m (tagKey fromIndex i)]> m).

Definition moveTags (t : TreeV4) (fromIndex toIndex : nat) : result TreeV4 :=
  from ← getNode t fromIndex;
  let tagCount := TagCount from in
  let m := foldl (moveTags_step fromIndex toIndex) (tags t) (seq 0 tagCount) in
  let t := setTags m t in
  to ← getNode t toIndex;
  from ← getNode t fromIndex;
  let t := updNode (set_TagCount (TagCount to + TagCount from)) toIndex t in
  Ok (updNode (set_TagCount 0) fromIndex t).

Definition firstTagForNode (t : TreeV4) (nodeIndex : nat) : uint16 :=
  readTag (tags t) (tagKey nodeIndex 0).

(** The re-insertion loop of [deleteTag]. *)
Fixpoint deleteTag_putBack (t : TreeV4) (nodeIndex : nat) (matchTag : uint16)
    (matchFunc : MatchesFunc) (tgs : list uint16) (deleteCount keepCount : nat)
  : result (TreeV4 * nat * nat) :=
  match tgs with
  | [] => Ok (t, deleteCount, keepCount)
  | tag :: rest =>
      if matchFunc tag matchTag then
        deleteTag_putBack t nodeIndex matchTag matchFunc rest (S deleteCount) keepCount
      else
        t ← addTag t tag nodeIndex;
        deleteTag_putBack t nodeIndex matchTag matchFunc rest deleteCount (S keepCount)
  end.

Definition deleteTag (t : TreeV4) (nodeIndex : nat) (matchTag : uint16)
    (matchFunc : MatchesFunc) : result (TreeV4 * nat * nat) :=
  tgs ← tagsForNode t nodeIndex;
  n ← getNode t nodeIndex;
  let m := foldl (λ m i, delete (tagKey nodeIndex i) m) (tags t) (seq 0 (TagCount n)) in
  let t := updNode (set_TagCount 0) nodeIndex (setTags m t) in
  deleteTag_putBack t nodeIndex matchTag matchFunc tgs 0 0.

(** ** Node allocation *)

Definition newNode (t : TreeV4) (pfx : Z) (pfxLength : nat) : result (TreeV4 * nat) :=
  let fresh := mkNode 0 0 pfx pfxLength 0 in
  match reverse (availableIndexes t) with
  | index :: rest =>
      _ ← getNode t index;
      Ok (mkTree (<[index := fresh]> (nodes t)) (reverse rest) (tags t), index)
  | [] =>
      Ok (mkTree (nodes t ++ [fresh]) (availableIndexes t) (tags t), length (nodes t))
  end.

(** ** Add *)

Definition isLeftBit (x : Z) : bool := (x <? _leftmost32Bit)%Z.

(** Replace the pointer from [parent] to [nodeIndex] by [newIndex]
    (the two "now give this new node a home" blocks of [Add]). *)
Definition relink (t : TreeV4) (parent nodeIndex newIndex : nat) : result TreeV4 :=
  p ← getNode t parent;
  if Left p =? nodeIndex then Ok (updNode (set_Left newIndex) parent t)
  else if negb (Right p =? nodeIndex) then Panic
  else Ok (updNode (set_Right newIndex) parent t).

(** Allocate a leaf for [address], tag it and store its index in the
    [Left] or [Right] field of [parent]. *)
Definition addLeaf (t : TreeV4) (parent : nat) (left : bool) (address : IPv4Address)
    (tag : uint16) : result TreeV4 :=
  '(t, newNodeIndex) ← newNode t (Address address) (Length address);
  t ← addTag t tag newNodeIndex;
  if left
  then Ok (updNode (set_Left newNodeIndex) parent t)
  else Ok (updNode (set_Right newNodeIndex) parent t).

(** The [for] loop of [Add]; [parent] is the index the pointer [parent]
    refers to. *)
Fixpoint Add_loop (fuel : nat) (t : TreeV4) (parent nodeIndex : nat)
    (address : IPv4Address) (tag : uint16) : result (TreeV4 * IPv4Address) :=
  match fuel with
  | O => OutOfFuel
  | S fuel =>
      if nodeIndex =? 0 then Panic else
      node ← getNode t nodeIndex;
      if prefixLength node =? 0 then Panic else
      let matchCount := MatchCount node address in
      if matchCount =? 0 then Panic else
      if matchCount =? Length address then
        if matchCount =? prefixLength node then
          t ← addTag t tag nodeIndex;
          Ok (t, address)
        else
          '(t, newNodeIndex) ← newNode t (Address address) (Length address);
          t ← addTag t tag newNodeIndex;
          let t := updNode (ShiftPrefix matchCount) nodeIndex t in
          node ← getNode t nodeIndex;
          let t := if isLeftBit (prefix node)
                   then updNode (set_Left nodeIndex) newNodeIndex t
                   else updNode (set_Right nodeIndex) newNodeIndex t in
          t ← relink t parent nodeIndex newNodeIndex;
          Ok (t, address)
      else if matchCount =? prefixLength node then
        let address := ShiftLeft address matchCount in
        if isLeftBit (Address address) then
          if Left node =? 0 then
            t ← addLeaf t nodeIndex true address tag;
            Ok (t, address)
          else Add_loop fuel t nodeIndex (Left node) address tag
        else
          if Right node =? 0 then
            t ← addLeaf t nodeIndex false address tag;
            Ok (t, address)
          else Add_loop fuel t nodeIndex (Right node) address tag
      else
        '(t, newCommonParentNodeIndex) ← newNode t (Address address) matchCount;
        let address := ShiftLeft address matchCount in
        '(t, newNodeIndex) ← newNode t (Address address) (Length address);
        t ← addTag t tag newNodeIndex;
        let t := updNode (ShiftPrefix matchCount) nodeIndex t in
        node ← getNode t nodeIndex;
        let t := if isLeftBit (prefix node)
                 then updNode (set_Right newNodeIndex) newCommonParentNodeIndex
                        (updNode (set_Left nodeIndex) newCommonParentNodeIndex t)
                 else updNode (set_Left newNodeIndex) newCommonParentNodeIndex
                        (updNode (set_Right nodeIndex) newCommonParentNodeIndex t) in
        t ← relink t parent nodeIndex newCommonParentNodeIndex;
        Ok (t, address)
  end.

(** [Add]: the result carries the tree and the address as the call leaves
    it ([None] is the nil pointer). *)
Definition Add (fuel : nat) (t : TreeV4) (address : option IPv4Address) (tag : uint16)
  : result (TreeV4 * option IPv4Address) :=
  root ← getNode t 1;
  match address with
  | None => t ← addTag t tag 1; Ok (t, None)
  | Some a =>
      if Length a =? 0 then t ← addTag t tag 1; Ok (t, Some a)
      else if isLeftBit (Address a) then
        if Left root =? 0 then t ← addLeaf t 1 true a tag; Ok (t, Some a)
        else '(t, a) ← Add_loop fuel t 1 (Left root) a tag; Ok (t, Some a)
      else
        if Right root =? 0 then t ← addLeaf t 1 false a tag; Ok (t, Some a)
        else '(t, a) ← Add_loop fuel t 1 (Right root) a tag; Ok (t, Some a)
  end.

(** ** Delete *)

(** The traversal loop of [Delete].  [None] stands for the two
    [return 0, nil] exits, [Some (parentIndex, targetNodeIndex)] for the
    [break]. *)
Fixpoint Delete_loop (fuel : nat) (t : TreeV4) (parentIndex nodeIndex : nat)
    (address : IPv4Address) : result (option (nat * nat) * IPv4Address) :=
  match fuel with
  | O => OutOfFuel
  | S fuel =>
      if nodeIndex =? 0 then Ok (None, address) else
      node ← getNode t nodeIndex;
      let matchCount := MatchCount node address in
      if matchCount <? prefixLength node then Ok (None, address)
      else if matchCount =? Length address then Ok (Some (parentIndex, nodeIndex), address)
      else
        let address := ShiftLeft address matchCount in
        if isLeftBit (Address address)
        then Delete_loop fuel t nodeIndex (Left node) address
        else Delete_loop fuel t nodeIndex (Right node) address
  end.

(** Absorb the sibling [sibling] of a removed childless node into
    [parentIndex]: the two symmetric blocks under "merge sibling into
    parent".  [sibling] is read from the parent by the caller. *)
Definition Delete_mergeSibling (t : TreeV4) (parentIndex : nat) (leftFirst : bool)
  : result TreeV4 :=
  parent ← getNode t parentIndex;
  let sibling := if leftFirst then Right parent else Left parent in
  tmpNode ← getNode t sibling;
  let '(p, l) := MergePrefixes32 (prefix parent) (prefixLength parent)
                                 (prefix tmpNode) (prefixLength tmpNode) in
  let t := updNode (set_prefix p l) parentIndex t in
  t ← moveTags t sibling parentIndex;
  if leftFirst then
    parent ← getNode t parentIndex;
    s ← getNode t (Right parent);
    let t := updNode (set_Left (Left s)) parentIndex t in
    parent ← getNode t parentIndex;
    s ← getNode t (Right parent);
    Ok (updNode (set_Right (Right s)) parentIndex t)
  else
    parent ← getNode t parentIndex;
    s ← getNode t (Left parent);
    let t := updNode (set_Right (Right s)) parentIndex t in
    parent ← getNode t parentIndex;
    s ← getNode t (Left parent);
    Ok (updNode (set_Left (Left s)) parentIndex t).

(** Replace the pointer from the parent to the target by [child] and
    prepend the target's prefix to the child's: the blocks for a target
    with a single child. *)
Definition Delete_liftChild (t : TreeV4) (parentIndex targetNodeIndex child : nat)
  : result TreeV4 :=
  parent ← getNode t parentIndex;
  let t := if Left parent =? targetNodeIndex
           then updNode (set_Left child) parentIndex t
           else updNode (set_Right child) parentIndex t in
  targetNode ← getNode t targetNodeIndex;
  tmpNode ← getNode t child;
  let '(p, l) := MergePrefixes32 (prefix targetNode) (prefixLength targetNode)
                                 (prefix tmpNode) (prefixLength tmpNode) in
  Ok (updNode (set_prefix p l) child t).

(** The last three statements of [Delete]. *)
Definition Delete_release (t : TreeV4) (targetNodeIndex : nat) : TreeV4 :=
  let t := updNode (set_Right 0) targetNodeIndex (updNode (set_Left 0) targetNodeIndex t) in
  mkTree (nodes t) (availableIndexes t ++ [targetNodeIndex]) (tags t).

(** [Delete] from "compact the tree, if possible" on. *)
Definition Delete_compact (t : TreeV4) (parentIndex targetNodeIndex : nat)
    (deleteCount : nat) : result (nat * TreeV4) :=
  targetNode ← getNode t targetNodeIndex;
  parent ← getNode t parentIndex;
  if negb (Left targetNode =? 0) && negb (Right targetNode =? 0) then
    if (Left parent =? 0) || (Right parent =? 0) then
      if 1 <? parentIndex then
        let t := updNode (set_Left (Left targetNode)) parentIndex t in
        targetNode ← getNode t targetNodeIndex;
        let t := updNode (set_Right (Right targetNode)) parentIndex t in
        parent ← getNode t parentIndex;
        targetNode ← getNode t targetNodeIndex;
        let '(p, l) := MergePrefixes32 (prefix parent) (prefixLength parent)
                         (prefix targetNode) (prefixLength targetNode) in
        let t := updNode (set_prefix p l) parentIndex t in
        Ok (deleteCount, Delete_release t targetNodeIndex)
      else Ok (deleteCount, t)
    else Ok (deleteCount, t)
  else if negb (Left targetNode =? 0) then
    t ← Delete_liftChild t parentIndex targetNodeIndex (Left targetNode);
    Ok (deleteCount, Delete_release t targetNodeIndex)
  else if negb (Right targetNode =? 0) then
    t ← Delete_liftChild t parentIndex targetNodeIndex (Right targetNode);
    Ok (deleteCount, Delete_release t targetNodeIndex)
  else
    if Left parent =? targetNodeIndex then
      let t := updNode (set_Left 0) parentIndex t in
      parent ← getNode t parentIndex;
      if (1 <? parentIndex) && (TagCount parent =? 0) && negb (Right parent =? 0) then
        t ← Delete_mergeSibling t parentIndex true;
        Ok (deleteCount, Delete_release t targetNodeIndex)
      else Ok (deleteCount, Delete_release t targetNodeIndex)
    else
      let t := updNode (set_Right 0) parentIndex t in
      parent ← getNode t parentIndex;
      if (1 <? parentIndex) && (TagCount parent =? 0) && negb (Left parent =? 0) then
        t ← Delete_mergeSibling t parentIndex false;
        Ok (deleteCount, Delete_release t targetNodeIndex)
      else Ok (deleteCount, Delete_release t targetNodeIndex).

(** [Delete] after the traversal has set [targetNodeIndex] and
    [parentIndex]. *)
Definition Delete_target (t : TreeV4) (parentIndex targetNodeIndex : nat)
    (matchFunc : MatchesFunc) (matchVal : uint16) : result (nat * TreeV4) :=
  targetNode ← getNode t targetNodeIndex;
  if TagCount targetNode =? 0 then Ok (0, t) else
  '(t, deleteCount, remainingTagCount) ← deleteTag t targetNodeIndex matchVal matchFunc;
  if 0 <? remainingTagCount then Ok (deleteCount, t)
  else if targetNodeIndex =? 1 then Ok (deleteCount, t)
  else Delete_compact t parentIndex targetNodeIndex deleteCount.

(** [Delete]: the removed count, the tree and the address as the call
    leaves it. *)
Definition Delete (fuel : nat) (t : TreeV4) (address : option IPv4Address)
    (matchFunc : MatchesFunc) (matchVal : uint16)
  : result (nat * TreeV4 * option IPv4Address) :=
  root ← getNode t 1;
  match address with
  | None => '(c, t) ← Delete_target t 0 1 matchFunc matchVal; Ok (c, t, None)
  | Some a =>
      if Length a =? 0 then
        '(c, t) ← Delete_target t 0 1 matchFunc matchVal; Ok (c, t, Some a)
      else
        let nodeIndex := if isLeftBit (Address a) then Left root else Right root in
        '(found, a) ← Delete_loop fuel t 1 nodeIndex a;
        match found with
        | None => Ok (0, t, Some a)
        | Some (parentIndex, targetNodeIndex) =>
            '(c, t) ← Delete_target t parentIndex targetNodeIndex matchFunc matchVal;
            Ok (c, t, Some a)
        end
  end.

(** ** Lookups *)

(** The traversal loop of [FindTags]; [ret] is the slice built so far. *)
Fixpoint FindTags_loop (fuel : nat) (t : TreeV4) (nodeIndex : nat)
    (address : IPv4Address) (ret : list uint16)
  : result (list uint16 * IPv4Address) :=
  match fuel with
  | O => OutOfFuel
  | S fuel =>
      if nodeIndex =? 0 then Ok (ret, address) else
      node ← getNode t nodeIndex;
      let matchCount := MatchCount node address in
      if matchCount <? prefixLength node then Ok (ret, address) else
      tgs ← (if 0 <? TagCount node then tagsForNode t nodeIndex else Ok []);
      let ret := ret ++ tgs in
      if matchCount =? Length address then Ok (ret, address) else
      let address := ShiftLeft address matchCount in
      FindTags_loop fuel t (if isLeftBit (Address address) then Left node else Right node)
                    address ret
  end.

Definition FindTags (fuel : nat) (t : TreeV4) (address : option IPv4Address)
  : result (list uint16 * option IPv4Address) :=
  root ← getNode t 1;
  ret ← (if 0 <? TagCount root then tagsForNode t 1 else Ok []);
  match address with
  | None => Ok (ret, None)
  | Some a =>
      if Length a =? 0 then Ok (ret, Some a) else
      '(ret, a) ← FindTags_loop fuel t (if isLeftBit (Address a) then Left root else Right root)
                                a ret;
      Ok (ret, Some a)
  end.

(** The traversal loop of [FindTagsWithFilter] for a non-nil filter. *)
Fixpoint FindTagsWithFilter_loop (fuel : nat) (t : TreeV4) (nodeIndex : nat)
    (address : IPv4Address) (filterFunc : FilterFunc) (ret : list uint16)
  : result (list uint16 * IPv4Address) :=
  match fuel with
  | O => OutOfFuel
  | S fuel =>
      if nodeIndex =? 0 then Ok (ret, address) else
      node ← getNode t nodeIndex;
      let matchCount := MatchCount node address in
      if matchCount <? prefixLength node then Ok (ret, address) else
      tgs ← (if 0 <? TagCount node then tagsForNode t nodeIndex else Ok []);
      let ret := ret ++ filter (λ tag, filterFunc tag = true) tgs in
      if matchCount =? Length address then Ok (ret, address) else
      let address := ShiftLeft address matchCount in
      FindTagsWithFilter_loop fuel t
        (if isLeftBit (Address address) then Left node else Right node)
        address filterFunc ret
  end.

(** [FindTagsWithFilter]; a nil [filterFunc] is [None]. *)
Definition FindTagsWithFilter (fuel : nat) (t : TreeV4) (address : option IPv4Address)
    (filterFunc : option FilterFunc) : result (list uint16 * option IPv4Address) :=
  root ← getNode t 1;
  match filterFunc with
  | None => FindTags fuel t address
  | Some filterFunc =>
      tgs ← (if 0 <? TagCount root then tagsForNode t 1 else Ok []);
      let ret := filter (λ tag, filterFunc tag = true) tgs in
      match address with
      | None => Ok (ret, None)
      | Some a =>
          if Length a =? 0 then Ok (ret, Some a) else
          '(ret, a) ← FindTagsWithFilter_loop fuel t
                        (if isLeftBit (Address a) then Left root else Right root)
                        a filterFunc ret;
          Ok (ret, Some a)
      end
  end.

(** The traversal loop of [FindDeepestTag]. *)
Fixpoint FindDeepestTag_loop (fuel : nat) (t : TreeV4) (nodeIndex : nat)
    (address : IPv4Address) (found : bool) (ret : uint16)
  : result (bool * uint16 * IPv4Address) :=
  match fuel with
  | O => OutOfFuel
  | S fuel =>
      if nodeIndex =? 0 then Ok (found, ret, address) else
      node ← getNode t nodeIndex;
      let matchCount := MatchCount node address in
      if matchCount <? prefixLength node then Ok (found, ret, address) else
      let '(found, ret) := if 0 <? TagCount node
                           then (true, firstTagForNode t nodeIndex)
                           else (found, ret) in
      if matchCount =? Length address then Ok (found, ret, address) else
      let address := ShiftLeft address matchCount in
      FindDeepestTag_loop fuel t
        (if isLeftBit (Address address) then Left node else Right node)
        address found ret
  end.

(** [FindDeepestTag] reads [address.Length] without a nil check: a nil
    address is a nil-pointer dereference. *)
Definition FindDeepestTag (fuel : nat) (t : TreeV4) (address : option IPv4Address)
  : result (bool * uint16 * option IPv4Address) :=
  root ← getNode t 1;
  let '(found, ret) := if 0 <? TagCount root
                       then (true, firstTagForNode t 1)
                       else (false, 0%Z) in
  match address with
  | None => Panic
  | Some a =>
      if Length a =? 0 then Ok (found, ret, Some a) else
      '(found, ret, a) ← FindDeepestTag_loop fuel t
                           (if isLeftBit (Address a) then Left root else Right root)
                           a found ret;
      Ok (found, ret, Some a)
  end.

(** ** The scenarios of the specification, run on the embedding *)

Definition cidr (a b c d : Z) (len : nat) : option IPv4Address :=
  Some (mkAddr (a * 2 ^ 24 + b * 2 ^ 16 + c * 2 ^ 8 + d)%Z len).

Definition treeOf (r : result (TreeV4 * option IPv4Address)) : TreeV4 :=
  match r with
  | Ok (t, _) => t
  | _ => NewTreeV4
  end.

Definition treeOfDelete (r : result (nat * TreeV4 * option IPv4Address)) : TreeV4 :=
  match r with
  | Ok (_, t, _) => t
  | _ => NewTreeV4
  end.

Definition tagsOf (r : result (list uint16 * option IPv4Address)) : option (list uint16) :=
  match r with
  | Ok (l, _) => Some l
  | _ => None
  end.

Definition matchAll : MatchesFunc := λ _ _, true.

Definition addTo (t : TreeV4) (a : option IPv4Address) (tag : uint16) : TreeV4 :=
  treeOf (Add 33 t a tag).

Definition deleteAllAt (t : TreeV4) (a : option IPv4Address) : TreeV4 :=
  treeOfDelete (Delete 33 t a matchAll 0%Z).

Definition scenario5_tree : TreeV4 :=
  addTo (addTo NewTreeV4 (cidr 0 0 0 0 2) 1%Z) (cidr 64 0 0 0 2) 2%Z.


(** ** Well-formed inputs and runs of operations *)

(** An address as the callers build it: a 32-bit prefix and a length of at
    most 32. *)
Definition addr_ok (a : IPv4Address) : Prop :=
  (0 ≤ Address a < 2 ^ 32)%Z ∧ Length a ≤ 32.

Definition oaddr_ok (a : option IPv4Address) : Prop :=
  match a with
  | None => True
  | Some a => addr_ok a
  end.

Inductive operation : Type :=
| OpAdd (address : option IPv4Address) (tag : uint16)
| OpDelete (address : option IPv4Address) (matchFunc : MatchesFunc) (matchVal : uint16).

Definition op_ok (o : operation) : Prop :=
  match o with
  | OpAdd a _ => oaddr_ok a
  | OpDelete a _ _ => oaddr_ok a
  end.

Definition apply_op (fuel : nat) (t : TreeV4) (o : operation) : result TreeV4 :=
  match o with
  | OpAdd a tag => '(t, _) ← Add fuel t a tag; Ok t
  | OpDelete a f v => '(_, t, _) ← Delete fuel t a f v; Ok t
  end.

Fixpoint run (fuel : nat) (t : TreeV4) (ops : list operation) : result TreeV4 :=
  match ops with
  | [] => Ok t
  | o :: ops => t ← apply_op fuel t o; run fuel t ops
  end.

(** ** Reachability and the structural property of nodes *)

Inductive reachable (t : TreeV4) : nat → Prop :=
| reachable_root : reachable t 1
| reachable_left i n :
    reachable t i → nodes t !! i = Some n → Left n ≠ 0 → reachable t (Left n)
| reachable_right i n :
    reachable t i → nodes t !! i = Some n → Right n ≠ 0 → reachable t (Right n).

(** The high bit of a stored prefix. *)
Definition highBit (x : Z) : bool := Z.testbit x 31.

(** What the specification asks of a reachable node [n] at index [i]. *)
Definition node_structure_ok (t : TreeV4) (i : nat) (n : treeNodeV4) : Prop :=
  (i ≠ 1 → 1 ≤ prefixLength n ∧ (1 ≤ TagCount n ∨ (Left n ≠ 0 ∧ Right n ≠ 0))) ∧
  (Left n ≠ 0 → ∃ c, nodes t !! Left n = Some c ∧ highBit (prefix c) = false) ∧
  (Right n ≠ 0 → ∃ c, nodes t !! Right n = Some c ∧ highBit (prefix c) = true).

Definition structure_ok (t : TreeV4) : Prop :=
  ∀ i, reachable t i → ∃ n, nodes t !! i = Some n ∧ node_structure_ok t i n.

(** ** The invariant of the arena

    [live] is the set of indexes in use, [depth i] the number of address
    bits consumed on the way from the root to node [i], that node
    included, and [parent i] the node whose child pointer holds [i]. *)

(** The child on the side [s]: [true] is [Left], the side of a leading
    zero bit. *)
Definition child (s : bool) (n : treeNodeV4) : nat :=
  if s then Left n else Right n.

Definition set_child (s : bool) (v : nat) (n : treeNodeV4) : treeNodeV4 :=
  if s then set_Left v n else set_Right v n.

Record inv_with (live : nat → Prop) (depth parent : nat → nat) (t : TreeV4)
  : Prop := {
  inv_root : live 1;
  inv_root_depth : depth 1 = 0;
  inv_depth : ∀ i, live i → depth i ≤ 32;
  inv_bound : ∀ i, live i → 1 ≤ i < length (nodes t);
  inv_range : ∀ i n, live i → nodes t !! i = Some n → (0 ≤ prefix n < 2 ^ 32)%Z;
  inv_child : ∀ i n s, live i → nodes t !! i = Some n → child s n ≠ 0 →
    live (child s n) ∧ parent (child s n) = i ∧
    ∃ c, nodes t !! child s n = Some c ∧ isLeftBit (prefix c) = s ∧
         1 ≤ prefixLength c ∧ depth (child s n) = depth i + prefixLength c;
  inv_useful : ∀ i n, live i → i ≠ 1 → nodes t !! i = Some n →
    1 ≤ prefixLength n ∧ (1 ≤ TagCount n ∨ (Left n ≠ 0 ∧ Right n ≠ 0));
  inv_free : ∀ i, i ∈ availableIndexes t → ¬ live i ∧ 2 ≤ i < length (nodes t);
  inv_free_nodup : NoDup (availableIndexes t)
}.

Definition inv (t : TreeV4) : Prop := ∃ live depth parent, inv_with live depth parent t.

(** Room left in the key encoding [(index << 32) + slot]: [k] more nodes
    pairs and [k] more tags per node fit. *)
Definition key_room (k : nat) (t : TreeV4) : Prop :=
  (Z.of_nat (length (nodes t)) + 2 * Z.of_nat k ≤ 2 ^ 32)%Z ∧
  ∀ i n, nodes t !! i = Some n → (Z.of_nat (TagCount n) + Z.of_nat k ≤ 2 ^ 32)%Z.

(** ** Absent addresses *)

Definition child_for (n : treeNodeV4) (a : IPv4Address) : nat :=
  child (isLeftBit (Address a)) n.

(** [absent t i a]: the traversal that stands at node index [i] with the
    remaining address [a] reaches a zero child index or a node that [a]
    does not match in full. *)
Inductive absent (t : TreeV4) : nat → IPv4Address → Prop :=
| absent_zero a : absent t 0 a
| absent_short i n a :
    i ≠ 0 → nodes t !! i = Some n → MatchCount n a < prefixLength n →
    absent t i a
| absent_step i n a :
    i ≠ 0 → nodes t !! i = Some n → prefixLength n ≤ MatchCount n a →
    MatchCount n a ≠ Length a →
    absent t (child_for n (ShiftLeft a (MatchCount n a))) (ShiftLeft a (MatchCount n a)) →
    absent t i a.

Definition absent_in (t : TreeV4) (a : IPv4Address) : Prop :=
  Length a ≠ 0 ∧ ∃ root, nodes t !! 1 = Some root ∧ absent t (child_for root a) a.

(** ** The matching path of an address, on bit strings *)

Definition prefix_bits (n : treeNodeV4) : list bool :=
  take (prefixLength n) (bits32 (prefix n)).

Definition address_bits (a : IPv4Address) : list bool :=
  take (Length a) (bits32 (Address a)).

Fixpoint is_prefix (xs ys : list bool) : bool :=
  match xs, ys with
  | [], _ => true
  | x :: xs', y :: ys' => Bool.eqb x y && is_prefix xs' ys'
  | _ :: _, [] => false
  end.

(** The nodes below the root whose accumulated prefix is a prefix of the
    address bits [ab]: [i] is the next node on the path and [acc] the bits
    accumulated above it; the child is chosen by the address bit that
    follows the accumulated prefix. *)
Fixpoint matching_path (fuel : nat) (t : TreeV4) (i : nat) (acc ab : list bool)
  : list nat :=
  match fuel with
  | O => []
  | S fuel =>
      if i =? 0 then [] else
      match nodes t !! i with
      | None => []
      | Some n =>
          let acc' := acc ++ prefix_bits n in
          if is_prefix acc' ab then
            i :: match (ab !! length acc' : option bool) with
                 | None => []
                 | Some b => matching_path fuel t (if b then Right n else Left n) acc' ab
                 end
          else []
      end
  end.

(** The root, whose accumulated prefix is empty, then the matching nodes
    below it. *)
Definition matching_nodes (t : TreeV4) (address : option IPv4Address) : list nat :=
  1 :: match address, nodes t !! 1 with
       | Some a, Some root =>
           match address_bits a with
           | [] => []
           | b :: _ =>
               matching_path (Length a) t (if b then Right root else Left root)
                             [] (address_bits a)
           end
       | _, _ => []
       end.

(** The tags attached to a node, in insertion order. *)
Definition node_tags (t : TreeV4) (i : nat) : list uint16 :=
  match tagsForNode t i with
  | Ok l => l
  | _ => []
  end.

(** The first tag of the last node of [path] that has a tag. *)
Definition deepest_tag (t : TreeV4) (path : list nat) : option uint16 :=
  last (omap (λ i, head (node_tags t i)) path).

(** ** Trees used as concrete inputs *)

Definition matchEq : MatchesFunc := λ (payload val : Z), (payload =? val)%Z.

(** [10.0.0.0/8] tagged 1 with a tag-free splitter [10.0.0.0/10] below it,
    over the leaves [10.0.0.0/12] and [10.32.0.0/11]. *)
Definition splitter_tree : TreeV4 :=
  addTo (addTo (addTo NewTreeV4 (cidr 10 0 0 0 8) 1%Z) (cidr 10 0 0 0 12) 3%Z)
        (cidr 10 32 0 0 11) 4%Z.

(** The same tree with the tag 2 on [10.0.0.0/10]. *)
Definition tagged_splitter_tree : TreeV4 :=
  addTo splitter_tree (cidr 10 0 0 0 10) 2%Z.

(** [10.0.0.0/8] tagged 1 and, below it, [10.128.0.0/9] tagged 2 and 3. *)
Definition two_node_tree : TreeV4 :=
  addTo (addTo (addTo NewTreeV4 (cidr 10 0 0 0 8) 1%Z) (cidr 10 128 0 0 9) 2%Z)
        (cidr 10 128 0 0 9) 3%Z.

(** ** Statements about single calls, as the specification words them *)

(** [moveTags] appended the tags of [fromIndex] to those of [toIndex] and
    left [fromIndex] without tags. *)
Definition moveTags_appends (t : TreeV4) (fromIndex toIndex : nat) : Prop :=
  ∃ t' nf,
    moveTags t fromIndex toIndex = Ok t' ∧
    tagsForNode t' toIndex = Ok (node_tags t toIndex ++ node_tags t fromIndex) ∧
    nodes t' !! fromIndex = Some nf ∧ TagCount nf = 0.

(** Between [t] and [t'] the node [targetNodeIndex] was absorbed into
    [parentIndex] and its index released. *)
Definition absorbed_into_parent (t t' : TreeV4) (parentIndex targetNodeIndex : nat)
  : Prop :=
  ∃ p tn p',
    nodes t !! parentIndex = Some p ∧
    nodes t !! targetNodeIndex = Some tn ∧
    nodes t' !! parentIndex = Some p' ∧
    Left p' = Left tn ∧ Right p' = Right tn ∧
    (prefix p', prefixLength p')
      = MergePrefixes32 (prefix p) (prefixLength p) (prefix tn) (prefixLength tn) ∧
    targetNodeIndex ∈ availableIndexes t'.

Definition occurrences (tag : uint16) (l : list uint16) : nat :=
  length (filter (λ x, x = tag) l).

(** What node allocation relies on: the free list holds distinct indexes
    of the arena that are not in use. *)
Record alloc_ok (live : nat → Prop) (t : TreeV4) : Prop := {
  alloc_len : 2 ≤ length (nodes t);
  alloc_bound : ∀ i, live i → i < length (nodes t);
  alloc_free : ∀ i, i ∈ availableIndexes t → ¬ live i ∧ 2 ≤ i < length (nodes t);
  alloc_nodup : NoDup (availableIndexes t)
}.

(** Update of an index-indexed function, for [depth] and [parent]. *)
Definition upd (f : nat → nat) (k v : nat) : nat → nat :=
  λ j, if decide (j = k) then v else f j.

(** A run that exercises the split, the insertion above a node and the
    compaction with a sibling merge. *)
Definition example_ops : list operation :=
  [ OpAdd (cidr 0 0 0 0 2) 1%Z;
    OpAdd (cidr 64 0 0 0 2) 2%Z;
    OpAdd (cidr 10 0 0 0 16) 3%Z;
    OpAdd (cidr 10 0 0 0 8) 4%Z;
    OpAdd None 7%Z;
    OpDelete (cidr 0 0 0 0 2) matchAll 0%Z;
    OpDelete (cidr 10 0 0 0 8) matchEq 4%Z ].

(** ** Helpers for stating properties of results *)

Definition result_map {A B : Type} (f : A → B) (r : result A) : result B :=
  match r with
  | Ok a => Ok (f a)
  | Panic => Panic
  | OutOfFuel => OutOfFuel
  end.

(** Indexes and tag counts for which the key [(index << 32) + slot] does
    not wrap or collide. *)
Definition index_ok (i : nat) : Prop := (Z.of_nat i < 2 ^ 32)%Z.
Definition count_ok (c : nat) : Prop := (Z.of_nat c ≤ 2 ^ 32)%Z.

(** ** Trees built by the operations *)

(** [t] is the result of a sequence of [Add] and [Delete] calls, on
    addresses of length at most 32, that starts from a new tree. *)
Definition built (t : TreeV4) : Prop :=
  ∃ fuel ops, 32 ≤ fuel ∧ Forall op_ok ops ∧ run fuel NewTreeV4 ops = Ok t.

Definition example_tree : TreeV4 :=
  match run 32 NewTreeV4 example_ops with
  | Ok t => t
  | _ => NewTreeV4
  end.

(** ** The steps of a lookup *)

(** The state of a lookup loop about to visit the child [i] of the live
    node [p]: [acc] is the part of the address bits [ab] consumed so far
    and [a] holds the rest. *)
Record at_path (live : nat → Prop) (t : TreeV4) (ab : list bool)
    (p i : nat) (a : IPv4Address) (acc : list bool) : Prop := {
  at_parent : ∃ np s, live p ∧ nodes t !! p = Some np ∧ child s np = i;
  at_length : 1 ≤ Length a ≤ 32;
  at_range : (0 ≤ Address a < 2 ^ 32)%Z;
  at_rest : address_bits a = drop (length acc) ab;
  at_done : take (length acc) ab = acc }.

(** What one iteration of a lookup loop finds at [i]. *)
Inductive path_step (t : TreeV4) (ab : list bool) (i : nat) (a : IPv4Address)
    (acc : list bool) (n : treeNodeV4) (next : option (nat * IPv4Address)) : Prop :=
| step_short :
    MatchCount n a < prefixLength n →
    is_prefix (acc ++ prefix_bits n) ab = false →
    next = None → path_step t ab i a acc n next
| step_exact :
    MatchCount n a = prefixLength n → MatchCount n a = Length a →
    is_prefix (acc ++ prefix_bits n) ab = true →
    ab !! length (acc ++ prefix_bits n) = None →
    next = None → path_step t ab i a acc n next
| step_down b :
    MatchCount n a = prefixLength n → MatchCount n a < Length a →
    is_prefix (acc ++ prefix_bits n) ab = true →
    ab !! length (acc ++ prefix_bits n) = Some b →
    isLeftBit (Address (ShiftLeft a (MatchCount n a))) = negb b →
    next = Some (child (negb b) n, ShiftLeft a (MatchCount n a)) →
    path_step t ab i a acc n next.

(** ** The node an address is stored at *)

(** The prefix bits of the nodes of [path], one after the other. *)
Definition accumulated (t : TreeV4) (path : list nat) : list bool :=
  concat (map (λ i, match nodes t !! i with
                    | Some n => prefix_bits n
                    | None => []
                    end) path).

(** The last node of the matching path of [a], when the prefixes
    accumulated below the root make up the whole of [a]. *)
Definition stored_at (t : TreeV4) (a : IPv4Address) : option nat :=
  let path := matching_nodes t (Some a) in
  if bool_decide (accumulated t (tail path) = address_bits a) then last path else None.

(** The tags stored for the address [a]. *)
Definition stored_tags (t : TreeV4) (a : IPv4Address) : list uint16 :=
  match stored_at t a with
  | Some i => node_tags t i
  | None => []
  end.

(** [t'] has the nodes of [t] with the same children and prefixes, and
    the same free list: at most tag counts and tags differ. *)
Definition same_shape (t t' : TreeV4) : Prop :=
  length (nodes t') = length (nodes t) ∧
  availableIndexes t' = availableIndexes t ∧
  ∀ j nj, nodes t !! j = Some nj →
    ∃ nj', nodes t' !! j = Some nj' ∧ Left nj' = Left nj ∧ Right nj' = Right nj ∧
           prefix nj' = prefix nj ∧ prefixLength nj' = prefixLength nj.

(** Every node other than [i] has in [t'] the tags it has in [t]. *)
Definition other_tags_kept (t t' : TreeV4) (i : nat) : Prop :=
  ∀ j nj, j ≠ i → nodes t !! j = Some nj → index_ok j → count_ok (TagCount nj) →
          tagsForNode t' j = tagsForNode t j.

(** The tags of the nodes of [path], in the order of the path. *)
Definition path_tags (t : TreeV4) (path : list nat) : list uint16 :=
  concat (map (node_tags t) path).

(** What a call of the loop of [Add] at the child [i] of [p] does to the
    lookups: the child pointer of [p] now leads to [c'], the nodes down
    to the depth of [p] are otherwise as before and keep their tags, and
    the tags along the matching path below [p] are the old ones followed
    by the new tag. *)
Definition adds_tag (live : nat → Prop) (depth : nat → nat) (t t' : TreeV4)
    (ab : list bool) (tag : uint16) (fuel : nat) (p : nat) (s : bool) (i c' : nat)
    (acc : list bool) : Prop :=
  c' ≠ 0 ∧
  (∀ j nj, live j → depth j ≤ depth p → nodes t !! j = Some nj →
     nodes t' !! j = Some (if decide (j = p) then set_child s c' nj else nj) ∧
     node_tags t' j = node_tags t j) ∧
  path_tags t' (matching_path fuel t' c' acc ab)
  = path_tags t (matching_path fuel t i acc ab) ++ [tag].

(** ** Agreement of the two lookups *)

(** The answer [(found, tag)] of [FindDeepestTag] fits the list [tgs] of
    [FindTags]: a tag that is found is in the list, and nothing is found
    only when the list is empty. *)
Definition deepest_in (found : bool) (tag : uint16) (tgs : list uint16) : Prop :=
  if found then tag ∈ tgs else tgs = [].

(** The outcomes of the two lookups agree: they fail in the same way, or
    both return, leave the address in the same state, and the tag found
    fits the list. *)
Definition lookups_agree {A : Type} (d : result (bool * uint16 * A))
    (f : result (list uint16 * A)) : Prop :=
  match d, f with
  | Ok (found, tag, a1), Ok (tgs, a2) => a1 = a2 ∧ deepest_in found tag tgs
  | Panic, Panic => True
  | OutOfFuel, OutOfFuel => True
  | _, _ => False
  end.

(** ** Counting *)

(** [countNodes]: the recursion follows child indexes, so it takes fuel. *)
Fixpoint countNodes (fuel : nat) (t : TreeV4) (nodeIndex : nat) : result nat :=
  match fuel with
  | O => OutOfFuel
  | S fuel =>
      node ← getNode t nodeIndex;
      l ← (if Left node =? 0 then Ok 0 else countNodes fuel t (Left node));
      r ← (if Right node =? 0 then Ok 0 else countNodes fuel t (Right node));
      Ok (1 + l + r)
  end.

Fixpoint countTags (fuel : nat) (t : TreeV4) (nodeIndex : nat) : result nat :=
  match fuel with
  | O => OutOfFuel
  | S fuel =>
      node ← getNode t nodeIndex;
      l ← (if Left node =? 0 then Ok 0 else countTags fuel t (Left node));
      r ← (if Right node =? 0 then Ok 0 else countTags fuel t (Right node));
      Ok (TagCount node + l + r)
  end.

(** [below t c j]: the node [j] is [c] or is reached from [c] by child
    pointers. *)
Inductive below (t : TreeV4) (c : nat) : nat → Prop :=
| below_refl : below t c c
| below_child i n s :
    below t c i → nodes t !! i = Some n → child s n ≠ 0 → below t c (child s n).

(** The nodes [countNodes] visits from [i], in the order of the visits. *)
Fixpoint subtree (fuel : nat) (t : TreeV4) (i : nat) : list nat :=
  match fuel with
  | O => []
  | S fuel =>
      match nodes t !! i with
      | None => []
      | Some n =>
          i :: (if Left n =? 0 then [] else subtree fuel t (Left n))
            ++ (if Right n =? 0 then [] else subtree fuel t (Right n))
      end
  end.

(** The common shape of [countNodes] and [countTags]: each visited node
    weighs [w]. *)
Fixpoint count_by (w : treeNodeV4 → nat) (fuel : nat) (t : TreeV4) (i : nat)
  : result nat :=
  match fuel with
  | O => OutOfFuel
  | S fuel =>
      node ← getNode t i;
      l ← (if Left node =? 0 then Ok 0 else count_by w fuel t (Left node));
      r ← (if Right node =? 0 then Ok 0 else count_by w fuel t (Right node));
      Ok (w node + l + r)
  end.

(** The weight of the node at index [j]. *)
Definition weight_at (w : treeNodeV4 → nat) (t : TreeV4) (j : nat) : nat :=
  match nodes t !! j with
  | Some n => w n
  | None => 0
  end.

(** The weights of [countNodes] ([alpha = 1], [beta = 0]) and of
    [countTags] ([alpha = 0], [beta = 1]). *)
Definition linear_weight (alpha beta : nat) (n : treeNodeV4) : nat :=
  alpha + beta * TagCount n.

(** The count a child pointer contributes. *)
Definition side_count (w : treeNodeV4 → nat) (fuel : nat) (t : TreeV4) (c : nat)
  : result nat :=
  if c =? 0 then Ok 0 else count_by w fuel t c.

(** What a call of the loop of [Add] at the child [i] of [p] does to the
    counts: the child pointer of [p] now leads to [c'], the nodes that
    are not below [i] are otherwise as before, and the count below grows
    by one tag and at most two nodes. *)
Definition add_counts (live : nat → Prop) (t t' : TreeV4) (alpha beta : nat)
    (p : nat) (s : bool) (i c' : nat) : Prop :=
  c' ≠ 0 ∧
  (∀ j nj, live j → ¬ below t i j → nodes t !! j = Some nj →
     nodes t' !! j = Some (if decide (j = p) then set_child s c' nj else nj)) ∧
  (∀ cf x, count_by (linear_weight alpha beta) cf t i = Ok x →
     ∃ cf' m, m ≤ 2 ∧
       count_by (linear_weight alpha beta) cf' t' c' = Ok (x + m * alpha + beta)).

(** Between [t] and [t'] the nodes that are not below [r] are the same
    and the count from [r] has gone down by the [d] tags of a node and
    by two nodes at most. *)
Definition shrinks (live : nat → Prop) (t t' : TreeV4) (alpha beta : nat)
    (r d : nat) : Prop :=
  (∀ j, live j → ¬ below t r j → nodes t' !! j = nodes t !! j) ∧
  ∃ m, m ≤ 2 ∧
    ∀ cf x, count_by (linear_weight alpha beta) cf t r = Ok x →
      ∃ cf' x', count_by (linear_weight alpha beta) cf' t' r = Ok x' ∧
                x' + (m * alpha + beta * d) = x + 0.

(** Scenario 1. *)
Example scenario1 :
  let t := addTo NewTreeV4 (cidr 10 0 0 0 8) 1%Z in
  tagsOf (FindTags 33 t (cidr 10 1 2 3 32)) = Some [1%Z] ∧
  FindDeepestTag 33 t (cidr 10 1 2 3 32)
    = Ok (true, 1%Z, Some (mkAddr (shl32 (10 * 2 ^ 24 + 1 * 2 ^ 16 + 2 * 2 ^ 8 + 3) 8) 24)) ∧
  tagsOf (FindTags 33 t (cidr 11 0 0 0 8)) = Some [].
Proof. vm_compute. auto. Qed.

(** Scenario 2. *)
Example scenario2 :
  let t := addTo (addTo NewTreeV4 (cidr 10 0 0 0 8) 1%Z) (cidr 10 128 0 0 9) 2%Z in
  tagsOf (FindTags 33 t (cidr 10 129 0 0 16)) = Some [1%Z; 2%Z] ∧
  tagsOf (FindTags 33 t (cidr 10 1 0 0 16)) = Some [1%Z].
Proof. vm_compute. auto. Qed.

(** Scenario 4: an intermediate node is inserted above an existing one. *)
Example scenario4 :
  let t := addTo (addTo NewTreeV4 (cidr 10 0 0 0 16) 1%Z) (cidr 10 0 0 0 8) 2%Z in
  tagsOf (FindTags 33 t (cidr 10 0 5 0 24)) = Some [2%Z; 1%Z].
Proof. vm_compute. auto. Qed.

(** Scenario 5: two leaves under a splitter; deleting one merges the other
    into the splitter's slot. *)
Example scenario5 :
  nodes scenario5_tree =
    [zeroNode; mkNode 3 0 0 0 0; mkNode 0 0 0 1 1;
     mkNode 2 4 (2 ^ 30) 1 0; mkNode 0 0 (2 ^ 31) 1 1] ∧
  let t := deleteAllAt scenario5_tree (cidr 0 0 0 0 2) in
  nodes t !! 1 = Some (mkNode 3 0 0 0 0) ∧
  nodes t !! 3 = Some (mkNode 0 0 (2 ^ 30) 2 1) ∧
  tagsOf (FindTags 33 t (cidr 64 0 0 0 2)) = Some [2%Z] ∧
  availableIndexes t = [2].
Proof. vm_compute. auto 10. Qed.

(** Scenario 6: root tags. *)
Example scenario6 :
  let t := addTo NewTreeV4 None 7%Z in
  tagsOf (FindTags 33 t None) = Some [7%Z] ∧
  tagsOf (FindTags 33 t (cidr 192 168 0 1 32)) = Some [7%Z].
Proof. vm_compute. auto. Qed.

(** ** Reading results *)

Lemma bind_Ok {A B} (m : result A) (f : A → result B) (b : B) :
  (m ≫= f) = Ok b → ∃ a, m = Ok a ∧ f a = Ok b.
Proof. destruct m; simpl; intros H; try discriminate. eauto. Qed.

(** ** The nil filter *)

(** C10: with a nil filter function [FindTagsWithFilter] returns what
    [FindTags] returns on the same tree and address. *)
Theorem FindTagsWithFilter_nil_filter (fuel : nat) (t : TreeV4)
    (address : option IPv4Address) :
  FindTagsWithFilter fuel t address None = FindTags fuel t address.
Proof.
  unfold FindTagsWithFilter, FindTags.
  destruct (getNode t 1) as [root| |]; reflexivity.
Qed.

(** ** The nil address in FindDeepestTag *)

(** C7: [FindDeepestTag] dereferences a nil address and panics, on every
    tree, where [FindTags] returns the root tags. *)
Theorem FindDeepestTag_nil_panics (fuel : nat) (t : TreeV4) :
  FindDeepestTag fuel t None = Panic.
Proof.
  unfold FindDeepestTag, getNode.
  destruct (nodes t !! 1) as [root|]; simpl; [|reflexivity].
  destruct (0 <? TagCount root); reflexivity.
Qed.

Lemma FindTags_nil_root_tags :
  FindTags 33 (addTo NewTreeV4 None 7%Z) None = Ok ([7%Z], None).
Proof. vm_compute. reflexivity. Qed.

(** For a zero-length address [FindDeepestTag] reports the root alone. *)
Lemma FindDeepestTag_zero_length (fuel : nat) (t : TreeV4) (root : treeNodeV4)
    (a : IPv4Address) :
  nodes t !! 1 = Some root → Length a = 0 →
  FindDeepestTag fuel t (Some a)
  = Ok (if 0 <? TagCount root then (true, firstTagForNode t 1, Some a)
        else (false, 0%Z, Some a)).
Proof.
  intros Hr Hl. unfold FindDeepestTag, getNode. rewrite Hr. simpl.
  destruct (0 <? TagCount root); rewrite Hl; reflexivity.
Qed.

(** ** The round trip on two sibling leaves *)

(** C1: after inserting [0.0.0.0/2] and [64.0.0.0/2] and deleting both with
    a match-everything predicate only the root is left, three indexes
    (2, 3, 4) have been allocated, and the free list holds 2 and 3 only:
    index 4, the sibling absorbed into the splitter, is not released. *)
Theorem roundtrip_leaks_absorbed_sibling :
  ∃ t1 t2 a1 a2,
    Delete 33 scenario5_tree (cidr 0 0 0 0 2) matchAll 0%Z = Ok (1, t1, a1) ∧
    Delete 33 t1 (cidr 64 0 0 0 2) matchAll 0%Z = Ok (1, t2, a2) ∧
    nodes t2 !! 1 = Some zeroNode ∧
    length (nodes t2) = 5 ∧
    availableIndexes t2 = [2; 3] ∧
    4 ∉ availableIndexes t2.
Proof.
  eexists _, _, _, _.
  split; [vm_compute; reflexivity|].
  split; [vm_compute; reflexivity|].
  split; [vm_compute; reflexivity|].
  split; [vm_compute; reflexivity|].
  split; [vm_compute; reflexivity|].
  vm_compute. intros H. repeat (apply elem_of_cons in H as [H|H]; [discriminate|]).
  by apply elem_of_nil in H.
Qed.

(** ** Counterexamples *)

(** C8, as stated, fails: moving the tags [2; 3] of node 3 onto node 2,
    which holds the tag [1], overwrites slot 0 of node 2 and leaves its
    last slot unset. *)
Lemma moveTags_onto_tagged_node_overwrites :
  tagsForNode two_node_tree 2 = Ok [1%Z] ∧
  tagsForNode two_node_tree 3 = Ok [2%Z; 3%Z] ∧
  (∃ t', moveTags two_node_tree 3 2 = Ok t' ∧ tagsForNode t' 2 = Ok [2%Z; 3%Z; 0%Z]) ∧
  ¬ moveTags_appends two_node_tree 3 2.
Proof.
  split; [vm_compute; reflexivity|].
  split; [vm_compute; reflexivity|].
  split.
  - eexists. split; [vm_compute; reflexivity|]. vm_compute. reflexivity.
  - intros (t' & nf & Hm & Ht & _).
    vm_compute in Hm. injection Hm as <-.
    vm_compute in Ht. discriminate.
Qed.

(** C9, as stated, fails: [10.0.0.0/10] is a tag-free node with two
    children whose parent (index 2, not the root) has no other child; the
    traversal of [Delete] locates it, and [Delete] returns 0 without
    touching the tree. *)
Lemma Delete_untagged_splitter_not_compacted :
  Delete_loop 33 splitter_tree 1 2 (mkAddr (10 * 2 ^ 24) 10)
    = Ok (Some (2, 4), mkAddr 0 2) ∧
  nodes splitter_tree !! 2 = Some (mkNode 4 0 (10 * 2 ^ 24) 8 1) ∧
  nodes splitter_tree !! 4 = Some (mkNode 3 5 (2 ^ 29) 2 0) ∧
  Delete 33 splitter_tree (cidr 10 0 0 0 10) matchAll 0%Z
    = Ok (0, splitter_tree, Some (mkAddr 0 2)) ∧
  ¬ absorbed_into_parent splitter_tree splitter_tree 2 4.
Proof.
  split; [vm_compute; reflexivity|].
  split; [vm_compute; reflexivity|].
  split; [vm_compute; reflexivity|].
  split; [vm_compute; reflexivity|].
  intros (p & tn & p' & _ & _ & _ & _ & _ & _ & Hfree).
  vm_compute in Hfree. by apply elem_of_nil in Hfree.
Qed.

(** C5, as stated, fails: on a tree that already holds [(10.0.0.0/8, 1)],
    adding the pair twice gives three occurrences of the tag. *)
Lemma Add_twice_on_tagged_prefix_three_occurrences :
  let a := cidr 10 0 0 0 8 in
  let t := addTo NewTreeV4 a 1%Z in
  ∃ t1 t2 l a',
    Add 33 t a 1%Z = Ok (t1, a) ∧ Add 33 t1 a 1%Z = Ok (t2, a) ∧
    FindTags 33 t2 a = Ok (l, a') ∧ occurrences 1%Z l = 3.
Proof.
  eexists _, _, _, _.
  split; [vm_compute; reflexivity|].
  split; [vm_compute; reflexivity|].
  split; [vm_compute; reflexivity|].
  vm_compute. reflexivity.
Qed.

(** ** Bits, shifts and match counts *)

Lemma length_bits32 x : length (bits32 x) = 32.
Proof. unfold bits32. by rewrite length_map, length_seq. Qed.

Lemma lookup_bits32 x i : i < 32 → bits32 x !! i = Some (bit32 x i).
Proof.
  intros Hi. unfold bits32. rewrite list_lookup_fmap, lookup_seq_lt by done.
  reflexivity.
Qed.

Lemma lookup_bits32_ge x i : 32 ≤ i → bits32 x !! i = None.
Proof. intros Hi. apply lookup_ge_None_2. by rewrite length_bits32. Qed.

Lemma bits32_head x : ∃ bs, bits32 x = bit32 x 0 :: bs.
Proof. unfold bits32. simpl. eauto. Qed.

Lemma testbit31 x :
  (0 ≤ x < 2 ^ 32)%Z → Z.testbit x 31 = negb (x <? 2 ^ 31)%Z.
Proof.
  intros Hx.
  assert (Hd : (0 ≤ x / 2 ^ 31 < 2)%Z).
  { split; [apply Z.div_pos; lia|]. apply Z.div_lt_upper_bound; lia. }
  destruct (Z.testbit x 31) eqn:E.
  - apply Z.testbit_true in E; [|lia].
    destruct (Z.ltb_spec x (2 ^ 31)) as [Hlt|Hge]; [|done].
    rewrite Z.div_small in E by lia. discriminate.
  - apply Z.testbit_false in E; [|lia].
    destruct (Z.ltb_spec x (2 ^ 31)) as [Hlt|Hge]; [done|].
    assert (1 ≤ x / 2 ^ 31)%Z by (apply Z.div_le_lower_bound; lia).
    assert (x / 2 ^ 31 = 1)%Z as Heq by lia. rewrite Heq in E. discriminate.
Qed.

Lemma isLeftBit_bit32 x :
  (0 ≤ x < 2 ^ 32)%Z → isLeftBit x = negb (bit32 x 0).
Proof.
  intros Hx. unfold isLeftBit, _leftmost32Bit, bit32.
  change (31 - Z.of_nat 0)%Z with 31%Z.
  rewrite testbit31 by done. by rewrite negb_involutive.
Qed.

Lemma highBit_isLeftBit x :
  (0 ≤ x < 2 ^ 32)%Z → highBit x = negb (isLeftBit x).
Proof. intros Hx. unfold highBit, isLeftBit, _leftmost32Bit. by apply testbit31. Qed.

Lemma shl32_range x n : (0 ≤ shl32 x n < 2 ^ 32)%Z.
Proof. unfold shl32. apply Z.mod_pos_bound. lia. Qed.

Lemma bit32_shl32 x n i :
  i < 32 → bit32 (shl32 x n) i = if decide (i + n < 32) then bit32 x (i + n) else false.
Proof.
  intros Hi. unfold bit32, shl32.
  rewrite Z.mod_pow2_bits_low by lia.
  case_decide as Hin.
  - rewrite Z.shiftl_spec by lia. f_equal. lia.
  - rewrite Z.shiftl_spec_low by lia. reflexivity.
Qed.

Lemma bits32_shl32 x n :
  bits32 (shl32 x n) = drop n (bits32 x) ++ replicate (min n 32) false.
Proof.
  apply list_eq. intros i.
  destruct (decide (i < 32)) as [Hi|Hi].
  - rewrite lookup_bits32, bit32_shl32 by done.
    case_decide as Hin.
    + rewrite lookup_app_l by (rewrite length_drop, length_bits32; lia).
      rewrite lookup_drop, lookup_bits32 by lia. do 2 f_equal. lia.
    + rewrite lookup_app_r by (rewrite length_drop, length_bits32; lia).
      rewrite length_drop, length_bits32.
      symmetry. apply lookup_replicate_2. lia.
  - rewrite lookup_bits32_ge by lia. symmetry. apply lookup_ge_None_2.
    rewrite length_app, length_drop, length_bits32, length_replicate. lia.
Qed.

Lemma address_bits_ShiftLeft a m :
  Length a ≤ 32 → m ≤ Length a →
  address_bits (ShiftLeft a m) = drop m (address_bits a).
Proof.
  intros Hl Hm. unfold address_bits, ShiftLeft. simpl.
  rewrite bits32_shl32.
  rewrite take_app_le by (rewrite length_drop, length_bits32; lia).
  rewrite take_drop_commute. do 2 f_equal. lia.
Qed.

(** *** Common prefixes *)

Lemma common_prefix_length_le xs ys :
  common_prefix_length xs ys ≤ length xs ∧ common_prefix_length xs ys ≤ length ys.
Proof.
  revert ys. induction xs as [|x xs IH]; intros [|y ys]; simpl; try lia.
  destruct (Bool.eqb x y); simpl; [|lia].
  specialize (IH ys). lia.
Qed.

Lemma common_prefix_length_lookup xs ys i :
  i < common_prefix_length xs ys → xs !! i = ys !! i.
Proof.
  revert ys i. induction xs as [|x xs IH]; intros [|y ys] i; simpl; try lia.
  destruct (Bool.eqb x y) eqn:E; [|lia].
  apply Bool.eqb_prop in E as ->.
  destruct i as [|i]; simpl; [done|]. intros Hi. apply IH. lia.
Qed.

Lemma common_prefix_length_differ xs ys :
  common_prefix_length xs ys < length xs →
  common_prefix_length xs ys < length ys →
  ∃ b, xs !! common_prefix_length xs ys = Some b ∧
       ys !! common_prefix_length xs ys = Some (negb b).
Proof.
  revert ys. induction xs as [|x xs IH]; intros [|y ys]; simpl; try lia.
  destruct (Bool.eqb x y) eqn:E; simpl.
  - intros H1 H2. apply IH; lia.
  - intros _ _. exists x. split; [done|]. f_equal.
    destruct x, y; simpl in *; congruence.
Qed.

Lemma is_prefix_spec xs ys :
  is_prefix xs ys = true ↔ common_prefix_length xs ys = length xs.
Proof.
  revert ys. induction xs as [|x xs IH]; intros [|y ys]; simpl; try done.
  destruct (Bool.eqb x y); simpl; [|done].
  rewrite IH. lia.
Qed.

Lemma is_prefix_take xs ys :
  is_prefix xs ys = true ↔ take (length xs) ys = xs.
Proof.
  revert ys. induction xs as [|x xs IH]; intros [|y ys]; simpl; try done.
  rewrite andb_true_iff, IH. split.
  - intros [->%Bool.eqb_prop ->]. done.
  - intros [= -> ->]. split; [apply Bool.eqb_reflx|done].
Qed.

(** *** MatchCount *)

Lemma MatchCount_le n a :
  MatchCount n a ≤ prefixLength n ∧ MatchCount n a ≤ Length a.
Proof.
  unfold MatchCount.
  pose proof (common_prefix_length_le
                (take (prefixLength n) (bits32 (prefix n)))
                (take (Length a) (bits32 (Address a)))) as [H1 H2].
  rewrite length_take in H1, H2. lia.
Qed.

Lemma MatchCount_pos n a :
  (0 ≤ prefix n < 2 ^ 32)%Z → (0 ≤ Address a < 2 ^ 32)%Z →
  1 ≤ prefixLength n → 1 ≤ Length a →
  isLeftBit (prefix n) = isLeftBit (Address a) →
  1 ≤ MatchCount n a.
Proof.
  intros Hp Ha Hn Hl Hb. unfold MatchCount.
  rewrite !isLeftBit_bit32 in Hb by done.
  destruct (bits32_head (prefix n)) as [bs ->].
  destruct (bits32_head (Address a)) as [bs' ->].
  destruct (prefixLength n) as [|k]; [lia|].
  destruct (Length a) as [|k']; [lia|].
  simpl. apply (f_equal negb) in Hb. rewrite !negb_involutive in Hb.
  rewrite Hb, Bool.eqb_reflx. lia.
Qed.

(** Where the match stops short of both lengths, the next bits differ:
    after the shift the two leading bits are opposite. *)
Lemma MatchCount_split n a :
  Length a ≤ 32 →
  MatchCount n a < prefixLength n → MatchCount n a < Length a →
  isLeftBit (shl32 (prefix n) (MatchCount n a))
  = negb (isLeftBit (shl32 (Address a) (MatchCount n a))).
Proof.
  intros Hl H1 H2.
  rewrite !isLeftBit_bit32 by apply shl32_range.
  rewrite !bit32_shl32 by lia. simpl.
  rewrite !decide_True by lia.
  destruct (common_prefix_length_differ
              (take (prefixLength n) (bits32 (prefix n)))
              (take (Length a) (bits32 (Address a)))) as (b & Hb1 & Hb2).
  { rewrite length_take, length_bits32. fold (MatchCount n a). lia. }
  { rewrite length_take, length_bits32. fold (MatchCount n a). lia. }
  fold (MatchCount n a) in Hb1, Hb2.
  rewrite lookup_take_lt, lookup_bits32 in Hb1 by lia.
  rewrite lookup_take_lt, lookup_bits32 in Hb2 by lia.
  injection Hb1 as ->. injection Hb2 as ->.
  by rewrite negb_involutive.
Qed.

(** *** Merged prefixes *)

Lemma of_bits_range w bs : (0 ≤ of_bits w bs < 2 ^ Z.of_nat w)%Z.
Proof.
  revert bs. induction w as [|w IH]; intros bs; simpl of_bits.
  - simpl. lia.
  - destruct bs as [|b bs]; [lia|].
    specialize (IH bs).
    replace (2 ^ Z.of_nat (S w))%Z with (2 * 2 ^ Z.of_nat w)%Z
      by (rewrite Nat2Z.inj_succ, Z.pow_succ_r; lia).
    destruct b; lia.
Qed.

Lemma of_bits_isLeftBit b bs : isLeftBit (of_bits 32 (b :: bs)) = negb b.
Proof.
  unfold isLeftBit, _leftmost32Bit.
  change (of_bits 32 (b :: bs))
    with ((if b then 2 ^ Z.of_nat 31 else 0) + of_bits 31 bs)%Z.
  pose proof (of_bits_range 31 bs) as Hr.
  change (Z.of_nat 31) with 31%Z in *.
  destruct b; simpl negb.
  - apply Z.ltb_ge. lia.
  - apply Z.ltb_lt. lia.
Qed.

Lemma MergePrefixes32_range a al b bl :
  (0 ≤ (MergePrefixes32 a al b bl).1 < 2 ^ 32)%Z.
Proof. apply (of_bits_range 32). Qed.

Lemma MergePrefixes32_isLeftBit a al b bl :
  (0 ≤ a < 2 ^ 32)%Z → 1 ≤ al →
  isLeftBit (MergePrefixes32 a al b bl).1 = isLeftBit a.
Proof.
  intros Ha Hal. unfold MergePrefixes32. cbn [fst].
  destruct (bits32_head a) as [bs ->].
  destruct al as [|al]; [lia|].
  change (take (S al) (bit32 a 0 :: bs) ++ take bl (bits32 b))
    with (bit32 a 0 :: (take al bs ++ take bl (bits32 b))).
  rewrite of_bits_isLeftBit. by rewrite isLeftBit_bit32.
Qed.

(** ** Reading the arena after a write *)

Lemma getNode_Some t i n : nodes t !! i = Some n → getNode t i = Ok n.
Proof. unfold getNode. by intros ->. Qed.

Lemma getNode_Ok t i n : getNode t i = Ok n → nodes t !! i = Some n.
Proof. unfold getNode. destruct (nodes t !! i); by intros [= ->]. Qed.

Lemma nodes_setTags m t : nodes (setTags m t) = nodes t.
Proof. reflexivity. Qed.

Lemma availableIndexes_setTags m t : availableIndexes (setTags m t) = availableIndexes t.
Proof. reflexivity. Qed.

Lemma tags_setTags m t : tags (setTags m t) = m.
Proof. reflexivity. Qed.

Lemma availableIndexes_updNode f i t :
  availableIndexes (updNode f i t) = availableIndexes t.
Proof. reflexivity. Qed.

Lemma tags_updNode f i t : tags (updNode f i t) = tags t.
Proof. reflexivity. Qed.

Lemma nodes_updNode f i t j :
  nodes (updNode f i t) !! j
  = if decide (i = j) then f <$> nodes t !! i else nodes t !! j.
Proof.
  unfold updNode. simpl. case_decide as H.
  - subst. apply list_lookup_alter_eq.
  - by apply list_lookup_alter_ne.
Qed.

Lemma nodes_updNode_eq f i t n :
  nodes t !! i = Some n → nodes (updNode f i t) !! i = Some (f n).
Proof. intros H. by rewrite nodes_updNode, decide_True, H. Qed.

Lemma nodes_updNode_ne f i t j :
  i ≠ j → nodes (updNode f i t) !! j = nodes t !! j.
Proof. intros H. by rewrite nodes_updNode, decide_False. Qed.

Lemma length_updNode f i t : length (nodes (updNode f i t)) = length (nodes t).
Proof. unfold updNode. simpl. apply length_alter. Qed.

#[global] Arguments MatchCount : simpl never.
#[global] Arguments ShiftLeft : simpl never.
#[global] Arguments ShiftPrefix : simpl never.
#[global] Arguments MergePrefixes32 : simpl never.
#[global] Arguments isLeftBit : simpl never.
#[global] Arguments tagKey : simpl never.
#[global] Arguments getNode : simpl never.
#[global] Arguments newNode : simpl never.
#[global] Arguments addTag : simpl never.
#[global] Arguments addLeaf : simpl never.
#[global] Arguments relink : simpl never.
#[global] Arguments moveTags : simpl never.
#[global] Arguments deleteTag : simpl never.
#[global] Arguments tagsForNode : simpl never.
#[global] Arguments updNode : simpl never.
#[global] Arguments setTags : simpl never.

Create Rewrite HintDb tree.
#[global] Hint Rewrite nodes_setTags availableIndexes_setTags tags_setTags
  availableIndexes_updNode tags_updNode length_updNode : tree.

Lemma updNode_ext f g i t n :
  nodes t !! i = Some n → f n = g n → updNode f i t = updNode g i t.
Proof.
  intros Hn Hfg. unfold updNode. f_equal. apply list_eq. intros j.
  rewrite !list_lookup_alter. case_decide; [subst|done].
  rewrite Hn. simpl. by rewrite Hfg.
Qed.

Lemma addTag_Ok t tag i n :
  nodes t !! i = Some n →
  addTag t tag i
  = Ok (updNode (set_TagCount (S (TagCount n))) i
          (setTags (<[tagKey i (TagCount n) := tag]> (tags t)) t)).
Proof.
  intros H. unfold addTag. rewrite (getNode_Some _ _ _ H). simpl. f_equal.
  apply updNode_ext with n; [by rewrite nodes_setTags|done].
Qed.

Lemma alloc_ok_nodes live t t' :
  length (nodes t') = length (nodes t) →
  availableIndexes t' = availableIndexes t →
  alloc_ok live t → alloc_ok live t'.
Proof.
  intros Hl Ha [H1 H2 H3 H4]. split; rewrite ?Hl, ?Ha; auto.
Qed.

Lemma alloc_ok_updNode live f i t : alloc_ok live t → alloc_ok live (updNode f i t).
Proof. apply alloc_ok_nodes; [apply length_updNode|done]. Qed.

Lemma alloc_ok_setTags live m t : alloc_ok live t → alloc_ok live (setTags m t).
Proof. by apply alloc_ok_nodes. Qed.

Lemma alloc_ok_inv live depth parent t :
  inv_with live depth parent t → alloc_ok live t.
Proof.
  intros H. split.
  - pose proof (inv_bound _ _ _ _ H 1 (inv_root _ _ _ _ H)). lia.
  - intros i Hi. pose proof (inv_bound _ _ _ _ H i Hi). lia.
  - apply (inv_free _ _ _ _ H).
  - apply (inv_free_nodup _ _ _ _ H).
Qed.

(** [newNode] returns an index that was not in use, holding the fresh
    node, and leaves every other slot as it was. *)
Lemma newNode_spec live t p l :
  alloc_ok live t →
  ∃ t' k,
    newNode t p l = Ok (t', k) ∧
    ¬ live k ∧ 2 ≤ k < length (nodes t') ∧
    nodes t' !! k = Some (mkNode 0 0 p l 0) ∧
    (∀ j, j ≠ k → nodes t' !! j = nodes t !! j) ∧
    tags t' = tags t ∧
    alloc_ok (λ j, j = k ∨ live j) t' ∧
    length (nodes t) ≤ length (nodes t') ≤ S (length (nodes t)) ∧
    (∀ j, j ∈ availableIndexes t' → j ∈ availableIndexes t).
Proof.
  intros [Hlen Hb Hf Hnd]. unfold newNode.
  destruct (reverse (availableIndexes t)) as [|k rest] eqn:Hrev.
  - eexists _, _. split; [reflexivity|]. simpl.
    assert (Hnl : ¬ live (length (nodes t))).
    { intros Hl. apply Hb in Hl. lia. }
    rewrite length_app. simpl.
    split; [done|]. split; [lia|].
    split; [by rewrite lookup_app_r, Nat.sub_diag by lia|].
    split.
    { intros j Hj. destruct (decide (j < length (nodes t))).
      - by rewrite lookup_app_l.
      - rewrite !lookup_ge_None_2; [done|lia|]. rewrite length_app. simpl. lia. }
    split; [done|]. split; [|split; [lia|done]].
    split; simpl; rewrite ?length_app; simpl; [lia| | |done].
    + intros i [->|Hi]; [lia|]. apply Hb in Hi. lia.
    + intros i Hi. destruct (Hf i Hi) as [Hnli Hr]. split; [|lia].
      intros [->|Hl]; [lia|done].
  - assert (Hav : availableIndexes t = reverse rest ++ [k]).
    { rewrite <- (reverse_involutive (availableIndexes t)), Hrev.
      by rewrite reverse_cons. }
    assert (Hk : k ∈ availableIndexes t).
    { rewrite Hav. apply elem_of_app. right. by apply list_elem_of_singleton. }
    destruct (Hf k Hk) as [Hnl Hkr].
    destruct (lookup_lt_is_Some_2 (nodes t) k) as [nk Hnk]; [lia|].
    rewrite (getNode_Some _ _ _ Hnk). simpl.
    eexists _, _. split; [reflexivity|]. simpl.
    rewrite length_insert.
    rewrite Hav in Hnd. apply NoDup_app in Hnd as (Hnd1 & Hnd2 & _).
    split; [done|]. split; [lia|].
    split; [by apply list_lookup_insert_eq; lia|].
    split; [intros j Hj; by apply list_lookup_insert_ne|].
    split; [done|]. split; [|split; [lia|]].
    + split; simpl; rewrite ?length_insert; [lia| | |done].
      * intros i [->|Hi]; [lia|]. by apply Hb.
      * intros i Hi.
        assert (Hi' : i ∈ availableIndexes t).
        { rewrite Hav. apply elem_of_app. by left. }
        destruct (Hf i Hi') as [Hnli Hr]. split; [|lia].
        intros [->|Hl]; [|done].
        apply (Hnd2 k Hi). by apply list_elem_of_singleton.
    + intros j Hj. rewrite Hav. apply elem_of_app. by left.
Qed.

(** ** The invariant is kept by [Add] *)

Section inv_facts.
Context {live : nat → Prop} {depth parent : nat → nat} {t : TreeV4}.
Hypothesis Hinv : inv_with live depth parent t.

Lemma inv_lookup i : live i → ∃ n, nodes t !! i = Some n.
Proof.
  intros Hi. apply lookup_lt_is_Some_2.
  pose proof (inv_bound _ _ _ _ Hinv i Hi). lia.
Qed.

Lemma inv_not_live_0 : ¬ live 0.
Proof. intros H. pose proof (inv_bound _ _ _ _ Hinv 0 H). lia. Qed.

Lemma inv_child_depth i n s :
  live i → nodes t !! i = Some n → child s n ≠ 0 →
  depth i < depth (child s n).
Proof.
  intros Hi Hn Hc.
  destruct (inv_child _ _ _ _ Hinv i n s Hi Hn Hc) as (_ & _ & c & _ & _ & ? & ?).
  lia.
Qed.

Lemma inv_child_ne i n s :
  live i → nodes t !! i = Some n → child s n ≠ 0 → child s n ≠ i.
Proof. intros Hi Hn Hc He. pose proof (inv_child_depth i n s Hi Hn Hc). rewrite He in *. lia. Qed.

Lemma inv_child_not_root i n s :
  live i → nodes t !! i = Some n → child s n ≠ 0 → child s n ≠ 1.
Proof.
  intros Hi Hn Hc He. pose proof (inv_child_depth i n s Hi Hn Hc) as Hd.
  rewrite He, (inv_root_depth _ _ _ _ Hinv) in Hd. lia.
Qed.

Lemma inv_children_ne i n :
  live i → nodes t !! i = Some n → Left n ≠ 0 → Left n ≠ Right n.
Proof.
  intros Hi Hn Hl He.
  destruct (inv_child _ _ _ _ Hinv i n true Hi Hn Hl) as (_ & _ & c & Hc & Hb & _).
  assert (Hr : child false n ≠ 0) by (simpl; congruence).
  destruct (inv_child _ _ _ _ Hinv i n false Hi Hn Hr) as (_ & _ & c' & Hc' & Hb' & _).
  simpl in *. rewrite <- He in Hc'. congruence.
Qed.
End inv_facts.

(** Writing a tag count that keeps the node useful. *)
Lemma inv_with_set_TagCount live depth parent t i c m :
  inv_with live depth parent t →
  (i ≠ 1 → ∀ n, nodes t !! i = Some n → 1 ≤ c ∨ (Left n ≠ 0 ∧ Right n ≠ 0)) →
  inv_with live depth parent (updNode (set_TagCount c) i (setTags m t)).
Proof.
  intros Hinv Hc. destruct Hinv as [H1 H2 Hdep H3 H4 H5 H6 H7 H8].
  split; autorewrite with tree; try done.
  - intros j n Hj. rewrite nodes_updNode, nodes_setTags. case_decide; [subst|by apply H4].
    destruct (nodes t !! j) as [n'|] eqn:E; [|done]. intros [= <-]. by apply (H4 j n').
  - intros j n s Hj. rewrite nodes_updNode, nodes_setTags.
    intros Hn Hch.
    assert (∃ n', nodes t !! j = Some n' ∧ child s n' = child s n) as (n' & Hn' & Hcs).
    { case_decide; [subst|eauto].
      destruct (nodes t !! j) as [n'|] eqn:E; [|done].
      injection Hn as <-. exists n'. by destruct s. }
    rewrite <- Hcs in *.
    destruct (H5 j n' s Hj Hn' Hch) as (Hl & Hp & c' & Hc' & Hb & Hlen & Hd).
    split; [done|]. split; [done|].
    destruct (decide (i = child s n')) as [->|Hne].
    + exists (set_TagCount c c'). by rewrite (nodes_updNode_eq _ _ _ c').
    + exists c'. by rewrite nodes_updNode_ne.
  - intros j n Hj Hj1. rewrite nodes_updNode, nodes_setTags.
    case_decide; [subst|by apply H6].
    destruct (nodes t !! j) as [n'|] eqn:E; [|done]. intros [= <-]. simpl.
    destruct (H6 j n' Hj Hj1 E) as [Hlen Ht]. split; [done|].
    by apply (Hc Hj1 n').
Qed.

Lemma upd_eq f k v : upd f k v k = v.
Proof. unfold upd. by rewrite decide_True. Qed.

Lemma upd_ne f k v j : j ≠ k → upd f k v j = f j.
Proof. intros H. unfold upd. by rewrite decide_False. Qed.

Lemma child_set_child_eq s v n : child s (set_child s v n) = v.
Proof. by destruct s. Qed.

Lemma child_set_child_ne s s' v n : s ≠ s' → child s' (set_child s v n) = child s' n.
Proof. by destruct s, s'. Qed.

Lemma child_set_child s s' v n :
  child s' (set_child s v n) = if decide (s = s') then v else child s' n.
Proof. case_decide; [subst; apply child_set_child_eq|by apply child_set_child_ne]. Qed.

Lemma prefix_set_child s v n : prefix (set_child s v n) = prefix n.
Proof. by destruct s. Qed.

Lemma prefixLength_set_child s v n : prefixLength (set_child s v n) = prefixLength n.
Proof. by destruct s. Qed.

Lemma TagCount_set_child s v n : TagCount (set_child s v n) = TagCount n.
Proof. by destruct s. Qed.

Lemma updNode_set_child s v i t :
  updNode (set_child s v) i t
  = if s then updNode (set_Left v) i t else updNode (set_Right v) i t.
Proof. by destruct s. Qed.

(** *** A new leaf *)

(** [t'] is [t] with the fresh leaf [k] for [a], tagged [tag], hung on
    side [s] of [p]. *)
Definition leaf_added (live : nat → Prop) (t t' : TreeV4) (p : nat) (np : treeNodeV4)
    (s : bool) (k : nat) (a : IPv4Address) (tag : uint16) : Prop :=
  ¬ live k ∧ 2 ≤ k < length (nodes t') ∧
  nodes t' !! k = Some (mkNode 0 0 (Address a) (Length a) 1) ∧
  nodes t' !! p = Some (set_child s k np) ∧
  (∀ j, j ≠ k → j ≠ p → nodes t' !! j = nodes t !! j) ∧
  tags t' = <[tagKey k 0 := tag]> (tags t) ∧
  alloc_ok (λ j, j = k ∨ live j) t' ∧
  length (nodes t) ≤ length (nodes t') ≤ S (length (nodes t)).

Lemma addLeaf_spec live t p np s a tag :
  alloc_ok live t → live p → nodes t !! p = Some np →
  ∃ t' k, addLeaf t p s a tag = Ok t' ∧ leaf_added live t t' p np s k a tag.
Proof.
  intros Hal Hp Hnp.
  destruct (newNode_spec live t (Address a) (Length a) Hal)
    as (t1 & k & Hnew & Hk & Hkr & Hnk & Hfr & Htg & Hal1 & Hlen & _).
  assert (Hpk : p ≠ k) by (intros ->; done).
  unfold addLeaf. rewrite Hnew. simpl.
  rewrite (addTag_Ok _ _ _ _ Hnk). simpl.
  eexists (updNode (set_child s k) p _), k. split.
  { destruct s; reflexivity. }
  unfold leaf_added. autorewrite with tree.
  split; [done|]. split; [done|].
  split. { by rewrite nodes_updNode_ne, nodes_updNode, decide_True, nodes_setTags, Hnk. }
  split. { rewrite (nodes_updNode_eq _ _ _ np); [done|].
           rewrite nodes_updNode_ne, nodes_setTags, Hfr by done. done. }
  split. { intros j Hjk Hjp. rewrite !nodes_updNode_ne, nodes_setTags by done. by apply Hfr. }
  split; [by rewrite Htg|].
  split; [|done].
  by apply alloc_ok_updNode, alloc_ok_updNode, alloc_ok_setTags.
Qed.

Lemma leaf_added_inv live depth parent t t' p np s k a tag :
  inv_with live depth parent t →
  live p → nodes t !! p = Some np → child s np = 0 →
  isLeftBit (Address a) = s → (0 ≤ Address a < 2 ^ 32)%Z → 1 ≤ Length a →
  depth p + Length a ≤ 32 →
  leaf_added live t t' p np s k a tag →
  inv_with (λ j, j = k ∨ live j) (upd depth k (depth p + Length a)) (upd parent k p) t'.
Proof.
  intros Hinv Hp Hnp Hch Hbit Hrange Hlen Hdep (Hk & Hkr & Hnk & Hnp' & Hfr & _ & Hal & _).
  assert (Hpk : p ≠ k) by (intros ->; done).
  assert (Hlk : ∀ j, live j → j ≠ k) by (intros j Hj ->; done).
  split.
  - right. apply (inv_root _ _ _ _ Hinv).
  - unfold upd. rewrite decide_False by lia. apply (inv_root_depth _ _ _ _ Hinv).
  - intros j [->|Hj]; [by rewrite upd_eq|].
    rewrite upd_ne by (by apply Hlk). by apply (inv_depth _ _ _ _ Hinv).
  - intros j Hj. destruct Hj as [->|Hj]; [lia|].
    pose proof (alloc_bound _ _ Hal j (or_intror Hj)).
    pose proof (inv_bound _ _ _ _ Hinv j Hj). lia.
  - intros j n Hj Hn.
    destruct (decide (j = k)) as [->|Hjk]; [rewrite Hnk in Hn; by injection Hn as <-|].
    destruct Hj as [->|Hj]; [done|].
    destruct (decide (j = p)) as [->|Hjp].
    + rewrite Hnp' in Hn. injection Hn as <-. rewrite prefix_set_child.
      by apply (inv_range _ _ _ _ Hinv p np).
    + rewrite Hfr in Hn by done. by apply (inv_range _ _ _ _ Hinv j n).
  - intros j n s' Hj Hn Hc.
    destruct (decide (j = k)) as [->|Hjk].
    { rewrite Hnk in Hn. injection Hn as <-. by destruct s'. }
    destruct Hj as [->|Hj]; [done|].
    assert (Hold : ∀ n0, nodes t !! j = Some n0 → child s' n0 ≠ 0 →
              child s' n0 = child s' n →
              (child s' n = k ∨ live (child s' n)) ∧
              upd parent k p (child s' n) = j ∧
              ∃ c, nodes t' !! child s' n = Some c ∧ isLeftBit (prefix c) = s' ∧
                   1 ≤ prefixLength c ∧
                   upd depth k (depth p + Length a) (child s' n)
                   = upd depth k (depth p + Length a) j + prefixLength c).
    { intros n0 Hn0 Hc0 Heq. rewrite <- Heq.
      destruct (inv_child _ _ _ _ Hinv j n0 s' Hj Hn0 Hc0)
        as (Hcl & Hcp & c & Hcn & Hcb & Hcl' & Hcd).
      pose proof (Hlk _ Hcl) as Hck.
      split; [by right|]. unfold upd. rewrite !decide_False by done.
      split; [done|].
      destruct (decide (child s' n0 = p)) as [Hcp'|Hcp'].
      - rewrite Hcp', Hnp'. rewrite Hcp' in Hcn. rewrite Hnp in Hcn. injection Hcn as <-.
        eexists. split; [done|]. rewrite prefix_set_child, prefixLength_set_child.
        rewrite Hcp' in Hcd. done.
      - exists c. rewrite Hfr by done. done. }
    destruct (decide (j = p)) as [->|Hjp].
    + rewrite Hnp' in Hn. injection Hn as <-.
      rewrite child_set_child in Hc |- *.
      case_decide as Hs; [subst s'|].
      * split; [by left|]. unfold upd.
        split; [by rewrite decide_True|]. rewrite Hnk. eexists. split; [done|]. simpl.
        rewrite decide_True, decide_False by done. done.
      * specialize (Hold np Hnp Hc). rewrite child_set_child_ne in Hold by done.
        by apply Hold.
    + rewrite Hfr in Hn by done. by apply (Hold n).
  - intros j n Hj Hj1 Hn.
    destruct (decide (j = k)) as [->|Hjk].
    { rewrite Hnk in Hn. injection Hn as <-. simpl. split; [lia|]. left. lia. }
    destruct Hj as [->|Hj]; [done|].
    destruct (decide (j = p)) as [->|Hjp].
    + rewrite Hnp' in Hn. injection Hn as <-.
      rewrite TagCount_set_child, prefixLength_set_child.
      destruct (inv_useful _ _ _ _ Hinv p np Hp Hj1 Hnp) as [? [?|[Hl Hr]]];
        [split; [done|by left]|].
      exfalso. destruct s; simpl in Hch; congruence.
    + rewrite Hfr in Hn by done. by apply (inv_useful _ _ _ _ Hinv j n).
  - apply (alloc_free _ _ Hal).
  - apply (alloc_nodup _ _ Hal).
Qed.

(** *** Local changes

    A change of the arena that touches the nodes [M] only keeps the
    invariant when it is kept at the nodes of [M]; [A] are the nodes that
    die or whose parent changes, all of them children of nodes of [M]. *)
Lemma inv_with_frame (M A : nat → Prop) live depth parent t live' depth' parent' t' :
  inv_with live depth parent t →
  (∀ j, M j ∨ ¬ M j) →
  (∀ j, ¬ M j →
     (live' j ↔ live j) ∧ nodes t' !! j = nodes t !! j ∧ depth' j = depth j) →
  (∀ j, ¬ M j → ¬ A j → parent' j = parent j) →
  (∀ c n, M c → ¬ A c → live c → nodes t !! c = Some n →
     live' c ∧ parent' c = parent c ∧
     ∃ n', nodes t' !! c = Some n' ∧
           isLeftBit (prefix n') = isLeftBit (prefix n) ∧
           (1 ≤ prefixLength n → 1 ≤ prefixLength n') ∧
           depth' c + prefixLength n = depth c + prefixLength n') →
  (∀ c, A c → live c → M (parent c)) →
  (∀ j n, M j → live' j → nodes t' !! j = Some n →
     (0 ≤ prefix n < 2 ^ 32)%Z ∧
     (∀ s, child s n ≠ 0 →
        live' (child s n) ∧ parent' (child s n) = j ∧
        ∃ c, nodes t' !! child s n = Some c ∧ isLeftBit (prefix c) = s ∧
             1 ≤ prefixLength c ∧ depth' (child s n) = depth' j + prefixLength c) ∧
     (j ≠ 1 → 1 ≤ prefixLength n ∧ (1 ≤ TagCount n ∨ (Left n ≠ 0 ∧ Right n ≠ 0)))) →
  (∀ j, M j → live' j → depth' j ≤ 32) →
  live' 1 → depth' 1 = 0 →
  (∀ i, live' i → 1 ≤ i < length (nodes t')) →
  (∀ i, i ∈ availableIndexes t' → ¬ live' i ∧ 2 ≤ i < length (nodes t')) →
  NoDup (availableIndexes t') →
  inv_with live' depth' parent' t'.
Proof.
  intros Hinv HMd Hfr Hpar Hin HA Hmod Hdep Hr Hrd Hb Hf Hnd.
  split; try done.
  - intros j Hj. destruct (HMd j) as [HM|HM]; [by apply Hdep|].
    destruct (Hfr j HM) as (Hl & _ & ->). by apply (inv_depth _ _ _ _ Hinv), Hl.
  - intros j n Hj Hn. destruct (HMd j) as [HM|HM].
    + by apply (Hmod j n).
    + destruct (Hfr j HM) as (Hl & Hnn & _). rewrite Hnn in Hn.
      apply (inv_range _ _ _ _ Hinv j n); [by apply Hl|done].
  - intros j n s Hj Hn Hc. destruct (HMd j) as [HM|HM].
    + by apply (Hmod j n).
    + destruct (Hfr j HM) as (Hl & Hnn & Hdj). rewrite Hnn in Hn.
      apply Hl in Hj.
      destruct (inv_child _ _ _ _ Hinv j n s Hj Hn Hc)
        as (Hcl & Hcp & c & Hcn & Hcb & Hcl' & Hcd).
      assert (HnA : ¬ A (child s n)).
      { intros HAc. apply HM. rewrite <- Hcp. by apply HA. }
      destruct (HMd (child s n)) as [HMc|HMc].
      * destruct (Hin _ c HMc HnA Hcl Hcn) as (Hl' & Hp' & n' & Hn' & Hb' & Hlen' & Hd').
        split; [done|]. split; [congruence|].
        exists n'. split; [done|]. split; [congruence|]. split; [by apply Hlen'|]. lia.
      * destruct (Hfr _ HMc) as (Hl' & Hn' & Hd').
        pose proof (Hpar _ HMc HnA) as Hp'.
        split; [by apply Hl'|]. split; [congruence|].
        exists c. rewrite Hn'. split; [done|]. split; [done|]. split; [done|]. lia.
  - intros j n Hj Hj1 Hn. destruct (HMd j) as [HM|HM].
    + by apply (Hmod j n).
    + destruct (Hfr j HM) as (Hl & Hnn & _). rewrite Hnn in Hn.
      apply (inv_useful _ _ _ _ Hinv j n); [by apply Hl|done|done].
Qed.

Lemma inv_sides_ne live depth parent t i n s s' :
  inv_with live depth parent t →
  live i → nodes t !! i = Some n → child s n ≠ 0 → s ≠ s' →
  child s n ≠ child s' n.
Proof.
  intros Hinv Hi Hn Hc Hs He.
  destruct (inv_child _ _ _ _ Hinv i n s Hi Hn Hc) as (_ & _ & c & Hcn & Hb & _).
  assert (Hc' : child s' n ≠ 0) by congruence.
  destruct (inv_child _ _ _ _ Hinv i n s' Hi Hn Hc') as (_ & _ & c' & Hcn' & Hb' & _).
  rewrite <- He in Hcn'. congruence.
Qed.

(** *** A new node above an existing one

    The node [i] under [p] loses its first [m] bits to the fresh node [k],
    which takes its place under [p]; [k] has [i] on the side of [i]'s new
    leading bit and, on the other side, nothing ([o = 0]) or a fresh
    tagged leaf [o]. *)
Lemma insert_above_inv live depth parent t t' p np s i ni k nk m o no :
  let s2 := isLeftBit (shl32 (prefix ni) m) in
  let live' := λ j, j = k ∨ (o ≠ 0 ∧ j = o) ∨ live j in
  let depth' := upd (upd depth k (depth p + m)) o (depth p + m + prefixLength no) in
  let parent' := upd (upd (upd parent k p) i k) o k in
  inv_with live depth parent t →
  live p → nodes t !! p = Some np → child s np = i → i ≠ 0 →
  nodes t !! i = Some ni → 1 ≤ m < prefixLength ni →
  ¬ live k → 2 ≤ k →
  (o = 0 ∨
   (¬ live o ∧ 2 ≤ o ∧ o ≠ k ∧ nodes t' !! o = Some no ∧
    Left no = 0 ∧ Right no = 0 ∧ 1 ≤ TagCount no ∧
    isLeftBit (prefix no) = negb s2 ∧ 1 ≤ prefixLength no ∧
    (0 ≤ prefix no < 2 ^ 32)%Z)) →
  nodes t' !! k = Some nk → child s2 nk = i → child (negb s2) nk = o →
  prefixLength nk = m → isLeftBit (prefix nk) = s → (0 ≤ prefix nk < 2 ^ 32)%Z →
  (1 ≤ TagCount nk ∨ o ≠ 0) →
  (o ≠ 0 → depth p + m + prefixLength no ≤ 32) →
  nodes t' !! i = Some (ShiftPrefix m ni) →
  nodes t' !! p = Some (set_child s k np) →
  (∀ j, j ≠ p → j ≠ i → j ≠ k → j ≠ o → nodes t' !! j = nodes t !! j) →
  (∀ j, live' j → 1 ≤ j < length (nodes t')) →
  (∀ j, j ∈ availableIndexes t' → ¬ live' j ∧ 2 ≤ j < length (nodes t')) →
  NoDup (availableIndexes t') →
  inv_with live' depth' parent' t'.
Proof.
  intros s2 live' depth' parent' Hinv Hp Hnp Hch Hi0 Hni Hm Hk Hk2 Ho Hnk Hnk1 Hnk2
    Hnkl Hnkb Hnkr Hnku Hodep Hni' Hnp' Hfr Hb Hf Hnd.
  assert (Hli : live i).
  { rewrite <- Hch in *. by apply (inv_child _ _ _ _ Hinv p np s). }
  assert (Hpi : parent i = p).
  { rewrite <- Hch in *. by apply (inv_child _ _ _ _ Hinv p np s). }
  assert (Hdi : depth i = depth p + prefixLength ni).
  { rewrite <- Hch in Hi0. rewrite <- Hch in Hni.
    destruct (inv_child _ _ _ _ Hinv p np s Hp Hnp Hi0) as (_ & _ & c & Hc & _ & _ & Hd).
    rewrite Hni in Hc. injection Hc as <-. by rewrite Hch in Hd. }
  assert (Hbi : isLeftBit (prefix ni) = s).
  { rewrite <- Hch in Hi0. rewrite <- Hch in Hni.
    destruct (inv_child _ _ _ _ Hinv p np s Hp Hnp Hi0) as (_ & _ & c & Hc & Hbc & _).
    rewrite Hni in Hc. by injection Hc as <-. }
  assert (Hlk : ∀ j, live j → j ≠ k) by (intros j Hj ->; done).
  assert (Hlo : ∀ j, live j → j ≠ o).
  { intros j Hj ->. destruct Ho as [Ho0|(Hno & _)]; [|done].
    rewrite Ho0 in Hj. by apply (inv_not_live_0 Hinv). }
  assert (Hip : i ≠ p).
  { rewrite <- Hch. apply (inv_child_ne Hinv); [done..|]. by rewrite Hch. }
  assert (Hi1 : i ≠ 1).
  { rewrite <- Hch. apply (inv_child_not_root Hinv p np s); [done..|]. by rewrite Hch. }
  assert (Hok : o ≠ k).
  { destruct Ho as [Ho0|(_ & _ & ? & _)]; [lia|done]. }
  pose proof (Hlk _ Hli) as Hik. pose proof (Hlk _ Hp) as Hpk.
  pose proof (Hlo _ Hli) as Hio. pose proof (Hlo _ Hp) as Hpo.
  apply (inv_with_frame (λ j, j = p ∨ j = i ∨ j = k ∨ j = o) (λ j, j = i)
           live depth parent t); try done.
  - intros j. destruct (decide (j = p)), (decide (j = i)), (decide (j = k)),
      (decide (j = o)); tauto.
  - intros j Hj.
    assert (j ≠ p ∧ j ≠ i ∧ j ≠ k ∧ j ≠ o) as (? & ? & ? & ?) by tauto.
    split; [|split; [by apply Hfr|]].
    + unfold live'. tauto.
    + unfold depth'. by rewrite !upd_ne.
  - intros j Hj _.
    assert (j ≠ p ∧ j ≠ i ∧ j ≠ k ∧ j ≠ o) as (? & ? & ? & ?) by tauto.
    unfold parent'. by rewrite !upd_ne.
  - intros c n [-> | [-> | [-> | ->]]] HnA Hlc Hn; [|done|by apply Hlk in Hlc|by apply Hlo in Hlc].
    rewrite Hnp in Hn. injection Hn as <-.
    pose proof (Hlk _ Hlc). pose proof (Hlo _ Hlc).
    split; [unfold live'; tauto|].
    split; [unfold parent'; by rewrite !upd_ne|].
    exists (set_child s k np). rewrite prefix_set_child, prefixLength_set_child.
    unfold depth'. rewrite !upd_ne by done. done.
  - intros c -> _. rewrite Hpi. tauto.
  - intros j n HM Hj Hn.
    destruct (decide (j = o)) as [->|Hjo].
    { (* the new leaf *)
      destruct Ho as [Ho0|(Hno & Ho2 & _ & Hnno & Hol & Hor & Hot & Hob & Holen & Horange)].
      { exfalso. destruct Hj as [Hj|[[? _]|Hj]]; [lia|done|].
        rewrite Ho0 in Hj. by apply (inv_not_live_0 Hinv). }
      rewrite Hnno in Hn. injection Hn as <-.
      split; [done|]. split; [|intros _; split; [done|by left]].
      intros s'. destruct s'; simpl; congruence. }
    destruct (decide (j = k)) as [->|Hjk].
    { (* the new node *)
      rewrite Hnk in Hn. injection Hn as <-.
      split; [done|].
      split; [|intros _; split; [lia|]; destruct Hnku as [?|Ho0]; [by left|right]].
      - intros s' Hc. destruct (decide (s' = s2)) as [->|Hs'].
        + rewrite Hnk1. split; [unfold live'; tauto|].
          split; [unfold parent'; by rewrite upd_ne, upd_eq by (by apply Hlo)|].
          rewrite Hni'. eexists. split; [done|]. simpl.
          split; [done|]. split; [lia|].
          unfold depth'. rewrite (upd_ne _ o), (upd_ne _ k), (upd_ne _ o), upd_eq;
            [lia|done|by apply Hlk|by apply Hlo].
        + assert (s' = negb s2) as -> by (destruct s', s2; done).
          rewrite Hnk2 in Hc |- *.
          destruct Ho as [Ho0|(Hno & Ho2 & _ & Hnno & Hol & Hor & Hot & Hob & Holen & Horange)];
            [done|].
          split; [unfold live'; tauto|].
          split; [unfold parent'; by rewrite upd_eq|].
          exists no. split; [done|]. split; [done|]. split; [done|].
          unfold depth'. rewrite upd_eq, (upd_ne _ o), upd_eq by done. lia.
      - assert (Hc1 : child s2 nk ≠ 0) by congruence.
        assert (Hc2 : child (negb s2) nk ≠ 0) by congruence.
        destruct s2; simpl in *; done. }
    destruct (decide (j = i)) as [->|Hji].
    { (* the shortened node *)
      rewrite Hni' in Hn. injection Hn as <-.
      split; [apply shl32_range|]. split.
      - intros s' Hc. change (child s' (ShiftPrefix m ni)) with (child s' ni) in *.
        destruct (inv_child _ _ _ _ Hinv i ni s' Hli Hni Hc)
          as (Hcl & Hcp & c & Hcn & Hcb & Hcl' & Hcd).
        pose proof (Hlk _ Hcl). pose proof (Hlo _ Hcl).
        pose proof (inv_child_ne Hinv i ni s' Hli Hni Hc).
        assert (child s' ni ≠ p).
        { intros He. rewrite He in Hcd. lia. }
        split; [unfold live'; tauto|].
        split; [unfold parent'; by rewrite !upd_ne|].
        exists c. rewrite Hfr by done. split; [done|]. split; [done|]. split; [done|].
        unfold depth'. rewrite !upd_ne by done. done.
      - intros _. split; [simpl; lia|].
        apply (inv_useful _ _ _ _ Hinv i ni Hli Hi1 Hni). }
    assert (j = p) as -> by tauto.
    rewrite Hnp' in Hn. injection Hn as <-.
    rewrite prefix_set_child, TagCount_set_child, prefixLength_set_child.
    split; [by apply (inv_range _ _ _ _ Hinv p np)|]. split.
    + intros s' Hc. rewrite child_set_child in Hc |- *.
      case_decide as Hs; [subst s'|].
      * split; [unfold live'; tauto|].
        split; [unfold parent'; by rewrite !upd_ne, upd_eq by done|].
        exists nk. split; [done|]. split; [done|]. split; [lia|].
        unfold depth'. rewrite (upd_ne _ o), upd_eq, !upd_ne by done. lia.
      * destruct (inv_child _ _ _ _ Hinv p np s' Hp Hnp Hc)
          as (Hcl & Hcp & c & Hcn & Hcb & Hcl' & Hcd).
        pose proof (Hlk _ Hcl). pose proof (Hlo _ Hcl).
        pose proof (inv_child_ne Hinv p np s' Hp Hnp Hc).
        assert (child s' np ≠ i).
        { rewrite <- Hch. apply (inv_sides_ne _ _ _ _ _ _ _ _ Hinv Hp Hnp Hc). congruence. }
        split; [unfold live'; tauto|].
        split; [unfold parent'; by rewrite !upd_ne|].
        exists c. rewrite Hfr by done. split; [done|]. split; [done|]. split; [done|].
        unfold depth'. rewrite !upd_ne by done. done.
    + intros Hp1. destruct (inv_useful _ _ _ _ Hinv p np Hp Hp1 Hnp) as [? [?|[Hl Hr]]];
        (split; [done|]); [by left|right].
      destruct s; simpl; split; try done; lia.
  - intros j HM Hj. unfold depth'.
    pose proof (inv_depth _ _ _ _ Hinv i Hli) as Hdi32.
    pose proof (inv_depth _ _ _ _ Hinv p Hp) as Hdp32.
    destruct (decide (j = o)) as [->|Hjo].
    { rewrite upd_eq. apply Hodep. intros Ho0.
      destruct Hj as [Hj|[[? _]|Hj]]; [lia|done|].
      rewrite Ho0 in Hj. by apply (inv_not_live_0 Hinv). }
    rewrite upd_ne by done.
    destruct (decide (j = k)) as [->|Hjk]; [rewrite upd_eq; lia|].
    rewrite upd_ne by done.
    destruct HM as [-> | [-> | [-> | ->]]]; done.
  - unfold live'. right. right. apply (inv_root _ _ _ _ Hinv).
  - unfold depth'. rewrite !upd_ne; [apply (inv_root_depth _ _ _ _ Hinv)|lia|].
    apply Hlo, (inv_root _ _ _ _ Hinv).
Qed.

(** *** The exits of the loop of [Add] *)

Lemma eqb_false_of n m : n ≠ m → (n =? m) = false.
Proof. apply Nat.eqb_neq. Qed.

Lemma eqb_true_of n m : n = m → (n =? m) = true.
Proof. apply Nat.eqb_eq. Qed.

Lemma set_child_same s n : set_child s (child s n) n = n.
Proof. by destruct s, n. Qed.

Lemma relink_Ok t p np s i k :
  nodes t !! p = Some np → child s np = i → child (negb s) np ≠ i →
  relink t p i k = Ok (updNode (set_child s k) p t).
Proof.
  intros Hnp Hc Hnc. unfold relink. rewrite (getNode_Some _ _ _ Hnp). simpl.
  destruct s; simpl in *.
  - by rewrite eqb_true_of.
  - by rewrite eqb_false_of, eqb_true_of.
Qed.

(** The address matches the node in full and is not longer: the tag goes
    to the node. *)
Lemma Add_loop_exact fuel t p i ni a tag :
  i ≠ 0 → nodes t !! i = Some ni → 1 ≤ prefixLength ni →
  MatchCount ni a = Length a → MatchCount ni a = prefixLength ni →
  Add_loop (S fuel) t p i a tag
  = Ok (updNode (set_TagCount (S (TagCount ni))) i
          (setTags (<[tagKey i (TagCount ni) := tag]> (tags t)) t), a).
Proof.
  intros Hi Hni Hl Hm1 Hm2. simpl.
  rewrite (eqb_false_of i 0), (getNode_Some _ _ _ Hni) by done. simpl.
  rewrite (eqb_false_of (prefixLength ni) 0), (eqb_false_of (MatchCount ni a) 0) by lia.
  rewrite (eqb_true_of _ _ Hm1), (eqb_true_of _ _ Hm2).
  by rewrite (addTag_Ok _ _ _ _ Hni).
Qed.

(** The address is a proper prefix of the node: a new node for the
    address goes between the parent and the node. *)
Lemma Add_loop_above live fuel t p np s i ni a tag :
  let m := Length a in
  let s2 := isLeftBit (shl32 (prefix ni) m) in
  alloc_ok live t → live p → live i → p ≠ i →
  nodes t !! p = Some np → child s np = i → child (negb s) np ≠ i →
  i ≠ 0 → nodes t !! i = Some ni →
  1 ≤ m → MatchCount ni a = m → m < prefixLength ni →
  ∃ t' k,
    Add_loop (S fuel) t p i a tag = Ok (t', a) ∧
    ¬ live k ∧ 2 ≤ k < length (nodes t') ∧
    nodes t' !! k = Some (set_child s2 i (mkNode 0 0 (Address a) m 1)) ∧
    nodes t' !! i = Some (ShiftPrefix m ni) ∧
    nodes t' !! p = Some (set_child s k np) ∧
    (∀ j, j ≠ p → j ≠ i → j ≠ k → nodes t' !! j = nodes t !! j) ∧
    tags t' = <[tagKey k 0 := tag]> (tags t) ∧
    alloc_ok (λ j, j = k ∨ live j) t' ∧
    length (nodes t) ≤ length (nodes t') ≤ S (length (nodes t)).
Proof.
  intros m s2 Hal Hp Hli Hpi Hnp Hch Hnch Hi Hni Hm Hmc Hml.
  unfold m in *. clear m.
  destruct (newNode_spec live t (Address a) (Length a) Hal)
    as (t1 & k & Hnew & Hk & Hkr & Hnk & Hfr & Htg & Hal1 & Hlen & _).
  assert (Hpk : p ≠ k) by (intros ->; done).
  assert (Hik : i ≠ k) by (intros ->; done).
  simpl.
  rewrite (eqb_false_of i 0), (getNode_Some _ _ _ Hni) by done. simpl.
  rewrite (eqb_false_of (prefixLength ni) 0), (eqb_false_of (MatchCount ni a) 0) by lia.
  rewrite (eqb_true_of _ _ Hmc), (eqb_false_of (MatchCount ni a) (prefixLength ni)) by lia.
  rewrite Hnew. simpl. rewrite (addTag_Ok _ _ _ _ Hnk). simpl.
  set (t2 := updNode (set_TagCount 1) k _).
  assert (Hi2 : nodes (updNode (ShiftPrefix (MatchCount ni a)) i t2) !! i
                = Some (ShiftPrefix (MatchCount ni a) ni)).
  { unfold t2. rewrite nodes_updNode, decide_True by done.
    by rewrite nodes_updNode_ne, nodes_setTags, Hfr, Hni by done. }
  rewrite (getNode_Some _ _ _ Hi2). simpl.
  rewrite Hmc. fold s2.
  set (t4 := if s2 then _ else _).
  assert (Ht4 : t4 = updNode (set_child s2 i) k (updNode (ShiftPrefix (Length a)) i t2)).
  { unfold t4. by destruct s2. }
  clearbody t4. subst t4.
  rewrite (relink_Ok _ p np s i k); [| |done|done].
  2:{ rewrite !nodes_updNode_ne by done. unfold t2.
      by rewrite nodes_updNode_ne, nodes_setTags, Hfr by done. }
  simpl. eexists _, k. split; [reflexivity|].
  autorewrite with tree. unfold t2. autorewrite with tree.
  split; [done|]. split; [done|].
  split.
  { rewrite nodes_updNode_ne by done. rewrite nodes_updNode, decide_True by done.
    rewrite nodes_updNode_ne by done. rewrite nodes_updNode, decide_True by done.
    by rewrite nodes_setTags, Hnk. }
  split.
  { rewrite !(nodes_updNode_ne _ p), !(nodes_updNode_ne _ k) by done.
    rewrite nodes_updNode, decide_True by done.
    by rewrite nodes_updNode_ne, nodes_setTags, Hfr, Hni by done. }
  split.
  { rewrite nodes_updNode, decide_True by done.
    by rewrite !nodes_updNode_ne, nodes_setTags, Hfr, Hnp by done. }
  split.
  { intros j ? ? ?. rewrite !nodes_updNode_ne, nodes_setTags by done. by apply Hfr. }
  split; [by rewrite Htg|].
  split; [|done].
  by repeat apply alloc_ok_updNode; apply alloc_ok_setTags.
Qed.

(** The address and the node part ways after [m] common bits: a tag-free
    node for the common bits takes the place of the node, over the node
    and a new leaf for the rest of the address. *)
Lemma Add_loop_split live fuel t p np s i ni a tag :
  let m := MatchCount ni a in
  let s2 := isLeftBit (shl32 (prefix ni) m) in
  let a1 := ShiftLeft a m in
  alloc_ok live t → live p → live i → p ≠ i →
  nodes t !! p = Some np → child s np = i → child (negb s) np ≠ i →
  i ≠ 0 → nodes t !! i = Some ni →
  1 ≤ m → m < Length a → m < prefixLength ni →
  ∃ t' k1 k2,
    Add_loop (S fuel) t p i a tag = Ok (t', a1) ∧
    ¬ live k1 ∧ 2 ≤ k1 < length (nodes t') ∧
    ¬ live k2 ∧ 2 ≤ k2 < length (nodes t') ∧ k2 ≠ k1 ∧
    nodes t' !! k1
      = Some (set_child (negb s2) k2 (set_child s2 i (mkNode 0 0 (Address a) m 0))) ∧
    nodes t' !! k2 = Some (mkNode 0 0 (Address a1) (Length a1) 1) ∧
    nodes t' !! i = Some (ShiftPrefix m ni) ∧
    nodes t' !! p = Some (set_child s k1 np) ∧
    (∀ j, j ≠ p → j ≠ i → j ≠ k1 → j ≠ k2 → nodes t' !! j = nodes t !! j) ∧
    tags t' = <[tagKey k2 0 := tag]> (tags t) ∧
    alloc_ok (λ j, j = k2 ∨ j = k1 ∨ live j) t' ∧
    length (nodes t) ≤ length (nodes t') ≤ S (S (length (nodes t))).
Proof.
  intros m s2 a1 Hal Hp Hli Hpi Hnp Hch Hnch Hi Hni Hm Hma Hml.
  assert (Hmd : MatchCount ni a = m) by done.
  assert (Hs2 : isLeftBit (shl32 (prefix ni) m) = s2) by done.
  clearbody s2. clearbody m. subst a1.
  destruct (newNode_spec live t (Address a) m Hal)
    as (t1 & k1 & Hnew1 & Hk1 & Hkr1 & Hnk1 & Hfr1 & Htg1 & Hal1 & Hlen1 & _).
  destruct (newNode_spec _ t1 (shl32 (Address a) m) (Length a - m) Hal1)
    as (t2 & k2 & Hnew2 & Hk2 & Hkr2 & Hnk2 & Hfr2 & Htg2 & Hal2 & Hlen2 & _).
  assert (Hpk1 : p ≠ k1) by (intros ->; done).
  assert (Hik1 : i ≠ k1) by (intros ->; done).
  assert (Hpk2 : p ≠ k2) by (intros ->; tauto).
  assert (Hik2 : i ≠ k2) by (intros ->; tauto).
  assert (Hk12 : k1 ≠ k2) by (intros ->; tauto).
  simpl.
  rewrite (eqb_false_of i 0), (getNode_Some _ _ _ Hni) by done. simpl.
  rewrite Hmd.
  rewrite (eqb_false_of (prefixLength ni) 0), (eqb_false_of m 0) by lia.
  rewrite (eqb_false_of m (Length a)), (eqb_false_of m (prefixLength ni)) by lia.
  rewrite Hnew1. simpl. rewrite Hnew2. simpl.
  rewrite (addTag_Ok _ _ _ _ Hnk2). simpl.
  set (t3 := updNode (set_TagCount 1) k2 _).
  assert (Hi3 : nodes (updNode (ShiftPrefix m) i t3) !! i = Some (ShiftPrefix m ni)).
  { unfold t3. rewrite nodes_updNode, decide_True by done.
    by rewrite nodes_updNode_ne, nodes_setTags, Hfr2, Hfr1, Hni by done. }
  rewrite (getNode_Some _ _ _ Hi3). simpl. rewrite Hs2.
  set (t5 := if s2 then _ else _).
  assert (Ht5 : t5 = updNode (set_child (negb s2) k2) k1
                       (updNode (set_child s2 i) k1 (updNode (ShiftPrefix m) i t3))).
  { unfold t5. by destruct s2. }
  clearbody t5. subst t5.
  rewrite (relink_Ok _ p np s i k1); [| |done|done].
  2:{ rewrite !nodes_updNode_ne by done. unfold t3.
      by rewrite nodes_updNode_ne, nodes_setTags, Hfr2, Hfr1 by done. }
  simpl. eexists _, k1, k2. split; [reflexivity|].
  autorewrite with tree. unfold t3. autorewrite with tree.
  split; [done|]. split; [lia|]. split; [tauto|]. split; [done|]. split; [done|].
  split.
  { rewrite nodes_updNode_ne by done. rewrite nodes_updNode, decide_True by done.
    rewrite nodes_updNode, decide_True by done.
    rewrite !nodes_updNode_ne, nodes_setTags, Hfr2, Hnk1 by done. done. }
  split.
  { rewrite !(nodes_updNode_ne _ p), !(nodes_updNode_ne _ k1), (nodes_updNode_ne _ i)
      by done.
    by rewrite nodes_updNode, decide_True, nodes_setTags, Hnk2. }
  split.
  { rewrite !(nodes_updNode_ne _ p), !(nodes_updNode_ne _ k1) by done.
    rewrite nodes_updNode, decide_True by done.
    by rewrite nodes_updNode_ne, nodes_setTags, Hfr2, Hfr1, Hni by done. }
  split.
  { rewrite nodes_updNode, decide_True by done.
    by rewrite !nodes_updNode_ne, nodes_setTags, Hfr2, Hfr1, Hnp by done. }
  split.
  { intros j ? ? ? ?. rewrite !nodes_updNode_ne, nodes_setTags by done.
    rewrite Hfr2 by done. by apply Hfr1. }
  split; [by rewrite Htg2, Htg1|].
  split; [|lia].
  by repeat apply alloc_ok_updNode; apply alloc_ok_setTags.
Qed.

Lemma ShiftLeft_ok a m :
  m < Length a → Length a ≤ 32 →
  (0 ≤ Address (ShiftLeft a m) < 2 ^ 32)%Z ∧
  Length (ShiftLeft a m) = Length a - m ∧ 1 ≤ Length (ShiftLeft a m) ≤ 32.
Proof.
  intros H1 H2. split; [apply shl32_range|].
  change (Length (ShiftLeft a m)) with (Length a - m). lia.
Qed.

(** What the loop of [Add] knows of the node it stands at. *)
Lemma inv_at_child live depth parent t p np s i :
  inv_with live depth parent t →
  live p → nodes t !! p = Some np → child s np = i → i ≠ 0 →
  live i ∧ p ≠ i ∧ child (negb s) np ≠ i ∧ i ≠ 1 ∧
  ∃ ni, nodes t !! i = Some ni ∧ isLeftBit (prefix ni) = s ∧
        1 ≤ prefixLength ni ∧ (0 ≤ prefix ni < 2 ^ 32)%Z ∧
        depth i = depth p + prefixLength ni.
Proof.
  intros Hinv Hp Hnp Hch Hi. rewrite <- Hch in Hi.
  destruct (inv_child _ _ _ _ Hinv p np s Hp Hnp Hi) as (Hl & _ & ni & Hni & Hb & Hlen & Hd).
  pose proof (inv_child_ne Hinv p np s Hp Hnp Hi).
  pose proof (inv_child_not_root Hinv p np s Hp Hnp Hi).
  pose proof (inv_sides_ne _ _ _ _ p np s (negb s) Hinv Hp Hnp Hi) as Hsides.
  pose proof (inv_range _ _ _ _ Hinv _ _ Hl Hni).
  rewrite Hch in *.
  split; [done|]. split; [done|]. split; [|split; [done|]].
  - intros He. apply Hsides; [by destruct s|done].
  - eauto 10.
Qed.

Lemma Add_loop_inv fuel :
  ∀ live depth parent t p np s i a tag,
    inv_with live depth parent t →
    live p → nodes t !! p = Some np → child s np = i → i ≠ 0 →
    isLeftBit (Address a) = s → (0 ≤ Address a < 2 ^ 32)%Z →
    1 ≤ Length a → depth p + Length a ≤ 32 → Length a ≤ fuel →
    ∃ t' a', Add_loop fuel t p i a tag = Ok (t', a') ∧ inv t'.
Proof.
  induction fuel as [|fuel IH];
    intros live depth parent t p np s i a tag Hinv Hp Hnp Hch Hi Hbit Hrange Hlen1 Hdep Hfuel;
    [lia|].
  assert (Hlen : 1 ≤ Length a ≤ 32) by lia.
  destruct (inv_at_child _ _ _ _ _ _ _ _ Hinv Hp Hnp Hch Hi)
    as (Hli & Hpi & Hnch & Hi1 & ni & Hni & Hbi & Hleni & Hri & Hdi).
  pose proof (alloc_ok_inv _ _ _ _ Hinv) as Hal.
  assert (Hm1 : 1 ≤ MatchCount ni a).
  { apply MatchCount_pos; try done; try lia. congruence. }
  destruct (MatchCount_le ni a) as [Hmn Hma].
  destruct (decide (MatchCount ni a = Length a)) as [Hml|Hml].
  - destruct (decide (MatchCount ni a = prefixLength ni)) as [Hmp|Hmp].
    + (* the tag goes to the node *)
      rewrite (Add_loop_exact fuel t p i ni a tag) by done.
      eexists _, _. split; [done|]. exists live, depth, parent.
      apply inv_with_set_TagCount; [done|]. intros; left; lia.
    + (* a new node above the node *)
      destruct (Add_loop_above live fuel t p np s i ni a tag)
        as (t' & k & Hadd & Hk & Hkr & Hnk & Hni' & Hnp' & Hfr & _ & Hal' & _);
        try done; try lia.
      rewrite Hadd. eexists _, _. split; [done|].
      eexists _, _, _.
      apply (insert_above_inv live depth parent t t' p np s i ni k
               (set_child (isLeftBit (shl32 (prefix ni) (Length a))) i
                  (mkNode 0 0 (Address a) (Length a) 1))
               (Length a) 0 zeroNode);
        try done; try lia; try by left.
      * by destruct (isLeftBit (shl32 (prefix ni) (Length a))).
      * by destruct (isLeftBit (shl32 (prefix ni) (Length a))).
      * by destruct (isLeftBit (shl32 (prefix ni) (Length a))).
      * by destruct (isLeftBit (shl32 (prefix ni) (Length a))).
      * by destruct (isLeftBit (shl32 (prefix ni) (Length a))).
      * left. by destruct (isLeftBit (shl32 (prefix ni) (Length a))).
      * intros j ? ? ? _. by apply Hfr.
      * intros j Hj. pose proof (alloc_bound _ _ Hal' j) as Hb.
        destruct Hj as [->|[[? _]|Hj]]; [lia|done|].
        pose proof (inv_bound _ _ _ _ Hinv j Hj). specialize (Hb (or_intror Hj)). lia.
      * intros j Hj. destruct (alloc_free _ _ Hal' j Hj) as [Hnl Hr].
        split; [|done]. intros [->|[[? _]|Hl]]; [by apply Hnl; left|done|].
        by apply Hnl; right.
      * apply (alloc_nodup _ _ Hal').
  - destruct (ShiftLeft_ok a (MatchCount ni a)) as (Hr1 & Hl1 & Hl1'); [lia..|].
    destruct (decide (MatchCount ni a = prefixLength ni)) as [Hmp|Hmp].
    + (* keep going down *)
      simpl.
      rewrite (eqb_false_of i 0), (getNode_Some _ _ _ Hni) by done. simpl.
      rewrite (eqb_false_of (prefixLength ni) 0), (eqb_false_of (MatchCount ni a) 0) by lia.
      rewrite (eqb_false_of _ _ Hml), (eqb_true_of _ _ Hmp).
      set (a1 := ShiftLeft a (MatchCount ni a)) in *.
      assert (Hstep : ∀ s', isLeftBit (Address a1) = s' →
                ∃ t' a', (if child s' ni =? 0
                          then addLeaf t i s' a1 tag ≫= λ t0, Ok (t0, a1)
                          else Add_loop fuel t i (child s' ni) a1 tag) = Ok (t', a')
                         ∧ inv t').
      { intros s' Hs'. destruct (decide (child s' ni = 0)) as [Hc0|Hc0].
        - rewrite (eqb_true_of _ _ Hc0).
          destruct (addLeaf_spec live t i ni s' a1 tag Hal Hli Hni) as (t' & k & Hadd & Hla).
          rewrite Hadd. simpl. eexists _, _. split; [done|].
          eexists _, _, _. by eapply leaf_added_inv; try done; try lia.
        - rewrite (eqb_false_of _ _ Hc0).
          apply (IH live depth parent t i ni s'); try done; lia. }
      destruct (isLeftBit (shl32 (Address a) (MatchCount ni a))) eqn:Hb1.
      * by apply (Hstep true).
      * by apply (Hstep false).
    + (* split the node *)
      destruct (Add_loop_split live fuel t p np s i ni a tag)
        as (t' & k1 & k2 & Hadd & Hk1 & Hkr1 & Hk2 & Hkr2 & Hk21 & Hnk1 & Hnk2 & Hni' & Hnp'
            & Hfr & _ & Hal' & _); try done; try lia.
      rewrite Hadd. eexists _, _. split; [done|].
      eexists _, _, _.
      pose proof (MatchCount_split ni a) as Hsplit.
      apply (insert_above_inv live depth parent t t' p np s i ni k1
               (set_child (negb (isLeftBit (shl32 (prefix ni) (MatchCount ni a)))) k2
                  (set_child (isLeftBit (shl32 (prefix ni) (MatchCount ni a))) i
                     (mkNode 0 0 (Address a) (MatchCount ni a) 0)))
               (MatchCount ni a) k2
               (mkNode 0 0 (Address (ShiftLeft a (MatchCount ni a)))
                  (Length (ShiftLeft a (MatchCount ni a))) 1));
        try done; try lia.
      * right. split; [done|]. split; [lia|]. split; [done|]. split; [done|].
        simpl. split; [done|]. split; [done|]. split; [lia|].
        split; [|split; [lia|done]].
        change (Address (ShiftLeft a (MatchCount ni a)))
          with (shl32 (Address a) (MatchCount ni a)).
        rewrite Hsplit by lia. by rewrite negb_involutive.
      * by destruct (isLeftBit (shl32 (prefix ni) (MatchCount ni a))).
      * by destruct (isLeftBit (shl32 (prefix ni) (MatchCount ni a))).
      * by destruct (isLeftBit (shl32 (prefix ni) (MatchCount ni a))).
      * by destruct (isLeftBit (shl32 (prefix ni) (MatchCount ni a))).
      * by destruct (isLeftBit (shl32 (prefix ni) (MatchCount ni a))).
      * intros _. cbn [prefixLength]. lia.
      * intros j Hj. pose proof (alloc_bound _ _ Hal' j) as Hb.
        destruct Hj as [->|[[_ ->]|Hj]]; [lia|lia|].
        pose proof (inv_bound _ _ _ _ Hinv j Hj). specialize (Hb (or_intror (or_intror Hj))).
        lia.
      * intros j Hj. destruct (alloc_free _ _ Hal' j Hj) as [Hnl Hr].
        split; [|done]. intros [->|[[_ ->]|Hl]]; apply Hnl; tauto.
      * apply (alloc_nodup _ _ Hal').
Qed.

Lemma Add_inv fuel t address tag :
  inv t → oaddr_ok address → 32 ≤ fuel →
  ∃ t' address', Add fuel t address tag = Ok (t', address') ∧ inv t'.
Proof.
  intros (live & depth & parent & Hinv) Ha Hfuel.
  pose proof (inv_root _ _ _ _ Hinv) as Hr.
  destruct (inv_lookup Hinv 1 Hr) as [root Hroot].
  pose proof (alloc_ok_inv _ _ _ _ Hinv) as Hal.
  assert (Htag : ∃ t', addTag t tag 1 = Ok t' ∧ inv t').
  { rewrite (addTag_Ok _ _ _ _ Hroot). eexists. split; [done|].
    exists live, depth, parent. apply inv_with_set_TagCount; [done|]. intros; left; lia. }
  unfold Add. rewrite (getNode_Some _ _ _ Hroot). simpl.
  destruct address as [a|]; simpl.
  2:{ destruct Htag as (t' & -> & Hinv'). simpl. eauto. }
  destruct Ha as [Hrange Hlen].
  destruct (decide (Length a = 0)) as [Hl0|Hl0].
  { rewrite (eqb_true_of _ _ Hl0). destruct Htag as (t' & -> & Hinv'). simpl. eauto. }
  rewrite (eqb_false_of _ _ Hl0).
  assert (Hstep : ∀ s, isLeftBit (Address a) = s →
            ∃ t' address',
              (if child s root =? 0
               then addLeaf t 1 s a tag ≫= λ t0, Ok (t0, Some a)
               else Add_loop fuel t 1 (child s root) a tag
                    ≫= λ '(t0, a0), Ok (t0, Some a0)) = Ok (t', address')
              ∧ inv t').
  { intros s Hs. destruct (decide (child s root = 0)) as [Hc0|Hc0].
    - rewrite (eqb_true_of _ _ Hc0).
      destruct (addLeaf_spec live t 1 root s a tag Hal Hr Hroot) as (t' & k & Hadd & Hla).
      rewrite Hadd. simpl. eexists _, _. split; [done|].
      eexists _, _, _. eapply leaf_added_inv; try done; try lia.
      rewrite (inv_root_depth _ _ _ _ Hinv). lia.
    - rewrite (eqb_false_of _ _ Hc0).
      destruct (Add_loop_inv fuel live depth parent t 1 root s (child s root) a tag)
        as (t' & a' & Hadd & Hinv'); try done; try lia.
      { rewrite (inv_root_depth _ _ _ _ Hinv). lia. }
      rewrite Hadd. simpl. eauto. }
  destruct (isLeftBit (Address a)) eqn:Hb.
  - by apply (Hstep true).
  - by apply (Hstep false).
Qed.

Lemma inv_NewTreeV4 : inv NewTreeV4.
Proof.
  exists (λ j, j = 1), (λ _, 0), (λ _, 0). split; simpl.
  - done.
  - done.
  - intros; lia.
  - intros i ->. lia.
  - intros i n ->. intros [= <-]. simpl. lia.
  - intros i n s ->. intros [= <-]. by destruct s.
  - intros i n -> Hi. done.
  - intros i Hi. by apply elem_of_nil in Hi.
  - constructor.
Qed.

(** ** The invariant is kept by [Delete] *)

#[global] Arguments Delete_release : simpl never.

Lemma updNode_set_TagCount_twice c1 c0 i m1 m0 t :
  updNode (set_TagCount c1) i (setTags m1 (updNode (set_TagCount c0) i (setTags m0 t)))
  = updNode (set_TagCount c1) i (setTags m1 t).
Proof.
  unfold updNode, setTags. simpl. f_equal. apply list_eq. intros j.
  rewrite !list_lookup_alter. case_decide; [subst|done].
  rewrite decide_True by done. by destruct (nodes t !! j).
Qed.

Lemma deleteTag_putBack_spec t i n v f tgs :
  nodes t !! i = Some n →
  ∀ c m d k,
    ∃ m' d' k',
      deleteTag_putBack (updNode (set_TagCount c) i (setTags m t)) i v f tgs d k
      = Ok (updNode (set_TagCount (c + k')) i (setTags m' t), d + d', k + k') ∧
      d' + k' = length tgs.
Proof.
  intros Hn. induction tgs as [|tag tgs IH]; intros c m d k; simpl.
  - exists m, 0, 0. by rewrite !Nat.add_0_r.
  - destruct (f tag v).
    + destruct (IH c m (S d) k) as (m' & d' & k' & -> & Hl).
      exists m', (S d'), k'. split; [|lia].
      by replace (d + S d') with (S d + d') by lia.
    + rewrite (addTag_Ok _ _ _ (set_TagCount c n)).
      2:{ by rewrite nodes_updNode, decide_True, nodes_setTags, Hn. }
      simpl. rewrite updNode_set_TagCount_twice.
      destruct (IH (S c) (<[tagKey i c := tag]> m) d (S k)) as (m' & d' & k' & -> & Hl).
      exists m', d', (S k'). split; [|lia].
      replace (c + S k') with (S c + k') by lia.
      by replace (k + S k') with (S k + k') by lia.
Qed.

(** [deleteTag] changes the tag count of the node and the tag map. *)
Lemma deleteTag_spec t i n v f :
  nodes t !! i = Some n →
  ∃ m' d k,
    deleteTag t i v f = Ok (updNode (set_TagCount k) i (setTags m' t), d, k) ∧
    d + k = TagCount n.
Proof.
  intros Hn. unfold deleteTag, tagsForNode. rewrite (getNode_Some _ _ _ Hn). simpl.
  destruct (deleteTag_putBack_spec t i n v f
              (map (λ i0, readTag (tags t) (tagKey i i0)) (seq 0 (TagCount n))) Hn 0
              (foldl (λ m i0, delete (tagKey i i0) m) (tags t) (seq 0 (TagCount n))) 0 0)
    as (m' & d & k & -> & Hl).
  rewrite length_map, length_seq in Hl. eauto.
Qed.

(** The traversal of [Delete] ends, and when it finds a node, that node is
    a child of the parent it reports. *)
Lemma Delete_loop_spec fuel :
  ∀ live depth parent t p np s i a,
    inv_with live depth parent t →
    live p → nodes t !! p = Some np → child s np = i →
    1 ≤ Length a ≤ 32 → Length a ≤ fuel →
    ∃ r a', Delete_loop fuel t p i a = Ok (r, a') ∧
      (r = None ∨
       ∃ pi ti npi s', r = Some (pi, ti) ∧ live pi ∧ nodes t !! pi = Some npi ∧
                       child s' npi = ti ∧ ti ≠ 0).
Proof.
  induction fuel as [|fuel IH]; intros live depth parent t p np s i a Hinv Hp Hnp Hch Hlen Hfuel;
    [lia|].
  simpl. destruct (decide (i = 0)) as [Hi|Hi].
  { rewrite (eqb_true_of _ _ Hi). eauto. }
  rewrite (eqb_false_of _ _ Hi).
  destruct (inv_at_child _ _ _ _ _ _ _ _ Hinv Hp Hnp Hch Hi)
    as (Hli & Hpi & Hnch & Hi1 & ni & Hni & Hbi & Hleni & Hri & Hdi).
  rewrite (getNode_Some _ _ _ Hni). simpl.
  destruct (MatchCount_le ni a) as [Hmn Hma].
  destruct (Nat.ltb_spec (MatchCount ni a) (prefixLength ni)) as [Hlt|Hge]; [eauto|].
  destruct (decide (MatchCount ni a = Length a)) as [Hml|Hml].
  { rewrite (eqb_true_of _ _ Hml). eexists _, _. split; [done|]. right. eauto 10. }
  rewrite (eqb_false_of _ _ Hml).
  destruct (ShiftLeft_ok a (MatchCount ni a)) as (Hr1 & Hl1 & Hl1'); [lia..|].
  assert (Hstep : ∀ s', ∃ r a', Delete_loop fuel t i (child s' ni)
                                  (ShiftLeft a (MatchCount ni a)) = Ok (r, a') ∧
      (r = None ∨
       ∃ pi ti npi s', r = Some (pi, ti) ∧ live pi ∧ nodes t !! pi = Some npi ∧
                       child s' npi = ti ∧ ti ≠ 0)).
  { intros s'. apply (IH live depth parent t i ni s'); try done. lia. }
  destruct (isLeftBit (shl32 (Address a) (MatchCount ni a))).
  - apply (Hstep true).
  - apply (Hstep false).
Qed.

Lemma nodes_updNode_same f i t : nodes (updNode f i t) !! i = f <$> nodes t !! i.
Proof. by rewrite nodes_updNode, decide_True. Qed.

Lemma nodes_Delete_release t ti j :
  nodes (Delete_release t ti) !! j
  = nodes (updNode (set_Right 0) ti (updNode (set_Left 0) ti t)) !! j.
Proof. reflexivity. Qed.

Lemma availableIndexes_Delete_release t ti :
  availableIndexes (Delete_release t ti) = availableIndexes t ++ [ti].
Proof. reflexivity. Qed.

Lemma length_Delete_release t ti :
  length (nodes (Delete_release t ti)) = length (nodes t).
Proof. unfold Delete_release, updNode. simpl. by rewrite !length_alter. Qed.

(** Normalise a lookup in a tree built by writes, using the index
    equalities and disequalities at hand. *)
Ltac nodes_simpl :=
  repeat first
    [ rewrite nodes_setTags
    | rewrite nodes_Delete_release
    | rewrite nodes_updNode_same
    | rewrite nodes_updNode_ne by (done || lia) ];
  repeat match goal with
         | H : nodes ?t !! ?i = Some _ |- context [nodes ?t !! ?i] => rewrite H
         end;
  simpl fmap.

Ltac fields :=
  cbn [mbind result_mbind result_bind
       Left Right prefix prefixLength TagCount
       set_Left set_Right set_prefix set_TagCount ShiftPrefix].

Ltac get_node :=
  erewrite getNode_Some; [| nodes_simpl; reflexivity]; fields.

(** The same for the [getNode] at the head of an equation. *)
Ltac get_head :=
  lazymatch goal with
  | |- (getNode ?t ?i ≫= _) = _ =>
      erewrite (getNode_Some t i); [| nodes_simpl; reflexivity]; fields
  end.

Lemma moveTags_nodes t from to nf nt :
  nodes t !! from = Some nf → nodes t !! to = Some nt →
  ∃ m, moveTags t from to
       = Ok (updNode (set_TagCount 0) from
               (updNode (set_TagCount (TagCount nt + TagCount nf)) to (setTags m t))).
Proof.
  intros Hf Ht. unfold moveTags. rewrite (getNode_Some _ _ _ Hf). fields.
  do 2 get_node. eauto.
Qed.

(** *** Compaction

    [pi] is the parent found by the traversal, [ti] the target, whose tags
    are gone: the tree at hand is [t] with the tag count of [ti] set to 0
    and another tag map. *)
Section compaction.
Context (live : nat → Prop) (depth parent : nat → nat) (t : TreeV4).
Context (pi ti : nat) (npi nti : treeNodeV4) (s' : bool) (m' : gmap Z uint16).
Hypothesis Hinv : inv_with live depth parent t.
Hypothesis Hpi : live pi.
Hypothesis Hnpi : nodes t !! pi = Some npi.
Hypothesis Hch : child s' npi = ti.
Hypothesis Hti0 : ti ≠ 0.
Hypothesis Hnti : nodes t !! ti = Some nti.

Let t1 := updNode (set_TagCount 0) ti (setTags m' t).
Let live' := λ j, live j ∧ j ≠ ti.

Lemma compaction_facts :
  live ti ∧ pi ≠ ti ∧ child (negb s') npi ≠ ti ∧ ti ≠ 1 ∧
  isLeftBit (prefix nti) = s' ∧ 1 ≤ prefixLength nti ∧
  (0 ≤ prefix nti < 2 ^ 32)%Z ∧ depth ti = depth pi + prefixLength nti ∧
  parent ti = pi.
Proof.
  destruct (inv_at_child _ _ _ _ _ _ _ _ Hinv Hpi Hnpi Hch Hti0)
    as (Hli & Hpti & Hnch & Hi1 & ni & Hni & Hbi & Hleni & Hri & Hdi).
  rewrite Hnti in Hni. injection Hni as <-.
  repeat (split; [done|]).
  rewrite <- Hch in Hti0 |- *. by apply (inv_child _ _ _ _ Hinv pi npi s').
Qed.

Lemma compaction_released (L : nat → Prop) t2 :
  (∀ j, L j → live j ∧ j ≠ ti) →
  availableIndexes t2 = availableIndexes t →
  length (nodes t2) = length (nodes t) →
  (∀ i, L i → 1 ≤ i < length (nodes (Delete_release t2 ti))) ∧
  (∀ i, i ∈ availableIndexes (Delete_release t2 ti) →
        ¬ L i ∧ 2 ≤ i < length (nodes (Delete_release t2 ti))) ∧
  NoDup (availableIndexes (Delete_release t2 ti)).
Proof.
  intros HL Hav Hlen.
  destruct compaction_facts as (Hli & Hpti & Hnch & Hi1 & _).
  rewrite length_Delete_release, availableIndexes_Delete_release, Hav, Hlen.
  pose proof (inv_bound _ _ _ _ Hinv ti Hli) as Hbt.
  split; [|split].
  - intros i [Hi _]%HL. by apply (inv_bound _ _ _ _ Hinv).
  - intros i [Hi| ->%list_elem_of_singleton]%elem_of_app.
    + destruct (inv_free _ _ _ _ Hinv i Hi) as [Hnl Hr]. split; [|done].
      by intros [? _]%HL.
    + split; [by intros [_ ?]%HL|lia].
  - apply NoDup_app. split; [apply (inv_free_nodup _ _ _ _ Hinv)|].
    split; [|apply NoDup_singleton].
    intros i Hi ->%list_elem_of_singleton.
    by destruct (inv_free _ _ _ _ Hinv ti Hi).
Qed.

(** An old child [c] of a node that is not touched. *)
Lemma compaction_child_kept j nj s c (P : nat → Prop) :
  live j → nodes t !! j = Some nj → child s nj = c → c ≠ 0 →
  live c ∧ parent c = j ∧ c ≠ j ∧ c ≠ 1 ∧
  ∃ nc, nodes t !! c = Some nc ∧ isLeftBit (prefix nc) = s ∧
        1 ≤ prefixLength nc ∧ depth c = depth j + prefixLength nc.
Proof.
  intros Hj Hnj Hc Hc0.
  destruct (inv_at_child _ _ _ _ _ _ _ _ Hinv Hj Hnj Hc Hc0)
    as (Hli & Hpti & Hnch & Hi1 & ni & Hni & Hbi & Hleni & Hri & Hdi).
  rewrite <- Hc in Hc0.
  destruct (inv_child _ _ _ _ Hinv j nj s Hj Hnj Hc0) as (_ & Hp & _).
  rewrite Hc in Hp. eauto 12.
Qed.

(** The target has no child and its parent stays as it is. *)
Lemma compaction_leaf_inv :
  Left nti = 0 → Right nti = 0 →
  (pi ≠ 1 → 1 ≤ TagCount npi) →
  inv (Delete_release (updNode (set_child s' 0) pi t1) ti).
Proof.
  intros Hl Hr Htag.
  destruct compaction_facts as (Hli & Hpti & Hnch & Hi1 & Hb & Hlen & Hrange & Hd & Hp).
  set (T := Delete_release _ ti).
  assert (HTpi : nodes T !! pi = Some (set_child s' 0 npi)).
  { unfold T, t1. by nodes_simpl. }
  assert (HTfr : ∀ j, j ≠ pi → j ≠ ti → nodes T !! j = nodes t !! j).
  { intros j ? ?. unfold T, t1. by nodes_simpl. }
  destruct (compaction_released live' (updNode (set_child s' 0) pi t1))
    as (Hbd & Hfree & Hnd);
    [done|done|by rewrite length_updNode; unfold t1; rewrite length_updNode|].
  exists live', depth, parent.
  apply (inv_with_frame (λ j, j = pi ∨ j = ti) (λ j, j = ti) live depth parent t);
    try done.
  - intros j. destruct (decide (j = pi)), (decide (j = ti)); tauto.
  - intros j Hj. split; [unfold live'; tauto|]. split; [|done]. apply HTfr; tauto.
  - intros c n [-> | ->] HnA Hlc Hn; [|done].
    rewrite Hnpi in Hn. injection Hn as <-.
    split; [done|]. split; [done|].
    exists (set_child s' 0 npi). by rewrite prefix_set_child, prefixLength_set_child.
  - intros c -> _. rewrite Hp. tauto.
  - intros j n [-> | ->] Hj Hn; [|by destruct Hj].
    rewrite HTpi in Hn. injection Hn as <-.
    rewrite prefix_set_child, prefixLength_set_child, TagCount_set_child.
    split; [by apply (inv_range _ _ _ _ Hinv pi npi)|]. split.
    + intros s Hc. rewrite child_set_child in Hc |- *.
      case_decide as Hs; [done|].
      destruct (compaction_child_kept pi npi s _ (λ _, True) Hpi Hnpi eq_refl Hc)
        as (Hcl & Hcp & Hcne & Hc1 & nc & Hnc & Hcb & Hclen & Hcd).
      assert (child s npi ≠ ti).
      { intros He. destruct s, s'; simpl in *; congruence. }
      split; [done|]. split; [done|]. exists nc. by rewrite HTfr.
    + intros Hp1. destruct (inv_useful _ _ _ _ Hinv pi npi Hpi Hp1 Hnpi) as [? _].
      split; [done|]. left. by apply Htag.
  - intros j _ Hj. unfold upd. repeat case_decide;
      apply (inv_depth _ _ _ _ Hinv); first [done | by destruct Hj].
  - split; [apply (inv_root _ _ _ _ Hinv)|done].
  - apply (inv_root_depth _ _ _ _ Hinv).
Qed.

Lemma Left_eqb_target :
  (Left npi =? ti) = s'.
Proof.
  destruct compaction_facts as (_ & _ & Hnch & _).
  destruct s'; simpl in *; [by apply eqb_true_of|by apply eqb_false_of].
Qed.

(** The target has one child [c], which takes its place. *)
Lemma Delete_liftChild_Ok c nc :
  nodes t !! c = Some nc → c ≠ ti → c ≠ pi →
  Delete_liftChild t1 pi ti c
  = Ok (updNode (set_prefix
                   (MergePrefixes32 (prefix nti) (prefixLength nti)
                                    (prefix nc) (prefixLength nc)).1
                   (prefixLength nti + prefixLength nc)) c
          (updNode (set_child s' c) pi t1)).
Proof.
  intros Hnc Hcti Hcpi.
  destruct compaction_facts as (Hli & Hpti & Hnch & Hi1 & _).
  unfold Delete_liftChild, t1. get_node. rewrite Left_eqb_target.
  replace (if s' then updNode (set_Left c) pi _ else updNode (set_Right c) pi _)
    with (updNode (set_child s' c) pi (updNode (set_TagCount 0) ti (setTags m' t)))
    by (by destruct s').
  do 2 get_node. reflexivity.
Qed.

Lemma compaction_lift_inv sc c :
  child sc nti = c → c ≠ 0 →
  ∃ nc, nodes t !! c = Some nc ∧ c ≠ ti ∧ c ≠ pi ∧
    inv (Delete_release
           (updNode (set_prefix
                       (MergePrefixes32 (prefix nti) (prefixLength nti)
                                        (prefix nc) (prefixLength nc)).1
                       (prefixLength nti + prefixLength nc)) c
              (updNode (set_child s' c) pi t1)) ti).
Proof.
  intros Hc Hc0.
  destruct compaction_facts as (Hli & Hpti & Hnch & Hi1 & Hb & Hlen & Hrange & Hd & Hp).
  destruct (compaction_child_kept ti nti sc c (λ _, True) Hli Hnti Hc Hc0)
    as (Hcl & Hcp & Hcne & Hc1 & nc & Hnc & Hcb & Hclen & Hcd).
  assert (Hcpi : c ≠ pi) by (intros ->; lia).
  exists nc. split; [done|]. split; [done|]. split; [done|].
  set (mp := (MergePrefixes32 _ _ _ _).1).
  set (T := Delete_release _ ti).
  assert (HTpi : nodes T !! pi = Some (set_child s' c npi)).
  { unfold T, t1. by nodes_simpl. }
  assert (HTc : nodes T !! c
                = Some (set_prefix mp (prefixLength nti + prefixLength nc) nc)).
  { unfold T, t1. by nodes_simpl. }
  assert (HTfr : ∀ j, j ≠ pi → j ≠ ti → j ≠ c → nodes T !! j = nodes t !! j).
  { intros j ? ? ?. unfold T, t1. by nodes_simpl. }
  destruct (compaction_released live'
              (updNode (set_prefix mp (prefixLength nti + prefixLength nc)) c
                 (updNode (set_child s' c) pi t1))) as (Hbd & Hfree & Hnd);
    [done|done|by rewrite !length_updNode; unfold t1; rewrite length_updNode|].
  exists live', depth, (upd parent c pi).
  apply (inv_with_frame (λ j, j = pi ∨ j = ti ∨ j = c) (λ j, j = ti ∨ j = c)
           live depth parent t); try done.
  - intros j. destruct (decide (j = pi)), (decide (j = ti)), (decide (j = c)); tauto.
  - intros j Hj. split; [unfold live'; tauto|]. split; [|done]. apply HTfr; tauto.
  - intros j _ Hj. apply upd_ne. tauto.
  - intros x n [-> | [-> | ->]] HnA Hlc Hn; [|tauto|tauto].
    rewrite Hnpi in Hn. injection Hn as <-.
    split; [done|]. split; [by apply upd_ne|].
    exists (set_child s' c npi). by rewrite prefix_set_child, prefixLength_set_child.
  - intros x [-> | ->] _; [rewrite Hp|rewrite Hcp]; tauto.
  - intros j n [-> | [-> | ->]] Hj Hn; [|by destruct Hj|].
    + rewrite HTpi in Hn. injection Hn as <-.
      rewrite prefix_set_child, prefixLength_set_child, TagCount_set_child.
      split; [by apply (inv_range _ _ _ _ Hinv pi npi)|]. split.
      * intros s Hcs. rewrite child_set_child in Hcs |- *.
        case_decide as Hs; [subst s|].
        -- split; [done|]. split; [apply upd_eq|].
           rewrite HTc. eexists. split; [done|]. simpl.
           split; [|lia]. unfold mp. by rewrite MergePrefixes32_isLeftBit.
        -- destruct (compaction_child_kept pi npi s _ (λ _, True) Hpi Hnpi eq_refl Hcs)
             as (Hxl & Hxp & Hxne & Hx1 & nx & Hnx & Hxb & Hxlen & Hxd).
           assert (child s npi ≠ ti).
           { intros He. destruct s, s'; simpl in *; congruence. }
           assert (child s npi ≠ c) by congruence.
           split; [done|]. split; [by rewrite upd_ne|]. exists nx. by rewrite HTfr.
      * intros Hp1. destruct (inv_useful _ _ _ _ Hinv pi npi Hpi Hp1 Hnpi) as [? Hu].
        split; [done|]. destruct Hu as [?|[? ?]]; [by left|right].
        destruct s'; simpl in *; split; congruence.
    + rewrite HTc in Hn. injection Hn as <-. simpl.
      split; [apply MergePrefixes32_range|]. split.
      * intros s Hcs.
        destruct (compaction_child_kept c nc s _ (λ _, True) Hcl Hnc eq_refl Hcs)
          as (Hxl & Hxp & Hxne & Hx1 & nx & Hnx & Hxb & Hxlen & Hxd).
        assert (child s nc ≠ ti) by congruence.
        assert (child s nc ≠ pi) by (intros He; rewrite He in Hxd; lia).
        split; [done|]. split; [by rewrite upd_ne|]. exists nx. by rewrite HTfr.
      * intros _. split; [lia|].
        by destruct (inv_useful _ _ _ _ Hinv c nc Hcl Hc1 Hnc).
  - intros j _ Hj. unfold upd. repeat case_decide;
      apply (inv_depth _ _ _ _ Hinv); first [done | by destruct Hj].
  - split; [apply (inv_root _ _ _ _ Hinv)|done].
  - apply (inv_root_depth _ _ _ _ Hinv).
Qed.

(** Both children of the target move up to its parent, which has no
    other child and is not the root. *)
Lemma compaction_absorb_inv :
  Left nti ≠ 0 → Right nti ≠ 0 → pi ≠ 1 →
  inv (Delete_release
         (updNode (set_prefix
                     (MergePrefixes32 (prefix npi) (prefixLength npi)
                                      (prefix nti) (prefixLength nti)).1
                     (prefixLength npi + prefixLength nti)) pi
            (updNode (set_Right (Right nti)) pi
               (updNode (set_Left (Left nti)) pi t1))) ti).
Proof.
  intros Hl Hr Hp1.
  destruct compaction_facts as (Hli & Hpti & Hnch & Hi1 & Hb & Hlen & Hrange & Hd & Hp).
  destruct (compaction_child_kept ti nti true _ (λ _, True) Hli Hnti eq_refl Hl)
    as (Hll & Hlp & Hlne & Hl1 & nl & Hnl & Hlb & Hllen & Hld).
  destruct (compaction_child_kept ti nti false _ (λ _, True) Hli Hnti eq_refl Hr)
    as (Hrl & Hrp & Hrne & Hr1 & nr & Hnr & Hrb & Hrlen & Hrd).
  cbn [child] in *.
  assert (Hlr : Left nti ≠ Right nti) by (by apply (inv_children_ne Hinv ti)).
  assert (Left nti ≠ pi) by (intros He; rewrite He in Hld; lia).
  assert (Right nti ≠ pi) by (intros He; rewrite He in Hrd; lia).
  destruct (inv_useful _ _ _ _ Hinv pi npi Hpi Hp1 Hnpi) as [Hplen _].
  pose proof (inv_range _ _ _ _ Hinv pi npi Hpi Hnpi) as Hprange.
  set (mp := (MergePrefixes32 _ _ _ _).1).
  set (T := Delete_release _ ti).
  assert (HTpi : nodes T !! pi
                 = Some (mkNode (Left nti) (Right nti) mp
                           (prefixLength npi + prefixLength nti) (TagCount npi))).
  { unfold T, t1. by nodes_simpl. }
  assert (HTfr : ∀ j, j ≠ pi → j ≠ ti → nodes T !! j = nodes t !! j).
  { intros j ? ?. unfold T, t1. by nodes_simpl. }
  destruct (compaction_released live'
              (updNode (set_prefix mp (prefixLength npi + prefixLength nti)) pi
                 (updNode (set_Right (Right nti)) pi
                    (updNode (set_Left (Left nti)) pi t1)))) as (Hbd & Hfree & Hnd);
    [done|done|by rewrite !length_updNode; unfold t1; rewrite length_updNode|].
  exists live', (upd depth pi (depth ti)),
    (upd (upd parent (Left nti) pi) (Right nti) pi).
  apply (inv_with_frame (λ j, j = pi ∨ j = ti)
           (λ j, j = ti ∨ j = Left nti ∨ j = Right nti) live depth parent t); try done.
  - intros j. destruct (decide (j = pi)), (decide (j = ti)); tauto.
  - intros j Hj. split; [unfold live'; tauto|]. split; [apply HTfr; tauto|].
    apply upd_ne. tauto.
  - intros j _ Hj. rewrite !upd_ne; tauto.
  - intros x n [-> | ->] HnA Hlc Hn; [|tauto].
    rewrite Hnpi in Hn. injection Hn as <-.
    split; [done|]. split; [by rewrite !upd_ne|].
    rewrite HTpi. eexists. split; [done|]. simpl.
    rewrite upd_eq. unfold mp. rewrite MergePrefixes32_isLeftBit by done.
    split; [done|]. lia.
  - intros x [-> | [-> | ->]] _; [rewrite Hp|rewrite Hlp|rewrite Hrp]; tauto.
  - intros j n [-> | ->] Hj Hn; [|by destruct Hj].
    rewrite HTpi in Hn. injection Hn as <-. simpl.
    split; [apply MergePrefixes32_range|]. split; [|intros _; split; [lia|by right]].
    intros [|] Hcs; simpl in *.
    + split; [done|]. split; [by rewrite upd_ne, upd_eq|].
      exists nl. rewrite HTfr by done. rewrite upd_eq, upd_ne by done. done.
    + split; [done|]. split; [by rewrite upd_eq|].
      exists nr. rewrite HTfr by done. rewrite upd_eq, upd_ne by done. done.
  - intros j _ Hj. unfold upd. repeat case_decide;
      apply (inv_depth _ _ _ _ Hinv); first [done | by destruct Hj].
  - split; [apply (inv_root _ _ _ _ Hinv)|done].
  - rewrite upd_ne by done. apply (inv_root_depth _ _ _ _ Hinv).
Qed.

(** The target has no child and its sibling [S] is merged into the
    parent, which has no tag and is not the root. *)
Lemma Delete_mergeSibling_Ok nS :
  let S := child (negb s') npi in
  nodes t !! S = Some nS → S ≠ pi → S ≠ ti →
  ∃ TM,
    Delete_mergeSibling (updNode (set_child s' 0) pi t1) pi s' = Ok TM ∧
    nodes TM !! pi
    = Some (mkNode (Left nS) (Right nS)
              (MergePrefixes32 (prefix npi) (prefixLength npi)
                               (prefix nS) (prefixLength nS)).1
              (prefixLength npi + prefixLength nS)
              (TagCount npi + TagCount nS)) ∧
    (∀ j, j ≠ pi → j ≠ S → nodes TM !! j = nodes t1 !! j) ∧
    availableIndexes TM = availableIndexes t ∧
    length (nodes TM) = length (nodes t).
Proof.
  intros S HnS HSpi HSti.
  destruct compaction_facts as (Hli & Hpti & Hnch & Hi1 & _).
  unfold Delete_mergeSibling, t1. get_node.
  assert (HS : (if s' then Right (set_child s' 0 npi) else Left (set_child s' 0 npi)) = S).
  { unfold S. by destruct s'. }
  rewrite HS. get_node.
  rewrite prefix_set_child, prefixLength_set_child.
  set (mp := (MergePrefixes32 _ _ _ _).1).
  change (MergePrefixes32 (prefix npi) (prefixLength npi) (prefix nS) (prefixLength nS))
    with (mp, prefixLength npi + prefixLength nS).
  cbn iota.
  set (t3 := updNode (set_prefix mp _) pi _).
  destruct (moveTags_nodes t3 S pi nS
              (set_prefix mp (prefixLength npi + prefixLength nS) (set_child s' 0 npi)))
    as (m & Hmove).
  { unfold t3. by nodes_simpl. }
  { unfold t3. by nodes_simpl. }
  rewrite Hmove. simpl.
  set (t4 := updNode (set_TagCount 0) S _).
  assert (Ht4pi : nodes t4 !! pi
            = Some (set_TagCount (TagCount npi + TagCount nS)
                      (set_prefix mp (prefixLength npi + prefixLength nS)
                         (set_child s' 0 npi)))).
  { unfold t4, t3. nodes_simpl. by rewrite TagCount_set_child. }
  assert (Ht4S : nodes t4 !! S = Some (set_TagCount 0 nS)).
  { unfold t4, t3. by nodes_simpl. }
  assert (Ht4fr : ∀ j, j ≠ pi → j ≠ S →
            nodes t4 !! j = nodes (updNode (set_TagCount 0) ti (setTags m' t)) !! j).
  { intros j ? ?. unfold t4, t3. by nodes_simpl. }
  assert (Ht4len : length (nodes t4) = length (nodes t)).
  { unfold t4, t3. by rewrite !length_updNode, nodes_setTags, !length_updNode. }
  assert (Ht4av : availableIndexes t4 = availableIndexes t) by done.
  clearbody t4. subst S.
  destruct s'; cbn [child negb set_child] in *.
  - rewrite (getNode_Some _ _ _ Ht4pi). simpl.
    rewrite (getNode_Some _ _ _ Ht4S). simpl.
    get_node. get_node.
    eexists. split; [reflexivity|].
    split; [by nodes_simpl|].
    split; [|split; [by autorewrite with tree|by rewrite !length_updNode]].
    intros j ? ?. rewrite !nodes_updNode_ne by done. by apply Ht4fr.
  - rewrite (getNode_Some _ _ _ Ht4pi). simpl.
    rewrite (getNode_Some _ _ _ Ht4S). simpl.
    get_node. get_node.
    eexists. split; [reflexivity|].
    split; [by nodes_simpl|].
    split; [|split; [by autorewrite with tree|by rewrite !length_updNode]].
    intros j ? ?. rewrite !nodes_updNode_ne by done. by apply Ht4fr.
Qed.

Lemma compaction_merge_inv nS TM :
  let S := child (negb s') npi in
  S ≠ 0 → pi ≠ 1 → nodes t !! S = Some nS →
  nodes TM !! pi
  = Some (mkNode (Left nS) (Right nS)
            (MergePrefixes32 (prefix npi) (prefixLength npi)
                             (prefix nS) (prefixLength nS)).1
            (prefixLength npi + prefixLength nS)
            (TagCount npi + TagCount nS)) →
  (∀ j, j ≠ pi → j ≠ S → nodes TM !! j = nodes t1 !! j) →
  availableIndexes TM = availableIndexes t →
  length (nodes TM) = length (nodes t) →
  inv (Delete_release TM ti).
Proof.
  intros S HS0 Hp1 HnS HTMpi HTMfr HTMav HTMlen.
  destruct compaction_facts as (Hli & Hpti & Hnch & Hi1 & Hb & Hlen & Hrange & Hd & Hp).
  destruct (compaction_child_kept pi npi (negb s') S (λ _, True) Hpi Hnpi eq_refl HS0)
    as (HSl & HSp & HSne & HS1 & nS' & HnS' & HSb & HSlen & HSd).
  rewrite HnS in HnS'. injection HnS' as <-.
  fold S in Hnch.
  destruct (inv_useful _ _ _ _ Hinv pi npi Hpi Hp1 Hnpi) as [Hplen _].
  pose proof (inv_range _ _ _ _ Hinv pi npi Hpi Hnpi) as Hprange.
  set (mp := (MergePrefixes32 _ _ _ _).1) in *.
  set (T := Delete_release TM ti).
  assert (HTpi : nodes T !! pi
                 = Some (mkNode (Left nS) (Right nS) mp
                           (prefixLength npi + prefixLength nS)
                           (TagCount npi + TagCount nS))).
  { unfold T. by nodes_simpl. }
  assert (HTfr : ∀ j, j ≠ pi → j ≠ ti → j ≠ S → nodes T !! j = nodes t !! j).
  { intros j ? ? ?. unfold T. nodes_simpl. rewrite HTMfr by done.
    unfold t1. by nodes_simpl. }
  destruct (compaction_released (λ j, live j ∧ j ≠ ti ∧ j ≠ S) TM)
    as (Hbd & Hfree & Hnd); [tauto|done|done|].
  assert (Hkid : ∀ s, child s nS ≠ 0 →
            live (child s nS) ∧ child s nS ≠ ti ∧ child s nS ≠ S ∧ child s nS ≠ pi ∧
            parent (child s nS) = S ∧
            ∃ nc, nodes t !! child s nS = Some nc ∧ isLeftBit (prefix nc) = s ∧
                  1 ≤ prefixLength nc ∧ depth (child s nS) = depth S + prefixLength nc).
  { intros s Hcs.
    destruct (compaction_child_kept S nS s _ (λ _, True) HSl HnS eq_refl Hcs)
      as (Hxl & Hxp & Hxne & Hx1 & nx & Hnx & Hxb & Hxlen & Hxd).
    split; [done|]. split; [congruence|]. split; [done|].
    split; [intros He; rewrite He in Hxd; lia|]. eauto 10. }
  exists (λ j, live j ∧ j ≠ ti ∧ j ≠ S), (upd depth pi (depth S)),
    (upd (upd parent (Left nS) pi) (Right nS) pi).
  apply (inv_with_frame (λ j, j = pi ∨ j = ti ∨ j = S)
           (λ j, j = ti ∨ j = S ∨ j = Left nS ∨ j = Right nS) live depth parent t);
    try done.
  - intros j. destruct (decide (j = pi)), (decide (j = ti)), (decide (j = S)); tauto.
  - intros j Hj. split; [tauto|]. split; [apply HTfr; tauto|].
    apply upd_ne. tauto.
  - intros j _ Hj. rewrite !upd_ne; tauto.
  - intros x n [-> | [-> | ->]] HnA Hlc Hn; [|tauto|tauto].
    rewrite Hnpi in Hn. injection Hn as <-.
    split; [done|]. split; [rewrite !upd_ne; [done|tauto|tauto]|].
    rewrite HTpi. eexists. split; [done|]. simpl.
    rewrite upd_eq. unfold mp. rewrite MergePrefixes32_isLeftBit by done.
    split; [done|]. lia.
  - intros x [-> | [-> | [-> | ->]]] Hlx.
    + rewrite Hp. tauto.
    + rewrite HSp. tauto.
    + assert (Hc0 : child true nS ≠ 0).
      { simpl. intros He. rewrite He in Hlx. by apply (inv_not_live_0 Hinv). }
      destruct (Hkid true Hc0) as (_ & _ & _ & _ & Hxp & _). simpl in Hxp.
      rewrite Hxp. tauto.
    + assert (Hc0 : child false nS ≠ 0).
      { simpl. intros He. rewrite He in Hlx. by apply (inv_not_live_0 Hinv). }
      destruct (Hkid false Hc0) as (_ & _ & _ & _ & Hxp & _). simpl in Hxp.
      rewrite Hxp. tauto.
  - intros j n [-> | [-> | ->]] Hj Hn; [|tauto|tauto].
    rewrite HTpi in Hn. injection Hn as <-. cbn [prefix prefixLength TagCount Left Right].
    split; [apply MergePrefixes32_range|]. split.
    + intros s Hcs.
      assert (Hcs' : child s nS ≠ 0) by (by destruct s).
      destruct (Hkid s Hcs') as (Hxl & Hxti & HxS & Hxpi & Hxp & nx & Hnx & Hxb & Hxlen & Hxd).
      replace (child s (mkNode (Left nS) (Right nS) mp
                          (prefixLength npi + prefixLength nS)
                          (TagCount npi + TagCount nS)))
        with (child s nS) by (by destruct s).
      split; [done|]. split.
      { unfold upd. destruct s; cbn [child]; repeat case_decide; congruence. }
      exists nx. rewrite HTfr by done. rewrite upd_eq, upd_ne by done. done.
    + intros _. split; [lia|].
      destruct (inv_useful _ _ _ _ Hinv S nS HSl HS1 HnS) as [_ [?|?]]; [left; lia|by right].
  - intros j _ Hj. unfold upd. repeat case_decide;
      apply (inv_depth _ _ _ _ Hinv); first [done | by destruct Hj].
  - split; [apply (inv_root _ _ _ _ Hinv)|].
    split; [done|]. intros He. by rewrite <- He in HS1.
  - rewrite upd_ne by done. apply (inv_root_depth _ _ _ _ Hinv).
Qed.

Lemma Delete_compact_inv d :
  ∃ t', Delete_compact t1 pi ti d = Ok (d, t') ∧ inv t'.
Proof.
  destruct compaction_facts as (Hli & Hpti & Hnch & Hi1 & Hb & Hlen & Hrange & Hd & Hp).
  pose proof (inv_bound _ _ _ _ Hinv pi Hpi) as Hpib.
  assert (Hinv1 : Left nti ≠ 0 → Right nti ≠ 0 → inv t1).
  { intros Hl Hr. exists live, depth, parent. apply inv_with_set_TagCount; [done|].
    intros _ n Hn. rewrite Hnti in Hn. injection Hn as <-. by right. }
  destruct (decide (Left nti = 0)) as [Hl|Hl];
    destruct (decide (Right nti = 0)) as [Hr|Hr].
  - (* no child *)
    destruct ((1 <? pi) && (TagCount npi =? 0) && negb (child (negb s') npi =? 0))
      eqn:Hcond.
    + apply andb_true_iff in Hcond as [[Hc1 Hc2]%andb_true_iff Hc3].
      pose proof Hc1 as Hc1'. pose proof Hc2 as Hc2'. pose proof Hc3 as Hc3'.
      apply Nat.ltb_lt in Hc1'. apply Nat.eqb_eq in Hc2'.
      apply negb_true_iff, Nat.eqb_neq in Hc3'.
      destruct (compaction_child_kept pi npi (negb s') _ (λ _, True) Hpi Hnpi eq_refl Hc3')
        as (HSl & HSp & HSne & HS1 & nS & HnS & _).
      destruct (Delete_mergeSibling_Ok nS HnS HSne Hnch)
        as (TM & HTM & HTMpi & HTMfr & HTMav & HTMlen).
      exists (Delete_release TM ti). split.
      * unfold Delete_compact, t1. do 2 get_head.
        rewrite (eqb_true_of _ _ Hl), (eqb_true_of _ _ Hr). cbn [negb andb].
        rewrite Left_eqb_target. unfold t1 in HTM.
        destruct s'; cbn [child negb] in *; get_head;
          rewrite Hc1, Hc2, Hc3; cbn [andb];
          [change (set_Left 0) with (set_child true 0)
          |change (set_Right 0) with (set_child false 0)];
          by rewrite HTM.
      * apply (compaction_merge_inv nS TM); try done. lia.
    + exists (Delete_release (updNode (set_child s' 0) pi t1) ti). split.
      * unfold Delete_compact, t1. do 2 get_head.
        rewrite (eqb_true_of _ _ Hl), (eqb_true_of _ _ Hr). cbn [negb andb].
        rewrite Left_eqb_target.
        destruct s'; cbn [child negb] in *; get_head; by rewrite Hcond.
      * apply compaction_leaf_inv; try done.
        intros Hp1.
        destruct (inv_useful _ _ _ _ Hinv pi npi Hpi Hp1 Hnpi) as [_ [?|[Hpl Hpr]]];
          [done|].
        apply andb_false_iff in Hcond as [[Hc|Hc]%andb_false_iff|Hc].
        -- apply Nat.ltb_ge in Hc. lia.
        -- apply Nat.eqb_neq in Hc. lia.
        -- apply negb_false_iff, Nat.eqb_eq in Hc. destruct s'; simpl in Hc; congruence.
  - (* only a right child *)
    destruct (compaction_lift_inv false (Right nti) eq_refl Hr)
      as (nc & Hnc & Hcti & Hcpi & Hinv').
    pose proof (Delete_liftChild_Ok (Right nti) nc Hnc Hcti Hcpi) as Hlift.
    eexists. split; [|exact Hinv'].
    unfold Delete_compact. unfold t1 in *. do 2 get_head.
    rewrite (eqb_true_of _ _ Hl), (eqb_false_of _ _ Hr). cbn [negb andb].
    by rewrite Hlift.
  - (* only a left child *)
    destruct (compaction_lift_inv true (Left nti) eq_refl Hl)
      as (nc & Hnc & Hcti & Hcpi & Hinv').
    pose proof (Delete_liftChild_Ok (Left nti) nc Hnc Hcti Hcpi) as Hlift.
    eexists. split; [|exact Hinv'].
    unfold Delete_compact. unfold t1 in *. do 2 get_head.
    rewrite (eqb_false_of _ _ Hl), (eqb_true_of _ _ Hr). cbn [negb andb].
    by rewrite Hlift.
  - (* two children *)
    destruct (((Left npi =? 0) || (Right npi =? 0)) && (1 <? pi)) eqn:Hcond.
    + apply andb_true_iff in Hcond as [Hc1 Hc2].
      eexists. split; [|apply compaction_absorb_inv; try done].
      * unfold Delete_compact, t1. do 2 get_head.
        rewrite (eqb_false_of _ _ Hl), (eqb_false_of _ _ Hr). cbn [negb andb].
        rewrite Hc1, Hc2. do 3 get_head. reflexivity.
      * apply Nat.ltb_lt in Hc2. lia.
    + exists t1. split; [|by apply Hinv1].
      unfold Delete_compact, t1. do 2 get_head.
      rewrite (eqb_false_of _ _ Hl), (eqb_false_of _ _ Hr). cbn [negb andb].
      destruct ((Left npi =? 0) || (Right npi =? 0)); [|done].
      simpl in Hcond. by rewrite Hcond.
Qed.
End compaction.

Lemma Delete_target_inv live depth parent t pi ti f v :
  inv_with live depth parent t →
  (ti = 1 ∨ ∃ npi s', live pi ∧ nodes t !! pi = Some npi ∧ child s' npi = ti ∧ ti ≠ 0) →
  ∃ c t', Delete_target t pi ti f v = Ok (c, t') ∧ inv t'.
Proof.
  intros Hinv Hti.
  assert (Hlti : live ti).
  { destruct Hti as [->|(npi & s' & Hpi & Hnpi & Hch & Hti0)].
    - apply (inv_root _ _ _ _ Hinv).
    - by destruct (inv_at_child _ _ _ _ _ _ _ _ Hinv Hpi Hnpi Hch Hti0). }
  destruct (inv_lookup Hinv ti Hlti) as [nti Hnti].
  unfold Delete_target. rewrite (getNode_Some _ _ _ Hnti). fields.
  destruct (TagCount nti =? 0); [by eexists _, _; split; [done|exists live, depth, parent]|].
  destruct (deleteTag_spec t ti nti v f Hnti) as (m' & d & k & -> & Hdk). fields.
  destruct (Nat.ltb_spec 0 k) as [Hk|Hk].
  { eexists _, _. split; [done|]. exists live, depth, parent.
    apply inv_with_set_TagCount; [done|]. intros; left; lia. }
  assert (k = 0) as -> by lia.
  destruct (Nat.eqb_spec ti 1) as [Hti1|Hti1].
  { eexists _, _. split; [done|]. exists live, depth, parent.
    by apply inv_with_set_TagCount. }
  destruct Hti as [?|(npi & s' & Hpi & Hnpi & Hch & Hti0)]; [done|].
  destruct (Delete_compact_inv live depth parent t pi ti npi nti s' m'
              Hinv Hpi Hnpi Hch Hti0 Hnti d) as (t' & Ht' & Hinv').
  rewrite Ht'. eauto.
Qed.

Lemma Delete_inv fuel t address f v :
  inv t → oaddr_ok address → 32 ≤ fuel →
  ∃ c t' address', Delete fuel t address f v = Ok (c, t', address') ∧ inv t'.
Proof.
  intros (live & depth & parent & Hinv) Ha Hfuel.
  pose proof (inv_root _ _ _ _ Hinv) as Hr.
  destruct (inv_lookup Hinv 1 Hr) as [root Hroot].
  assert (Hroot_case : ∃ c t', Delete_target t 0 1 f v = Ok (c, t') ∧ inv t').
  { apply (Delete_target_inv live depth parent); [done|by left]. }
  unfold Delete. rewrite (getNode_Some _ _ _ Hroot). fields.
  destruct address as [a|].
  2:{ destruct Hroot_case as (c & t' & -> & Hinv'). fields. eauto. }
  destruct Ha as [Hrange Hlen].
  destruct (Nat.eqb_spec (Length a) 0) as [Hl0|Hl0].
  { destruct Hroot_case as (c & t' & -> & Hinv'). fields. eauto. }
  destruct (Delete_loop_spec fuel live depth parent t 1 root (isLeftBit (Address a))
              (child (isLeftBit (Address a)) root) a Hinv Hr Hroot eq_refl)
    as (r & a' & Hloop & Hres); [lia..|].
  unfold child in Hloop. rewrite Hloop. fields.
  destruct Hres as [->|(pi & ti & npi & s' & -> & Hpi & Hnpi & Hch & Hti0)].
  { eexists _, _, _. split; [done|]. by exists live, depth, parent. }
  destruct (Delete_target_inv live depth parent t pi ti f v Hinv) as (c & t' & Ht' & Hinv').
  { right. eauto 10. }
  rewrite Ht'. fields. eauto.
Qed.

(** ** The structural invariant of reachable nodes *)

Lemma reachable_live live depth parent t i :
  inv_with live depth parent t → reachable t i → live i.
Proof.
  intros Hinv Hr. induction Hr as [|i n Hr IH Hn Hl|i n Hr IH Hn Hl].
  - apply (inv_root _ _ _ _ Hinv).
  - by apply (inv_child _ _ _ _ Hinv i n true).
  - by apply (inv_child _ _ _ _ Hinv i n false).
Qed.

Lemma inv_structure_ok t : inv t → structure_ok t.
Proof.
  intros (live & depth & parent & Hinv) i Hr.
  pose proof (reachable_live _ _ _ _ _ Hinv Hr) as Hi.
  destruct (inv_lookup Hinv i Hi) as [n Hn].
  exists n. split; [done|]. split; [|split].
  - intros Hi1. by apply (inv_useful _ _ _ _ Hinv i n).
  - intros Hl.
    destruct (inv_child _ _ _ _ Hinv i n true Hi Hn Hl) as (Hcl & _ & c & Hc & Hb & _).
    exists c. split; [done|].
    rewrite highBit_isLeftBit by (by apply (inv_range _ _ _ _ Hinv _ _ Hcl Hc)).
    by rewrite Hb.
  - intros Hl.
    destruct (inv_child _ _ _ _ Hinv i n false Hi Hn Hl) as (Hcl & _ & c & Hc & Hb & _).
    exists c. split; [done|].
    rewrite highBit_isLeftBit by (by apply (inv_range _ _ _ _ Hinv _ _ Hcl Hc)).
    by rewrite Hb.
Qed.

Lemma run_inv fuel ops :
  32 ≤ fuel → Forall op_ok ops →
  ∀ t, inv t → ∃ t', run fuel t ops = Ok t' ∧ inv t'.
Proof.
  intros Hfuel Hops. induction Hops as [|o ops Ho Hops IH]; intros t Hinv; simpl.
  - eauto.
  - destruct o as [a tag|a f v]; simpl in Ho |- *.
    + destruct (Add_inv fuel t a tag Hinv Ho Hfuel) as (t1 & a1 & -> & Hinv1).
      simpl. by apply IH.
    + destruct (Delete_inv fuel t a f v Hinv Ho Hfuel) as (c & t1 & a1 & -> & Hinv1).
      simpl. by apply IH.
Qed.

(** C2: every sequence of [Add] and [Delete] calls on addresses of length
    at most 32, started on a new tree, runs to the end without a panic, and
    in the tree it leaves every reachable node other than the root has a
    prefix length of at least 1 and a tag or two children, and the stored
    prefix of every left child has high bit 0, that of every right child
    high bit 1. *)
Theorem structure_after_operations (fuel : nat) (ops : list operation) :
  32 ≤ fuel → Forall op_ok ops →
  ∃ t, run fuel NewTreeV4 ops = Ok t ∧ structure_ok t.
Proof.
  intros Hfuel Hops.
  destruct (run_inv fuel ops Hfuel Hops NewTreeV4 inv_NewTreeV4) as (t & Hrun & Hinv).
  exists t. split; [done|]. by apply inv_structure_ok.
Qed.

Lemma example_ops_ok : Forall op_ok example_ops.
Proof.
  unfold example_ops. repeat constructor; simpl; lia.
Defined.

Lemma structure_after_operations_witness :
  32 ≤ 33 ∧ Forall op_ok example_ops ∧
  ∃ t, run 33 NewTreeV4 example_ops = Ok t ∧ structure_ok t.
Proof.
  split; [lia|]. split; [exact example_ops_ok|].
  apply (structure_after_operations 33 example_ops); [lia|exact example_ops_ok].
Defined.

(** ** The tag store *)

Lemma tagKey_small i x :
  index_ok i → (Z.of_nat x < 2 ^ 32)%Z →
  tagKey i x = (Z.of_nat i * 2 ^ 32 + Z.of_nat x)%Z.
Proof.
  unfold index_ok, tagKey. intros Hi Hx.
  rewrite (Z.mod_small (Z.of_nat i * 2 ^ 32)) by lia.
  apply Z.mod_small. lia.
Qed.

Lemma tagKey_inj i j x y :
  index_ok i → index_ok j → (Z.of_nat x < 2 ^ 32)%Z → (Z.of_nat y < 2 ^ 32)%Z →
  tagKey i x = tagKey j y → i = j ∧ x = y.
Proof.
  intros Hi Hj Hx Hy. rewrite !tagKey_small by done.
  unfold index_ok in *. lia.
Qed.

Lemma tagKey_ne i j x y :
  index_ok i → index_ok j → (Z.of_nat x < 2 ^ 32)%Z → (Z.of_nat y < 2 ^ 32)%Z →
  i ≠ j ∨ x ≠ y → tagKey i x ≠ tagKey j y.
Proof.
  intros Hi Hj Hx Hy Hne He.
  destruct (tagKey_inj i j x y Hi Hj Hx Hy He). tauto.
Qed.

Lemma tagsForNode_Ok t i n :
  nodes t !! i = Some n →
  tagsForNode t i = Ok (map (λ k, readTag (tags t) (tagKey i k)) (seq 0 (TagCount n))).
Proof. intros H. unfold tagsForNode. by rewrite (getNode_Some _ _ _ H). Qed.

Lemma node_tags_eq t i n :
  nodes t !! i = Some n →
  node_tags t i = map (λ k, readTag (tags t) (tagKey i k)) (seq 0 (TagCount n)).
Proof. intros H. unfold node_tags. by rewrite (tagsForNode_Ok _ _ _ H). Qed.

Lemma tagsForNode_node_tags t i n :
  nodes t !! i = Some n → tagsForNode t i = Ok (node_tags t i).
Proof. intros H. by rewrite (node_tags_eq _ _ _ H), (tagsForNode_Ok _ _ _ H). Qed.

Lemma length_node_tags t i n :
  nodes t !! i = Some n → length (node_tags t i) = TagCount n.
Proof. intros H. by rewrite (node_tags_eq _ _ _ H), length_map, length_seq. Qed.

(** The tags of a node depend on its tag count and on its own keys. *)
Lemma node_tags_ext t t' i n n' :
  nodes t !! i = Some n → nodes t' !! i = Some n' →
  TagCount n' = TagCount n →
  (∀ k, k < TagCount n → tags t' !! tagKey i k = tags t !! tagKey i k) →
  node_tags t' i = node_tags t i.
Proof.
  intros Hn Hn' Hc Hk.
  rewrite (node_tags_eq _ _ _ Hn), (node_tags_eq _ _ _ Hn'), Hc.
  apply map_ext_in. intros k Hin. apply in_seq in Hin.
  unfold readTag. rewrite Hk by lia. done.
Qed.

(** One more key in the tag store: a node whose slots do not hold the
    key keeps its tags. *)
Lemma node_tags_insert t t' j nj nj' k x tag :
  nodes t !! j = Some nj → nodes t' !! j = Some nj' → TagCount nj' = TagCount nj →
  tags t' = <[tagKey k x := tag]> (tags t) →
  index_ok j → index_ok k → count_ok (TagCount nj) → (Z.of_nat x < 2 ^ 32)%Z →
  j ≠ k ∨ TagCount nj ≤ x →
  node_tags t' j = node_tags t j.
Proof.
  intros Hn Hn' Hc Htags Hj Hk Hcj Hx Hne.
  apply (node_tags_ext t t' j nj nj' Hn Hn' Hc).
  intros y Hy. rewrite Htags. apply lookup_insert_ne.
  unfold count_ok in Hcj. apply tagKey_ne; try done; try lia.
Qed.

(** The key of the next free slot of a node: the tag goes to the end. *)
Lemma node_tags_snoc t t' i n n' tag :
  nodes t !! i = Some n → nodes t' !! i = Some n' → TagCount n' = S (TagCount n) →
  tags t' = <[tagKey i (TagCount n) := tag]> (tags t) →
  index_ok i → (Z.of_nat (TagCount n) < 2 ^ 32)%Z →
  node_tags t' i = node_tags t i ++ [tag].
Proof.
  intros Hn Hn' Hc Htags Hi Hlt.
  rewrite (node_tags_eq _ _ _ Hn), (node_tags_eq _ _ _ Hn'), Hc.
  rewrite seq_S, map_app. cbn [map]. rewrite Htags. f_equal.
  - apply map_ext_in. intros k Hin. apply in_seq in Hin.
    unfold readTag. rewrite lookup_insert_ne; [done|].
    apply tagKey_ne; try done; try lia.
  - simpl. unfold readTag. by rewrite lookup_insert_eq.
Qed.

(** X1: [addTag] appends: the tags of the node become the old ones
    followed by the new tag, and every other node keeps its tags. *)
Theorem addTag_appends (t : TreeV4) (tag : uint16) (i : nat) (n : treeNodeV4) :
  nodes t !! i = Some n → index_ok i → (Z.of_nat (TagCount n) < 2 ^ 32)%Z →
  ∃ t',
    addTag t tag i = Ok t' ∧
    tagsForNode t' i = Ok (node_tags t i ++ [tag]) ∧
    ∀ j nj, j ≠ i → nodes t !! j = Some nj → index_ok j → count_ok (TagCount nj) →
            tagsForNode t' j = tagsForNode t j.
Proof.
  intros Hn Hi Hc. rewrite (addTag_Ok _ _ _ _ Hn).
  set (t' := updNode _ i _).
  assert (Hn' : nodes t' !! i = Some (set_TagCount (S (TagCount n)) n)).
  { unfold t'. by rewrite nodes_updNode_same, nodes_setTags, Hn. }
  assert (Htags : tags t' = <[tagKey i (TagCount n) := tag]> (tags t)).
  { unfold t'. by rewrite tags_updNode, tags_setTags. }
  exists t'. split; [done|]. split.
  - rewrite (tagsForNode_node_tags _ _ _ Hn'). f_equal.
    by apply (node_tags_snoc t t' i n _ tag Hn Hn').
  - intros j nj Hj Hnj Hij Hcj.
    assert (Hnj' : nodes t' !! j = Some nj).
    { unfold t'. by rewrite nodes_updNode_ne, nodes_setTags. }
    rewrite (tagsForNode_node_tags _ _ _ Hnj'), (tagsForNode_node_tags _ _ _ Hnj). f_equal.
    apply (node_tags_insert t t' j nj nj i (TagCount n) tag); try done. by left.
Qed.

Lemma addTag_appends_witness :
  ∃ t',
    addTag example_tree 9%Z 5 = Ok t' ∧
    tagsForNode t' 5 = Ok (node_tags example_tree 5 ++ [9%Z]) ∧
    ∀ j nj, j ≠ 5 → nodes example_tree !! j = Some nj → index_ok j →
            count_ok (TagCount nj) → tagsForNode t' j = tagsForNode example_tree j.
Proof.
  apply (addTag_appends example_tree 9%Z 5 (mkNode 0 0 335544320 15 1)).
  - vm_compute. reflexivity.
  - unfold index_ok. simpl. lia.
  - simpl. lia.
Defined.


(** The deletion loop of [deleteTag] removes the keys of the node and
    nothing else. *)
Lemma foldl_delete_keys (i c : nat) (m : gmap Z uint16) (key : Z) :
  (∀ x, x < c → key ≠ tagKey i x) →
  foldl (λ m x, delete (tagKey i x) m) m (seq 0 c) !! key = m !! key.
Proof.
  induction c as [|c IH]; intros Hk; [done|].
  rewrite seq_S, foldl_app. simpl.
  rewrite lookup_delete_ne by (intros <-; by apply (Hk c); [lia|]).
  apply IH. intros x Hx. apply Hk. lia.
Qed.

Lemma deleteTag_putBack_contents t i n v f tgs :
  nodes t !! i = Some n → index_ok i →
  ∀ c m d k, count_ok (c + length tgs) →
    ∃ m',
      deleteTag_putBack (updNode (set_TagCount c) i (setTags m t)) i v f tgs d k
      = Ok (updNode (set_TagCount (c + length (filter (λ tag, f tag v = false) tgs))) i
                    (setTags m' t),
            d + length (filter (λ tag, f tag v = true) tgs),
            k + length (filter (λ tag, f tag v = false) tgs)) ∧
      (∀ x tag, filter (λ tag, f tag v = false) tgs !! x = Some tag →
                m' !! tagKey i (c + x) = Some tag) ∧
      (∀ key, (∀ x, c ≤ x < c + length tgs → key ≠ tagKey i x) → m' !! key = m !! key).
Proof.
  intros Hn Hi. induction tgs as [|tag tgs IH]; intros c m d k Hc; simpl.
  - exists m. rewrite !Nat.add_0_r. split_and!; [done| |done].
    intros x tag Hx. rewrite filter_nil in Hx. by destruct x.
  - simpl in Hc. unfold count_ok in *.
    destruct (f tag v) eqn:Hf.
    + rewrite (filter_cons_True (λ tag, f tag v = true)) by done.
      rewrite (filter_cons_False (λ tag, f tag v = false)) by (by rewrite Hf).
      destruct (IH c m (S d) k) as (m' & -> & Hk & Hframe); [lia|].
      exists m'. split_and!.
      * simpl. do 3 f_equal. lia.
      * done.
      * intros key Hkey. apply Hframe. intros x Hx. apply Hkey. lia.
    + rewrite (filter_cons_False (λ tag, f tag v = true)) by (by rewrite Hf).
      rewrite (filter_cons_True (λ tag, f tag v = false)) by done.
      rewrite (addTag_Ok _ _ _ (set_TagCount c n)).
      2:{ by rewrite nodes_updNode, decide_True, nodes_setTags, Hn. }
      simpl. rewrite updNode_set_TagCount_twice.
      destruct (IH (S c) (<[tagKey i c := tag]> m) d (S k)) as (m' & -> & Hk & Hframe); [lia|].
      exists m'. split_and!.
      * by rewrite <- !Nat.add_succ_comm.
      * intros [|x] tag' Hx; simpl in Hx.
        -- injection Hx as <-. rewrite Nat.add_0_r, Hframe.
           ++ by rewrite lookup_insert_eq.
           ++ intros x Hx. apply tagKey_ne; try done; try lia.
        -- replace (c + S x) with (S c + x) by lia. by apply Hk.
      * intros key Hkey. rewrite Hframe.
        -- rewrite lookup_insert_ne; [done|]. intros <-. apply (Hkey c); [lia|done].
        -- intros x Hx. apply Hkey. lia.
Qed.

Lemma map_readTag_lookup (m : gmap Z uint16) (i : nat) (l : list uint16) :
  (∀ x tag, l !! x = Some tag → m !! tagKey i x = Some tag) →
  map (λ x, readTag m (tagKey i x)) (seq 0 (length l)) = l.
Proof.
  intros H. apply list_eq. intros x. rewrite list_lookup_fmap.
  destruct (l !! x) as [tag|] eqn:Hx.
  - rewrite lookup_seq_lt by (by eapply lookup_lt_Some). simpl.
    unfold readTag. specialize (H _ _ Hx). unfold uint16 in *. by rewrite H.
  - rewrite lookup_seq_ge; [done|]. by apply lookup_ge_None.
Qed.

Lemma deleteTag_contents (t : TreeV4) (i : nat) (n : treeNodeV4) (v : uint16)
    (f : MatchesFunc) :
  nodes t !! i = Some n → index_ok i → count_ok (TagCount n) →
  let kept := filter (λ tag, f tag v = false) (node_tags t i) in
  let gone := filter (λ tag, f tag v = true) (node_tags t i) in
  ∃ m',
    deleteTag t i v f
    = Ok (updNode (set_TagCount (length kept)) i (setTags m' t), length gone, length kept) ∧
    node_tags (updNode (set_TagCount (length kept)) i (setTags m' t)) i = kept ∧
    ∀ j nj, j ≠ i → nodes t !! j = Some nj → index_ok j → count_ok (TagCount nj) →
            node_tags (updNode (set_TagCount (length kept)) i (setTags m' t)) j
            = node_tags t j.
Proof.
  intros Hn Hi Hc kept gone. unfold deleteTag. rewrite (tagsForNode_node_tags _ _ _ Hn).
  rewrite (getNode_Some _ _ _ Hn). simpl.
  set (m0 := foldl _ _ _).
  destruct (deleteTag_putBack_contents t i n v f (node_tags t i) Hn Hi 0 m0 0 0)
    as (m' & -> & Hk & Hframe).
  { by rewrite (length_node_tags _ _ _ Hn). }
  simpl. exists m'. split; [done|]. fold kept.
  assert (Hn' : nodes (updNode (set_TagCount (length kept)) i (setTags m' t)) !! i
                = Some (set_TagCount (length kept) n)).
  { by rewrite nodes_updNode_same, nodes_setTags, Hn. }
  split.
  - rewrite (node_tags_eq _ _ _ Hn'). cbn [TagCount set_TagCount].
    rewrite tags_updNode, tags_setTags. by apply map_readTag_lookup.
  - intros j nj Hj Hnj Hij Hcj.
    apply (node_tags_ext t _ j nj nj Hnj); [|done|].
    { by rewrite nodes_updNode_ne, nodes_setTags. }
    intros x Hx. rewrite tags_updNode, tags_setTags. rewrite Hframe.
    + unfold m0. apply foldl_delete_keys.
      intros y Hy. unfold count_ok in *. apply tagKey_ne; try done; try lia.
    + intros y Hy. unfold count_ok in *. rewrite (length_node_tags _ _ _ Hn) in Hy.
      apply tagKey_ne; try done; try lia.
Qed.

(** X2: [deleteTag] keeps exactly the tags that [matchFunc] rejects, in
    their order, and returns how many it removed and how many it kept;
    every other node keeps its tags. *)
Theorem deleteTag_filters (t : TreeV4) (i : nat) (n : treeNodeV4) (v : uint16)
    (f : MatchesFunc) :
  nodes t !! i = Some n → index_ok i → count_ok (TagCount n) →
  ∃ t',
    deleteTag t i v f
    = Ok (t', length (filter (λ tag, f tag v = true) (node_tags t i)),
              length (filter (λ tag, f tag v = false) (node_tags t i))) ∧
    tagsForNode t' i = Ok (filter (λ tag, f tag v = false) (node_tags t i)) ∧
    ∀ j nj, j ≠ i → nodes t !! j = Some nj → index_ok j → count_ok (TagCount nj) →
            nodes t' !! j = Some nj ∧ tagsForNode t' j = tagsForNode t j.
Proof.
  intros Hn Hi Hc.
  destruct (deleteTag_contents t i n v f Hn Hi Hc) as (m' & Hdel & Hkept & Hframe).
  eexists. split; [exact Hdel|]. split.
  - erewrite tagsForNode_node_tags; [by rewrite Hkept|].
    by rewrite nodes_updNode_same, nodes_setTags, Hn.
  - intros j nj Hj Hnj Hij Hcj.
    assert (Hnj' : nodes (updNode (set_TagCount (length (filter (λ tag, f tag v = false)
                            (node_tags t i)))) i (setTags m' t)) !! j = Some nj).
    { by rewrite nodes_updNode_ne, nodes_setTags. }
    split; [done|].
    rewrite (tagsForNode_node_tags _ _ _ Hnj'), (tagsForNode_node_tags _ _ _ Hnj).
    f_equal. by apply (Hframe j nj).
Qed.

Lemma deleteTag_filters_witness :
  ∃ t',
    deleteTag example_tree 5 3%Z matchEq
    = Ok (t', length (filter (λ tag, matchEq tag 3%Z = true) (node_tags example_tree 5)),
              length (filter (λ tag, matchEq tag 3%Z = false) (node_tags example_tree 5))) ∧
    tagsForNode t' 5
    = Ok (filter (λ tag, matchEq tag 3%Z = false) (node_tags example_tree 5)) ∧
    ∀ j nj, j ≠ 5 → nodes example_tree !! j = Some nj → index_ok j →
            count_ok (TagCount nj) →
            nodes t' !! j = Some nj ∧ tagsForNode t' j = tagsForNode example_tree j.
Proof.
  apply (deleteTag_filters example_tree 5 (mkNode 0 0 335544320 15 1) 3%Z matchEq).
  - vm_compute. reflexivity.
  - unfold index_ok. simpl. lia.
  - unfold count_ok. simpl. lia.
Defined.


(** The copy loop of [moveTags]: the first [c] slots of [fromIndex] now
    sit at the same slots of [toIndex], the source keys are gone and every
    other key is untouched. *)
Lemma foldl_moveTags_step (fromIndex toIndex c : nat) (m : gmap Z uint16) :
  fromIndex ≠ toIndex → index_ok fromIndex → index_ok toIndex → count_ok c →
  let m' := foldl (moveTags_step fromIndex toIndex) m (seq 0 c) in
  (∀ x, x < c → m' !! tagKey toIndex x = Some (readTag m (tagKey fromIndex x))) ∧
  (∀ x, x < c → m' !! tagKey fromIndex x = None) ∧
  (∀ key, (∀ x, x < c → key ≠ tagKey fromIndex x ∧ key ≠ tagKey toIndex x) →
          m' !! key = m !! key).
Proof.
  intros Hne Hf Ht. unfold count_ok. induction c as [|c IH]; intros Hc.
  { simpl. split_and!; [lia|lia|done]. }
  cbv zeta in *.
  destruct IH as (IH1 & IH2 & IH3); [lia|].
  rewrite seq_S, foldl_app. simpl. unfold moveTags_step at 1 3 5.
  set (mc := foldl _ m (seq 0 c)) in *.
  assert (Hread : readTag mc (tagKey fromIndex c) = readTag m (tagKey fromIndex c)).
  { unfold readTag. f_equal. apply IH3. intros x Hx.
    split; apply tagKey_ne; try done; try lia. }
  rewrite Hread. split_and!.
  - intros x Hx. rewrite lookup_delete_ne by (apply tagKey_ne; try done; try lia).
    destruct (decide (x = c)) as [->|Hxc].
    + by rewrite lookup_insert_eq.
    + rewrite lookup_insert_ne by (apply tagKey_ne; try done; try lia).
      apply IH1. lia.
  - intros x Hx. destruct (decide (x = c)) as [->|Hxc].
    + by rewrite lookup_delete_eq.
    + rewrite lookup_delete_ne by (apply tagKey_ne; try done; try lia).
      rewrite lookup_insert_ne by (apply tagKey_ne; try done; try lia).
      apply IH2. lia.
  - intros key Hkey.
    rewrite lookup_delete_ne by (intros <-; by destruct (Hkey c); [lia|]).
    rewrite lookup_insert_ne by (intros <-; by destruct (Hkey c); [lia|]).
    apply IH3. intros x Hx. apply Hkey. lia.
Qed.

(** X3: on a target without tags, which is how [Delete] calls it,
    [moveTags] gives the target the tags of the source in their order,
    leaves the source without tags, and changes no other node. *)
Theorem moveTags_onto_empty (t : TreeV4) (fromIndex toIndex : nat)
    (nf nt : treeNodeV4) :
  nodes t !! fromIndex = Some nf → nodes t !! toIndex = Some nt →
  fromIndex ≠ toIndex → TagCount nt = 0 →
  index_ok fromIndex → index_ok toIndex → count_ok (TagCount nf) →
  moveTags_appends t fromIndex toIndex ∧
  ∃ t', moveTags t fromIndex toIndex = Ok t' ∧
    ∀ j nj, j ≠ fromIndex → j ≠ toIndex → nodes t !! j = Some nj →
            index_ok j → count_ok (TagCount nj) →
            nodes t' !! j = Some nj ∧ tagsForNode t' j = tagsForNode t j.
Proof.
  intros Hnf Hnt Hne Hz Hf Ht Hc.
  destruct (foldl_moveTags_step fromIndex toIndex (TagCount nf) (tags t) Hne Hf Ht Hc)
    as (H1 & H2 & H3).
  set (m' := foldl _ _ _) in *.
  assert (Hmv : moveTags t fromIndex toIndex
                = Ok (updNode (set_TagCount 0) fromIndex
                        (updNode (set_TagCount (TagCount nt + TagCount nf)) toIndex
                           (setTags m' t)))).
  { unfold moveTags. rewrite (getNode_Some _ _ _ Hnf). simpl.
    rewrite (getNode_Some _ toIndex nt) by (by rewrite nodes_setTags). simpl.
    rewrite (getNode_Some _ fromIndex nf) by (by rewrite nodes_setTags). done. }
  split.
  - eexists _, (set_TagCount 0 nf). split; [exact Hmv|]. split_and!.
    + rewrite (tagsForNode_Ok _ _ (set_TagCount (TagCount nt + TagCount nf) nt)).
      2:{ by rewrite nodes_updNode_ne, nodes_updNode_same, nodes_setTags, Hnt. }
      f_equal. rewrite (node_tags_eq _ _ _ Hnf), (node_tags_eq _ _ _ Hnt), Hz.
      cbn [TagCount set_TagCount seq map app].
      apply map_ext_in. intros x Hin. apply in_seq in Hin.
      rewrite !tags_updNode, tags_setTags. unfold readTag at 1.
      rewrite H1 by lia. done.
    + by rewrite nodes_updNode_same, nodes_updNode_ne, nodes_setTags, Hnf.
    + done.
  - eexists. split; [exact Hmv|].
    intros j nj Hjf Hjt Hnj Hj Hcj.
    assert (Hnj' : nodes (updNode (set_TagCount 0) fromIndex
                        (updNode (set_TagCount (TagCount nt + TagCount nf)) toIndex
                           (setTags m' t))) !! j = Some nj).
    { by rewrite !nodes_updNode_ne, nodes_setTags. }
    split; [done|].
    rewrite (tagsForNode_Ok _ _ _ Hnj'), (tagsForNode_Ok _ _ _ Hnj). f_equal.
    apply map_ext_in. intros x Hin. apply in_seq in Hin.
    rewrite !tags_updNode, tags_setTags. unfold readTag. f_equal.
    apply H3. intros y Hy. unfold count_ok in *.
    split; apply tagKey_ne; try done; try lia.
Qed.

Lemma moveTags_onto_empty_witness :
  moveTags_appends example_tree 4 3 ∧
  ∃ t', moveTags example_tree 4 3 = Ok t' ∧
    ∀ j nj, j ≠ 4 → j ≠ 3 → nodes example_tree !! j = Some nj →
            index_ok j → count_ok (TagCount nj) →
            nodes t' !! j = Some nj ∧ tagsForNode t' j = tagsForNode example_tree j.
Proof.
  apply (moveTags_onto_empty example_tree 4 3 (mkNode 0 0 2147483648 1 1)
           (mkNode 5 4 1073741824 1 0)).
  - vm_compute. reflexivity.
  - vm_compute. reflexivity.
  - lia.
  - reflexivity.
  - unfold index_ok. simpl. lia.
  - unfold index_ok. simpl. lia.
  - unfold count_ok. simpl. lia.
Defined.


(** ** Filtered lookups *)

Lemma FindTagsWithFilter_loop_filter (f : FilterFunc) (t : TreeV4) (fuel : nat) :
  ∀ i a ret,
    FindTagsWithFilter_loop fuel t i a f (filter (λ tag, f tag = true) ret)
    = result_map (λ r, (filter (λ tag, f tag = true) r.1, r.2))
                 (FindTags_loop fuel t i a ret).
Proof.
  induction fuel as [|fuel IH]; intros i a ret; [reflexivity|].
  cbn [FindTagsWithFilter_loop FindTags_loop].
  destruct (i =? 0); [reflexivity|].
  destruct (getNode t i) as [node| |]; [|reflexivity..].
  cbn [mbind result_mbind result_bind].
  destruct (MatchCount node a <? prefixLength node); [reflexivity|].
  destruct (if 0 <? TagCount node then tagsForNode t i else Ok []) as [tgs| |]; [|reflexivity..].
  cbn [mbind result_mbind result_bind]. rewrite <- filter_app.
  destruct (MatchCount node a =? Length a); [reflexivity|].
  apply IH.
Qed.

(** X4: with a filter, [FindTagsWithFilter] returns the tags [FindTags]
    returns that pass the filter, in the same order, and fails exactly
    when [FindTags] fails. *)
Theorem FindTagsWithFilter_filters (fuel : nat) (t : TreeV4)
    (address : option IPv4Address) (f : FilterFunc) :
  FindTagsWithFilter fuel t address (Some f)
  = result_map (λ r, (filter (λ tag, f tag = true) r.1, r.2))
               (FindTags fuel t address).
Proof.
  unfold FindTagsWithFilter, FindTags.
  destruct (getNode t 1) as [root| |]; [|reflexivity..].
  cbn [mbind result_mbind result_bind].
  destruct (if 0 <? TagCount root then tagsForNode t 1 else Ok []) as [tgs| |]; [|reflexivity..].
  cbn [mbind result_mbind result_bind].
  destruct address as [a|]; [|done].
  destruct (Length a =? 0); [reflexivity|].
  rewrite FindTagsWithFilter_loop_filter.
  destruct (FindTags_loop _ _ _ _ _) as [[ret a']| |]; reflexivity.
Qed.

(** ** Trees built by the operations keep the arena invariant *)

Lemma built_inv t : built t → inv t.
Proof.
  intros (fuel & ops & Hfuel & Hops & Hrun).
  destruct (run_inv fuel ops Hfuel Hops NewTreeV4 inv_NewTreeV4) as (t' & Hrun' & Hinv).
  congruence.
Qed.

Lemma example_tree_built : built example_tree.
Proof.
  exists 32, example_ops. split; [lia|]. split; [exact example_ops_ok|].
  vm_compute. reflexivity.
Defined.

(** X5: in a tree built by [Add] and [Delete] the free list has no
    duplicates and every index on it is a slot of the arena other than 0
    and the root that cannot be reached from the root. *)
Theorem free_list_apart_from_tree (t : TreeV4) :
  built t →
  NoDup (availableIndexes t) ∧
  ∀ i, i ∈ availableIndexes t → 2 ≤ i < length (nodes t) ∧ ¬ reachable t i.
Proof.
  intros Hb. destruct (built_inv t Hb) as (live & depth & parent & Hinv).
  split; [apply (inv_free_nodup _ _ _ _ Hinv)|].
  intros i Hi. destruct (inv_free _ _ _ _ Hinv i Hi) as [Hnl Hr].
  split; [done|]. intros Hreach. apply Hnl. by eapply reachable_live.
Qed.

Lemma free_list_apart_from_tree_witness :
  NoDup (availableIndexes example_tree) ∧
  ∀ i, i ∈ availableIndexes example_tree →
       2 ≤ i < length (nodes example_tree) ∧ ¬ reachable example_tree i.
Proof. exact (free_list_apart_from_tree example_tree example_tree_built). Defined.

(** X6: in a tree built by [Add] and [Delete] a node has one place: two
    child pointers of reachable nodes that are not nil and equal are the
    same pointer of the same node, and no child pointer leads to the root
    or back to its own node. *)
Theorem child_pointers_are_unique (t : TreeV4) (i j : nat) (ni nj : treeNodeV4)
    (s s' : bool) :
  built t →
  reachable t i → reachable t j →
  nodes t !! i = Some ni → nodes t !! j = Some nj →
  child s ni ≠ 0 → child s ni = child s' nj →
  i = j ∧ s = s' ∧ child s ni ≠ 1 ∧ child s ni ≠ i.
Proof.
  intros Hb Hi Hj Hni Hnj Hc He.
  destruct (built_inv t Hb) as (live & depth & parent & Hinv).
  pose proof (reachable_live _ _ _ _ _ Hinv Hi) as Hli.
  pose proof (reachable_live _ _ _ _ _ Hinv Hj) as Hlj.
  assert (Hc' : child s' nj ≠ 0) by congruence.
  destruct (inv_child _ _ _ _ Hinv i ni s Hli Hni Hc) as (_ & Hp & _).
  destruct (inv_child _ _ _ _ Hinv j nj s' Hlj Hnj Hc') as (_ & Hp' & _).
  assert (Hij : i = j) by congruence. subst j.
  assert (nj = ni) by congruence. subst nj.
  split; [done|]. split_and!.
  - destruct (decide (s = s')) as [|Hs]; [done|].
    by destruct (inv_sides_ne _ _ _ _ i ni s s' Hinv Hli Hni Hc Hs).
  - by apply (inv_child_not_root Hinv i ni s).
  - by apply (inv_child_ne Hinv i ni s).
Qed.

Lemma child_pointers_are_unique_witness :
  1 = 1 ∧ true = true ∧ child true (mkNode 3 0 0 0 1) ≠ 1 ∧ child true (mkNode 3 0 0 0 1) ≠ 1.
Proof.
  apply (child_pointers_are_unique example_tree 1 1 (mkNode 3 0 0 0 1) (mkNode 3 0 0 0 1)
           true true example_tree_built).
  - apply reachable_root.
  - apply reachable_root.
  - vm_compute. reflexivity.
  - vm_compute. reflexivity.
  - simpl. lia.
  - reflexivity.
Defined.

(** X7: in a tree built by [Add] and [Delete], [newNode] does not fail
    and returns an index, other than 0 and the root, that no pointer
    path from the root reaches; the node it writes has the given prefix,
    no children and no tags, and every other node and the tag store are
    as before. *)
Theorem newNode_returns_unused_index (t : TreeV4) (pfx : Z) (pfxLength : nat) :
  built t →
  ∃ t' index,
    newNode t pfx pfxLength = Ok (t', index) ∧
    2 ≤ index ∧ ¬ reachable t index ∧
    nodes t' !! index = Some (mkNode 0 0 pfx pfxLength 0) ∧
    (∀ j, j ≠ index → nodes t' !! j = nodes t !! j) ∧
    tags t' = tags t.
Proof.
  intros Hb. destruct (built_inv t Hb) as (live & depth & parent & Hinv).
  destruct (newNode_spec live t pfx pfxLength (alloc_ok_inv _ _ _ _ Hinv))
    as (t' & k & Hnew & Hnl & Hk & Hnk & Hframe & Htags & _).
  exists t', k. split_and!; try done; [lia|].
  intros Hr. apply Hnl. by eapply reachable_live.
Qed.

Lemma newNode_returns_unused_index_witness :
  ∃ t' index,
    newNode example_tree 5%Z 3 = Ok (t', index) ∧
    2 ≤ index ∧ ¬ reachable example_tree index ∧
    nodes t' !! index = Some (mkNode 0 0 5%Z 3 0) ∧
    (∀ j, j ≠ index → nodes t' !! j = nodes example_tree !! j) ∧
    tags t' = tags example_tree.
Proof. exact (newNode_returns_unused_index example_tree 5%Z 3 example_tree_built). Defined.

(** ** Lookups follow the matching path *)

Lemma length_prefix_bits n : prefixLength n ≤ 32 → length (prefix_bits n) = prefixLength n.
Proof. intros H. unfold prefix_bits. rewrite length_take, length_bits32. lia. Qed.

Lemma length_address_bits a : Length a ≤ 32 → length (address_bits a) = Length a.
Proof. intros H. unfold address_bits. rewrite length_take, length_bits32. lia. Qed.

Lemma is_prefix_app acc xs ab :
  take (length acc) ab = acc →
  is_prefix (acc ++ xs) ab = is_prefix xs (drop (length acc) ab).
Proof.
  revert ab. induction acc as [|x acc IH]; intros [|y ab]; simpl; try done.
  intros [= -> Ht]. rewrite Bool.eqb_reflx. simpl. by apply IH.
Qed.

Lemma MatchCount_full n a :
  prefixLength n ≤ 32 →
  (MatchCount n a <? prefixLength n) = negb (is_prefix (prefix_bits n) (address_bits a)).
Proof.
  intros Hn. pose proof (is_prefix_spec (prefix_bits n) (address_bits a)) as Hs.
  rewrite (length_prefix_bits n Hn) in Hs.
  change (common_prefix_length (prefix_bits n) (address_bits a)) with (MatchCount n a) in Hs.
  destruct (MatchCount_le n a) as [Hle _].
  destruct (is_prefix (prefix_bits n) (address_bits a)); simpl.
  - apply Nat.ltb_ge. destruct Hs as [Hs _]. rewrite Hs; done.
  - apply Nat.ltb_lt. destruct (decide (MatchCount n a = prefixLength n)) as [He|]; [|lia].
    destruct Hs as [_ Hs]. by specialize (Hs He).
Qed.

Lemma address_bits_head a :
  (0 ≤ Address a < 2 ^ 32)%Z → 1 ≤ Length a →
  head (address_bits a) = Some (negb (isLeftBit (Address a))).
Proof.
  intros Hr Hl. unfold address_bits. destruct (bits32_head (Address a)) as [bs ->].
  destruct (Length a) as [|l]; [lia|]. simpl.
  by rewrite isLeftBit_bit32, negb_involutive.
Qed.

(** The tags a lookup collects at a node it matched in full. *)
Lemma tags_if_any t i n :
  nodes t !! i = Some n →
  (if 0 <? TagCount n then tagsForNode t i else Ok []) = Ok (node_tags t i).
Proof.
  intros Hn. rewrite (tagsForNode_node_tags _ _ _ Hn).
  destruct (Nat.ltb_spec 0 (TagCount n)) as [|Hz]; [done|].
  rewrite (node_tags_eq _ _ _ Hn). by replace (TagCount n) with 0 by lia.
Qed.

Lemma firstTagForNode_head t i n :
  nodes t !! i = Some n →
  head (node_tags t i) = if 0 <? TagCount n then Some (firstTagForNode t i) else None.
Proof.
  intros Hn. rewrite (node_tags_eq _ _ _ Hn).
  destruct (TagCount n) as [|c]; done.
Qed.


Lemma lookup_step live depth parent t ab p i a acc :
  inv_with live depth parent t → at_path live t ab p i a acc → i ≠ 0 →
  ∃ n next,
    nodes t !! i = Some n ∧ path_step t ab i a acc n next ∧
    ∀ i' a', next = Some (i', a') →
             at_path live t ab i i' a' (acc ++ prefix_bits n) ∧ Length a' < Length a.
Proof.
  intros Hinv [(np & s & Hp & Hnp & Hch) Hlen Hr Hrest Hdone] Hi.
  destruct (inv_at_child _ _ _ _ _ _ _ _ Hinv Hp Hnp Hch Hi)
    as (Hli & _ & _ & _ & n & Hn & _ & Hpl1 & _ & Hd).
  pose proof (inv_depth _ _ _ _ Hinv i Hli) as Hd32.
  assert (Hpl : prefixLength n ≤ 32) by lia.
  pose proof (MatchCount_full n a Hpl) as Hfull.
  pose proof (is_prefix_app acc (prefix_bits n) ab Hdone) as Happ.
  rewrite <- Hrest in Happ.
  destruct (MatchCount_le n a) as [Hmn Hma].
  pose proof (length_address_bits a ltac:(lia)) as Hla.
  rewrite Hrest, length_drop in Hla.
  assert (Hlacc : length (acc ++ prefix_bits n) = length acc + prefixLength n).
  { by rewrite length_app, length_prefix_bits. }
  exists n.
  destruct (is_prefix (prefix_bits n) (address_bits a)) eqn:Hpre; simpl in Hfull.
  2:{ exists None. split; [done|]. split; [|done].
      apply step_short; [by apply Nat.ltb_lt|done|done]. }
  apply Nat.ltb_ge in Hfull.
  assert (Hmc : MatchCount n a = prefixLength n) by lia.
  destruct (decide (MatchCount n a = Length a)) as [He|Hne].
  { exists None. split; [done|]. split; [|done].
    apply step_exact; try done. apply lookup_ge_None. rewrite Hlacc. lia. }
  destruct (ShiftLeft_ok a (MatchCount n a)) as (Hr' & Hl' & Hl1'); [lia..|].
  pose proof (address_bits_ShiftLeft a (MatchCount n a) ltac:(lia) Hma) as Hsh.
  rewrite Hrest, drop_drop in Hsh.
  replace (length acc + MatchCount n a) with (length (acc ++ prefix_bits n)) in Hsh by lia.
  pose proof (address_bits_head _ Hr' ltac:(lia)) as Hhead.
  rewrite Hsh, head_lookup, lookup_drop, Nat.add_0_r in Hhead.
  set (b := negb (isLeftBit (Address (ShiftLeft a (MatchCount n a))))) in *.
  exists (Some (child (negb b) n, ShiftLeft a (MatchCount n a))).
  split; [done|]. split.
  - apply (step_down _ _ _ _ _ _ _ b); try done; [lia|].
    unfold b. by rewrite negb_involutive.
  - intros i' a' [= <- <-]. split; [|lia].
    split; try done; [by exists n, (negb b)|].
    by apply is_prefix_take.
Qed.

(** The nodes [matching_path] lists from a loop state. *)
Lemma matching_path_step t ab i a acc n next fuel :
  i ≠ 0 → nodes t !! i = Some n → path_step t ab i a acc n next →
  matching_path (S fuel) t i acc ab
  = match next with
    | None => if MatchCount n a <? prefixLength n then [] else [i]
    | Some (i', _) => i :: matching_path fuel t i' (acc ++ prefix_bits n) ab
    end.
Proof.
  intros Hi Hn Hstep. simpl. rewrite (eqb_false_of _ _ Hi), Hn.
  destruct Hstep as [Hlt Hpre ->|He1 He2 Hpre Hnone ->|b He1 Hlt Hpre Hsome Hbit ->].
  - rewrite Hpre. by apply Nat.ltb_lt in Hlt as ->.
  - rewrite Hpre, Hnone. replace (MatchCount n a <? prefixLength n) with false; [done|].
    symmetry. apply Nat.ltb_ge. lia.
  - rewrite Hpre, Hsome. by destruct b.
Qed.

Lemma FindTags_loop_path live depth parent t ab :
  inv_with live depth parent t →
  ∀ fuel fuel' p i a acc ret,
    at_path live t ab p i a acc → Length a ≤ fuel → Length a ≤ fuel' →
    ∃ a', FindTags_loop fuel t i a ret
          = Ok (ret ++ concat (map (node_tags t) (matching_path fuel' t i acc ab)), a').
Proof.
  intros Hinv. induction fuel as [|fuel IH]; intros fuel' p i a acc ret Hat Hf Hf'.
  { destruct Hat. lia. }
  destruct fuel' as [|fuel']; [destruct Hat; lia|].
  destruct (decide (i = 0)) as [->|Hi].
  { exists a. simpl. by rewrite app_nil_r. }
  destruct (lookup_step _ _ _ _ _ _ _ _ _ Hinv Hat Hi) as (n & next & Hn & Hstep & Hnext).
  rewrite (matching_path_step _ _ _ _ _ _ _ _ Hi Hn Hstep).
  cbn [FindTags_loop]. rewrite (eqb_false_of _ _ Hi), (getNode_Some _ _ _ Hn).
  cbn [mbind result_mbind result_bind].
  destruct Hstep as [Hlt Hpre ->|He1 He2 Hpre Hnone ->|b He1 Hlt Hpre Hsome Hbit ->].
  - apply Nat.ltb_lt in Hlt as ->. exists a. simpl. by rewrite app_nil_r.
  - replace (MatchCount n a <? prefixLength n) with false
      by (symmetry; apply Nat.ltb_ge; lia).
    rewrite (tags_if_any _ _ _ Hn). cbn [mbind result_mbind result_bind].
    rewrite (eqb_true_of _ _ He2). exists a. simpl. by rewrite app_nil_r.
  - replace (MatchCount n a <? prefixLength n) with false
      by (symmetry; apply Nat.ltb_ge; lia).
    rewrite (tags_if_any _ _ _ Hn). cbn [mbind result_mbind result_bind].
    rewrite (eqb_false_of (MatchCount n a) (Length a)) by lia.
    destruct (Hnext _ _ eq_refl) as [Hat' Hlen'].
    destruct (IH fuel' i (child (negb b) n) (ShiftLeft a (MatchCount n a))
                (acc ++ prefix_bits n) (ret ++ node_tags t i) Hat') as (a' & Ha'); [lia..|].
    exists a'. rewrite Hbit. replace (if negb b then Left n else Right n)
      with (child (negb b) n) by done.
    rewrite Ha'. simpl. by rewrite app_assoc.
Qed.

(** The loop state at the child of the root. *)
Lemma at_path_root live depth parent t root a :
  inv_with live depth parent t → nodes t !! 1 = Some root →
  addr_ok a → 1 ≤ Length a →
  at_path live t (address_bits a) 1
          (if isLeftBit (Address a) then Left root else Right root) a [] ∧
  ∃ bs, address_bits a = negb (isLeftBit (Address a)) :: bs.
Proof.
  intros Hinv Hroot [Hr Hl] Hl1. split.
  - split; try done; try lia.
    exists root, (isLeftBit (Address a)). by split; [apply (inv_root _ _ _ _ Hinv)|].
  - pose proof (address_bits_head a Hr Hl1) as Hh.
    destruct (address_bits a) as [|b bs]; [done|]. injection Hh as ->. by exists bs.
Qed.

Lemma matching_nodes_below_root t a root bs :
  nodes t !! 1 = Some root →
  address_bits a = negb (isLeftBit (Address a)) :: bs →
  matching_nodes t (Some a)
  = 1 :: matching_path (Length a) t
           (if isLeftBit (Address a) then Left root else Right root) [] (address_bits a).
Proof.
  intros Hroot Hbits. unfold matching_nodes. rewrite Hroot, Hbits.
  by destruct (isLeftBit (Address a)).
Qed.

Lemma matching_nodes_root_only t a :
  Length a = 0 → matching_nodes t (Some a) = [1].
Proof.
  intros Hl. unfold matching_nodes, address_bits. rewrite Hl. simpl.
  by destruct (nodes t !! 1).
Qed.

Lemma FindTags_path fuel t address :
  inv t → oaddr_ok address → 32 ≤ fuel →
  ∃ address',
    FindTags fuel t address
    = Ok (concat (map (node_tags t) (matching_nodes t address)), address').
Proof.
  intros (live & depth & parent & Hinv) Hok Hfuel.
  destruct (inv_lookup Hinv 1 (inv_root _ _ _ _ Hinv)) as [root Hroot].
  unfold FindTags. rewrite (getNode_Some _ _ _ Hroot).
  cbn [mbind result_mbind result_bind].
  rewrite (tags_if_any _ _ _ Hroot). cbn [mbind result_mbind result_bind].
  destruct address as [a|].
  2:{ exists None. unfold matching_nodes. simpl. by rewrite app_nil_r. }
  destruct (decide (Length a = 0)) as [Hz|Hz].
  { rewrite (eqb_true_of _ _ Hz), (matching_nodes_root_only _ _ Hz).
    exists (Some a). simpl. by rewrite app_nil_r. }
  rewrite (eqb_false_of _ _ Hz).
  destruct (at_path_root _ _ _ _ root a Hinv Hroot Hok ltac:(lia)) as [Hat [bs Hbits]].
  rewrite (matching_nodes_below_root _ _ _ _ Hroot Hbits).
  destruct Hok as [_ Hl].
  destruct (FindTags_loop_path _ _ _ _ _ Hinv fuel (Length a) 1 _ a [] (node_tags t 1) Hat)
    as (a' & ->); [lia..|].
  by exists (Some a').
Qed.

(** X8: on a tree built by [Add] and [Delete], [FindTags] returns the
    tags of the root followed by the tags of the nodes whose accumulated
    prefix is a prefix of the address, from the shortest prefix to the
    longest, each node's tags in the order of their insertion. *)
Theorem FindTags_collects_matching_path (fuel : nat) (t : TreeV4)
    (address : option IPv4Address) :
  built t → oaddr_ok address → 32 ≤ fuel →
  ∃ address',
    FindTags fuel t address
    = Ok (concat (map (node_tags t) (matching_nodes t address)), address').
Proof. intros Hb. apply FindTags_path. by apply built_inv. Qed.

Lemma FindTags_collects_matching_path_witness :
  ∃ address',
    FindTags 32 example_tree (cidr 10 0 0 0 16)
    = Ok (concat (map (node_tags example_tree)
                      (matching_nodes example_tree (cidr 10 0 0 0 16))), address').
Proof.
  apply (FindTags_collects_matching_path 32 example_tree (cidr 10 0 0 0 16)
           example_tree_built).
  - split; simpl; lia.
  - lia.
Defined.

Lemma FindDeepestTag_loop_path live depth parent t ab :
  inv_with live depth parent t →
  ∀ fuel fuel' p i a acc found ret,
    at_path live t ab p i a acc → Length a ≤ fuel → Length a ≤ fuel' →
    ∃ found' ret' a',
      FindDeepestTag_loop fuel t i a found ret = Ok (found', ret', a') ∧
      match last (omap (λ j, head (node_tags t j)) (matching_path fuel' t i acc ab)) with
      | Some tag => found' = true ∧ ret' = tag
      | None => found' = found ∧ ret' = ret
      end.
Proof.
  intros Hinv. induction fuel as [|fuel IH]; intros fuel' p i a acc found ret Hat Hf Hf'.
  { destruct Hat. lia. }
  destruct fuel' as [|fuel']; [destruct Hat; lia|].
  destruct (decide (i = 0)) as [->|Hi].
  { by exists found, ret, a. }
  destruct (lookup_step _ _ _ _ _ _ _ _ _ Hinv Hat Hi) as (n & next & Hn & Hstep & Hnext).
  rewrite (matching_path_step _ _ _ _ _ _ _ _ Hi Hn Hstep).
  cbn [FindDeepestTag_loop]. rewrite (eqb_false_of _ _ Hi), (getNode_Some _ _ _ Hn).
  cbn [mbind result_mbind result_bind].
  pose proof (firstTagForNode_head t i n Hn) as Hhead.
  destruct Hstep as [Hlt Hpre ->|He1 He2 Hpre Hnone ->|b He1 Hlt Hpre Hsome Hbit ->].
  - apply Nat.ltb_lt in Hlt as ->. by exists found, ret, a.
  - replace (MatchCount n a <? prefixLength n) with false
      by (symmetry; apply Nat.ltb_ge; lia).
    cbn [omap list_omap]. rewrite Hhead.
    destruct (0 <? TagCount n); rewrite (eqb_true_of _ _ He2); by eexists _, _, _.
  - replace (MatchCount n a <? prefixLength n) with false
      by (symmetry; apply Nat.ltb_ge; lia).
    destruct (Hnext _ _ eq_refl) as [Hat' Hlen'].
    cbn [omap list_omap]. rewrite Hhead.
    destruct (0 <? TagCount n);
      rewrite (eqb_false_of (MatchCount n a) (Length a)) by lia;
      rewrite Hbit;
      replace (if negb b then Left n else Right n) with (child (negb b) n) by done.
    + destruct (IH fuel' i (child (negb b) n) (ShiftLeft a (MatchCount n a))
                  (acc ++ prefix_bits n) true (firstTagForNode t i) Hat')
        as (found' & ret' & a' & -> & Hres); [lia..|].
      exists found', ret', a'. split; [done|]. rewrite last_cons.
      by destruct (last _).
    + destruct (IH fuel' i (child (negb b) n) (ShiftLeft a (MatchCount n a))
                  (acc ++ prefix_bits n) found ret Hat')
        as (found' & ret' & a' & -> & Hres); [lia..|].
      by exists found', ret', a'.
Qed.

(** X9: on a tree built by [Add] and [Delete], [FindDeepestTag] finds a
    tag exactly when a node on the matching path has one, and the tag it
    returns is the first tag of the deepest such node. *)
Theorem FindDeepestTag_first_tag_of_deepest (fuel : nat) (t : TreeV4) (a : IPv4Address) :
  built t → addr_ok a → 32 ≤ fuel →
  ∃ found tag a',
    FindDeepestTag fuel t (Some a) = Ok (found, tag, Some a') ∧
    deepest_tag t (matching_nodes t (Some a)) = (if found then Some tag else None).
Proof.
  intros Hb Hok Hfuel. destruct (built_inv t Hb) as (live & depth & parent & Hinv).
  destruct (inv_lookup Hinv 1 (inv_root _ _ _ _ Hinv)) as [root Hroot].
  unfold FindDeepestTag, deepest_tag. rewrite (getNode_Some _ _ _ Hroot).
  cbn [mbind result_mbind result_bind].
  pose proof (firstTagForNode_head t 1 root Hroot) as Hhead.
  destruct (decide (Length a = 0)) as [Hz|Hz].
  { rewrite (matching_nodes_root_only _ _ Hz). cbn [omap list_omap]. rewrite Hhead.
    destruct (0 <? TagCount root); rewrite (eqb_true_of _ _ Hz); by eexists _, _, _. }
  destruct (at_path_root _ _ _ _ root a Hinv Hroot Hok ltac:(lia)) as [Hat [bs Hbits]].
  rewrite (matching_nodes_below_root _ _ _ _ Hroot Hbits).
  destruct Hok as [_ Hl]. cbn [omap list_omap]. rewrite Hhead.
  destruct (0 <? TagCount root); rewrite (eqb_false_of _ _ Hz).
  - destruct (FindDeepestTag_loop_path _ _ _ _ _ Hinv fuel (Length a) 1 _ a [] true
                (firstTagForNode t 1) Hat) as (found' & ret' & a' & -> & Hres); [lia..|].
    exists found', ret', a'. split; [done|]. rewrite last_cons.
    destruct (last _); by destruct Hres as [-> ->].
  - destruct (FindDeepestTag_loop_path _ _ _ _ _ Hinv fuel (Length a) 1 _ a [] false
                0%Z Hat) as (found' & ret' & a' & -> & Hres); [lia..|].
    exists found', ret', a'. split; [done|].
    destruct (last _); by destruct Hres as [-> ->].
Qed.

Lemma FindDeepestTag_first_tag_of_deepest_witness :
  ∃ found tag a',
    FindDeepestTag 32 example_tree (Some (mkAddr 167772160 16)) = Ok (found, tag, Some a') ∧
    deepest_tag example_tree (matching_nodes example_tree (Some (mkAddr 167772160 16)))
    = (if found then Some tag else None).
Proof.
  apply (FindDeepestTag_first_tag_of_deepest 32 example_tree (mkAddr 167772160 16)
           example_tree_built).
  - split; simpl; lia.
  - lia.
Defined.

(** ** Delete *)

Lemma Delete_loop_absent t i a :
  absent t i a →
  ∃ k a', ∀ fuel p, k ≤ fuel → Delete_loop fuel t p i a = Ok (None, a').
Proof.
  induction 1 as [a|i n a Hi Hn Hlt|i n a Hi Hn Hge Hne _ (k & a' & IH)].
  - exists 1, a. intros [|fuel] p Hf; [lia|]. done.
  - exists 1, a. intros [|fuel] p Hf; [lia|]. simpl.
    rewrite (eqb_false_of _ _ Hi), (getNode_Some _ _ _ Hn). simpl.
    by apply Nat.ltb_lt in Hlt as ->.
  - exists (S k), a'. intros [|fuel] p Hf; [lia|]. simpl.
    rewrite (eqb_false_of _ _ Hi), (getNode_Some _ _ _ Hn). simpl.
    apply Nat.ltb_ge in Hge as ->. rewrite (eqb_false_of _ _ Hne).
    specialize (IH fuel i ltac:(lia)). unfold child_for, child in IH.
    simpl in IH. by destruct (isLeftBit _).
Qed.

(** X10: [Delete] of an address that is not in the tree, because the
    traversal comes to a nil child or to a node whose prefix the address
    does not match in full, returns 0 and leaves the tree as it was. *)
Theorem Delete_absent_unchanged (t : TreeV4) (a : IPv4Address) (f : MatchesFunc)
    (v : uint16) :
  absent_in t a →
  ∃ k a', ∀ fuel, k ≤ fuel → Delete fuel t (Some a) f v = Ok (0, t, Some a').
Proof.
  intros (Hl & root & Hroot & Habs).
  destruct (Delete_loop_absent _ _ _ Habs) as (k & a' & Hloop).
  exists k, a'. intros fuel Hf. unfold Delete.
  rewrite (getNode_Some _ _ _ Hroot). simpl. rewrite (eqb_false_of _ _ Hl).
  unfold child_for, child in Hloop. by rewrite (Hloop fuel 1 Hf).
Qed.

Lemma Delete_absent_unchanged_witness :
  ∃ k a', ∀ fuel, k ≤ fuel →
    Delete fuel example_tree (cidr 10 128 0 0 9) matchAll 0%Z
    = Ok (0, example_tree, Some a').
Proof.
  apply (Delete_absent_unchanged example_tree (mkAddr 176160768 9) matchAll 0%Z).
  split; [simpl; lia|]. exists (mkNode 3 0 0 0 1). split; [vm_compute; reflexivity|].
  apply (absent_step example_tree 3 (mkNode 5 4 1073741824 1 0));
    [lia|vm_compute; reflexivity|vm_compute; lia|vm_compute; lia|].
  apply (absent_short example_tree 5 (mkNode 0 0 335544320 15 1));
    [lia|vm_compute; reflexivity|vm_compute; lia].
Defined.

(** Every exit of the compaction returns the count it was given. *)
Lemma Delete_compact_count t pi ti d c t' :
  Delete_compact t pi ti d = Ok (c, t') → c = d.
Proof.
  unfold Delete_compact, Delete_liftChild, Delete_mergeSibling. intros H.
  repeat match type of H with
  | context [getNode ?x ?i ≫= _] =>
      destruct (getNode x i) as [?| |]; cbn [mbind result_mbind result_bind] in H;
      [|discriminate..]
  | context [moveTags ?x ?i ?j ≫= _] =>
      destruct (moveTags x i j) as [?| |]; cbn [mbind result_mbind result_bind] in H;
      [|discriminate..]
  | context [MergePrefixes32 ?a ?b ?c ?d] =>
      destruct (MergePrefixes32 a b c d) as [? ?]
  | context [if ?b then _ else _] => destruct b
  | Ok _ = Ok _ => injection H as <- <-
  | Ok _ ≫= _ = _ => cbn [mbind result_mbind result_bind] in H
  end; try done.
Qed.

Lemma same_shape_refl t : same_shape t t.
Proof. split; [done|]. split; [done|]. intros j nj Hj. by exists nj. Qed.

Lemma same_shape_set_TagCount t i k m :
  same_shape t (updNode (set_TagCount k) i (setTags m t)).
Proof.
  split; [by rewrite length_updNode|]. split; [done|]. intros j nj Hj.
  destruct (decide (j = i)) as [->|Hji].
  - exists (set_TagCount k nj). by rewrite nodes_updNode_same, nodes_setTags, Hj.
  - exists nj. by rewrite nodes_updNode_ne, nodes_setTags.
Qed.

Lemma node_tags_nil t i n : nodes t !! i = Some n → TagCount n = 0 → node_tags t i = [].
Proof. intros Hn Hz. by rewrite (node_tags_eq _ _ _ Hn), Hz. Qed.

(** What [Delete] does once it has its target. *)
Lemma Delete_target_spec t pi ti n f v c t' :
  nodes t !! ti = Some n → index_ok ti → count_ok (TagCount n) →
  Delete_target t pi ti f v = Ok (c, t') →
  c = length (filter (λ tag, f tag v = true) (node_tags t ti)) ∧
  (node_tags t ti = [] → t' = t) ∧
  (filter (λ tag, f tag v = false) (node_tags t ti) ≠ [] ∨ ti = 1 →
   tagsForNode t' ti = Ok (filter (λ tag, f tag v = false) (node_tags t ti)) ∧
   same_shape t t' ∧ other_tags_kept t t' ti).
Proof.
  intros Hn Hi Hc. unfold Delete_target. rewrite (getNode_Some _ _ _ Hn).
  cbn [mbind result_mbind result_bind].
  destruct (Nat.eqb_spec (TagCount n) 0) as [Hz|Hz].
  { intros [= <- <-]. rewrite (node_tags_nil _ _ _ Hn Hz). split; [done|].
    split; [done|]. intros _. rewrite filter_nil.
    split; [by rewrite (tagsForNode_node_tags _ _ _ Hn), (node_tags_nil _ _ _ Hn Hz)|].
    split; [apply same_shape_refl|]. by intros j nj _ _ _ _. }
  assert (Hne : node_tags t ti ≠ []).
  { intros He. apply (f_equal length) in He. rewrite (length_node_tags _ _ _ Hn) in He.
    simpl in He. lia. }
  destruct (deleteTag_contents t ti n v f Hn Hi Hc) as (m' & Hdel & Hkept & Hframe).
  cbv zeta in Hdel, Hkept, Hframe.
  set (t1 := updNode _ ti (setTags m' t)) in *.
  rewrite Hdel. cbn [mbind result_mbind result_bind].
  assert (Htags : tagsForNode t1 ti
                  = Ok (filter (λ tag, f tag v = false) (node_tags t ti))).
  { erewrite tagsForNode_node_tags; [by rewrite Hkept|].
    unfold t1. by rewrite nodes_updNode_same, nodes_setTags, Hn. }
  assert (Hstay : same_shape t t1 ∧ other_tags_kept t t1 ti).
  { split; [apply same_shape_set_TagCount|].
    intros j nj Hj Hnj Hij Hcj.
    assert (Hnj' : nodes t1 !! j = Some nj).
    { unfold t1. by rewrite nodes_updNode_ne, nodes_setTags. }
    rewrite (tagsForNode_node_tags _ _ _ Hnj'), (tagsForNode_node_tags _ _ _ Hnj).
    f_equal. by apply (Hframe j nj). }
  destruct (Nat.ltb_spec 0 (length (filter (λ tag, f tag v = false) (node_tags t ti))))
    as [Hpos|Hzero].
  { intros [= <- <-]. split; [reflexivity|]. split; [by intros ?%Hne|]. by intros _. }
  destruct (Nat.eqb_spec ti 1) as [->|Hti].
  { intros [= <- <-]. split; [reflexivity|]. split; [by intros ?%Hne|]. by intros _. }
  intros Hcompact. apply Delete_compact_count in Hcompact as ->.
  split; [reflexivity|]. split; [by intros ?%Hne|]. intros [Hsome|?]; [|done].
  destruct Hsome. apply nil_length_inv. lia.
Qed.

Lemma Delete_target_root_Ok t root f v :
  nodes t !! 1 = Some root → ∃ c t', Delete_target t 0 1 f v = Ok (c, t').
Proof.
  intros Hroot. unfold Delete_target. rewrite (getNode_Some _ _ _ Hroot).
  cbn [mbind result_mbind result_bind].
  destruct (TagCount root =? 0); [by eexists _, _|].
  destruct (deleteTag_spec t 1 root v f Hroot) as (m' & d & k & -> & _).
  cbn [mbind result_mbind result_bind].
  destruct (0 <? k); by eexists _, _.
Qed.

Lemma index_ok_1 : index_ok 1.
Proof. unfold index_ok. simpl. lia. Qed.

(** X11: [Delete] with a nil or zero-length address removes from the
    root the tags that [matchFunc] accepts, keeps the others in their
    order, returns the number removed, and changes neither the shape of
    the tree nor the tags of another node. *)
Theorem Delete_root_filters_root_tags (fuel : nat) (t : TreeV4)
    (address : option IPv4Address) (f : MatchesFunc) (v : uint16) (root : treeNodeV4) :
  nodes t !! 1 = Some root → count_ok (TagCount root) →
  (∀ a, address = Some a → Length a = 0) →
  ∃ t',
    Delete fuel t address f v
    = Ok (length (filter (λ tag, f tag v = true) (node_tags t 1)), t', address) ∧
    tagsForNode t' 1 = Ok (filter (λ tag, f tag v = false) (node_tags t 1)) ∧
    same_shape t t' ∧ other_tags_kept t t' 1.
Proof.
  intros Hroot Hc Haddr.
  destruct (Delete_target_root_Ok t root f v Hroot) as (c & t' & Htarget).
  destruct (Delete_target_spec t 0 1 root f v c t' Hroot index_ok_1 Hc Htarget)
    as (-> & _ & Hrest).
  exists t'. split; [|apply Hrest; by right].
  unfold Delete. rewrite (getNode_Some _ _ _ Hroot).
  cbn [mbind result_mbind result_bind].
  destruct address as [a|]; [|by rewrite Htarget].
  rewrite (eqb_true_of _ _ (Haddr a eq_refl)). by rewrite Htarget.
Qed.

Lemma Delete_root_filters_root_tags_witness :
  ∃ t',
    Delete 0 example_tree None matchAll 0%Z
    = Ok (length (filter (λ tag, matchAll tag 0%Z = true) (node_tags example_tree 1)),
          t', None) ∧
    tagsForNode t' 1
    = Ok (filter (λ tag, matchAll tag 0%Z = false) (node_tags example_tree 1)) ∧
    same_shape example_tree t' ∧ other_tags_kept example_tree t' 1.
Proof.
  apply (Delete_root_filters_root_tags 0 example_tree None matchAll 0%Z (mkNode 3 0 0 0 1)).
  - vm_compute. reflexivity.
  - unfold count_ok. simpl. lia.
  - intros a Ha. discriminate Ha.
Defined.

Lemma at_path_short live t ab p i a acc :
  at_path live t ab p i a acc → length acc < length ab.
Proof.
  intros [_ Hlen _ Hrest _].
  pose proof (length_address_bits a ltac:(lia)) as Hl.
  rewrite Hrest, length_drop in Hl. lia.
Qed.

Lemma accumulated_cons t i n path :
  nodes t !! i = Some n → accumulated t (i :: path) = prefix_bits n ++ accumulated t path.
Proof. intros Hn. unfold accumulated. simpl. by rewrite Hn. Qed.

(** The traversal of [Delete] stops at the last node of the matching
    path when the accumulated prefixes make up the whole address, and
    finds nothing otherwise. *)
Lemma Delete_loop_path live depth parent t ab :
  inv_with live depth parent t →
  ∀ fuel fuel' p i a acc,
    at_path live t ab p i a acc → Length a ≤ fuel → Length a ≤ fuel' →
    ∃ r a',
      Delete_loop fuel t p i a = Ok (r, a') ∧
      ((r = None ∧ acc ++ accumulated t (matching_path fuel' t i acc ab) ≠ ab) ∨
       (∃ pi ti npi s',
          r = Some (pi, ti) ∧ last (matching_path fuel' t i acc ab) = Some ti ∧
          acc ++ accumulated t (matching_path fuel' t i acc ab) = ab ∧
          live pi ∧ nodes t !! pi = Some npi ∧ child s' npi = ti ∧ ti ≠ 0)).
Proof.
  intros Hinv. induction fuel as [|fuel IH]; intros fuel' p i a acc Hat Hf Hf'.
  { destruct Hat. lia. }
  destruct fuel' as [|fuel']; [destruct Hat; lia|].
  pose proof (at_path_short _ _ _ _ _ _ _ Hat) as Hshort.
  assert (Hnot : acc ++ accumulated t [] ≠ ab).
  { unfold accumulated. simpl. rewrite app_nil_r. intros <-. lia. }
  destruct (decide (i = 0)) as [->|Hi].
  { exists None, a. split; [done|]. by left. }
  destruct (lookup_step _ _ _ _ _ _ _ _ _ Hinv Hat Hi) as (n & next & Hn & Hstep & Hnext).
  rewrite (matching_path_step _ _ _ _ _ _ _ _ Hi Hn Hstep).
  cbn [Delete_loop]. rewrite (eqb_false_of _ _ Hi), (getNode_Some _ _ _ Hn).
  cbn [mbind result_mbind result_bind].
  destruct Hstep as [Hlt Hpre ->|He1 He2 Hpre Hnone ->|b He1 Hlt Hpre Hsome Hbit ->].
  - apply Nat.ltb_lt in Hlt as ->. exists None, a. split; [done|]. by left.
  - replace (MatchCount n a <? prefixLength n) with false
      by (symmetry; apply Nat.ltb_ge; lia).
    rewrite (eqb_true_of _ _ He2). exists (Some (p, i)), a. split; [done|]. right.
    destruct Hat as [(np & s & Hp & Hnp & Hch) _ _ _ _].
    exists p, i, np, s. split_and!; try done.
    rewrite (accumulated_cons _ _ _ _ Hn). unfold accumulated. simpl.
    rewrite app_nil_r. apply is_prefix_take in Hpre. rewrite <- Hpre.
    apply lookup_ge_None in Hnone. by rewrite take_ge.
  - replace (MatchCount n a <? prefixLength n) with false
      by (symmetry; apply Nat.ltb_ge; lia).
    rewrite (eqb_false_of (MatchCount n a) (Length a)) by lia.
    destruct (Hnext _ _ eq_refl) as [Hat' Hlen'].
    destruct (IH fuel' i (child (negb b) n) (ShiftLeft a (MatchCount n a))
                (acc ++ prefix_bits n) Hat') as (r & a' & Hloop & Hres); [lia..|].
    exists r, a'. split.
    { rewrite Hbit, <- Hloop. by destruct b. }
    rewrite (accumulated_cons _ _ _ _ Hn), app_assoc.
    destruct Hres as [[-> Hne]|(pi & ti & npi & s' & -> & Hlast & Hacc & Hrest)].
    + by left.
    + right. exists pi, ti, npi, s'. split; [done|]. split; [|done].
      by rewrite last_cons, Hlast.
Qed.

Lemma key_room_node k t i n :
  key_room k t → nodes t !! i = Some n → index_ok i ∧ count_ok (TagCount n).
Proof.
  intros [Hlen Hcount] Hn. pose proof (lookup_lt_Some _ _ _ Hn) as Hlt.
  specialize (Hcount i n Hn). unfold index_ok, count_ok. lia.
Qed.

(** [Delete] goes to the node the address is stored at. *)
Lemma Delete_by_stored_at fuel t a f v :
  built t → key_room 0 t → addr_ok a → 32 ≤ fuel →
  ∃ c t' a',
    Delete fuel t (Some a) f v = Ok (c, t', Some a') ∧
    match stored_at t a with
    | None => c = 0 ∧ t' = t
    | Some ti =>
        ∃ pi nti, nodes t !! ti = Some nti ∧ index_ok ti ∧ count_ok (TagCount nti) ∧
                  Delete_target t pi ti f v = Ok (c, t')
    end.
Proof.
  intros Hb Hroom Hok Hfuel. destruct (built_inv t Hb) as (live & depth & parent & Hinv).
  destruct (inv_lookup Hinv 1 (inv_root _ _ _ _ Hinv)) as [root Hroot].
  unfold Delete, stored_at. rewrite (getNode_Some _ _ _ Hroot).
  cbn [mbind result_mbind result_bind].
  destruct (decide (Length a = 0)) as [Hz|Hz].
  { rewrite (eqb_true_of _ _ Hz), (matching_nodes_root_only _ _ Hz).
    destruct (Delete_target_root_Ok t root f v Hroot) as (c & t' & Htarget).
    rewrite Htarget. exists c, t', a. split; [done|].
    unfold address_bits. rewrite Hz. simpl.
    exists 0, root. by destruct (key_room_node _ _ _ _ Hroom Hroot). }
  rewrite (eqb_false_of _ _ Hz).
  destruct (at_path_root _ _ _ _ root a Hinv Hroot Hok ltac:(lia)) as [Hat [bs Hbits]].
  rewrite (matching_nodes_below_root _ _ _ _ Hroot Hbits).
  destruct Hok as [_ Hl].
  destruct (Delete_loop_path _ _ _ _ _ Hinv fuel (Length a) 1 _ a [] Hat)
    as (r & a' & -> & Hres); [lia..|].
  cbn [mbind result_mbind result_bind tail].
  destruct Hres as [[-> Hne]|(pi & ti & npi & s' & -> & Hlast & Hacc & Hpi & Hnpi & Hch & Hti)].
  - exists 0, t, a'. split; [done|]. by rewrite bool_decide_eq_false_2.
  - destruct (Delete_target_inv live depth parent t pi ti f v Hinv) as (c & t' & Htarget & _).
    { right. by exists npi, s'. }
    rewrite Htarget. exists c, t', a'. split; [done|].
    rewrite bool_decide_eq_true_2 by done. rewrite last_cons, Hlast.
    destruct (inv_at_child _ _ _ _ _ _ _ _ Hinv Hpi Hnpi Hch Hti)
      as (_ & _ & _ & _ & nti & Hnti & _).
    exists pi, nti. by destruct (key_room_node _ _ _ _ Hroom Hnti).
Qed.

(** X12: on a tree built by [Add] and [Delete], [Delete] returns the
    number of tags stored at the address that [matchFunc] accepts; when
    no tag is stored at the address the tree is left as it was. *)
Theorem Delete_counts_matching_tags (fuel : nat) (t : TreeV4) (a : IPv4Address)
    (f : MatchesFunc) (v : uint16) :
  built t → key_room 0 t → addr_ok a → 32 ≤ fuel →
  ∃ t' a',
    Delete fuel t (Some a) f v
    = Ok (length (filter (λ tag, f tag v = true) (stored_tags t a)), t', Some a') ∧
    (stored_tags t a = [] → t' = t).
Proof.
  intros Hb Hroom Hok Hfuel.
  destruct (Delete_by_stored_at fuel t a f v Hb Hroom Hok Hfuel) as (c & t' & a' & HD & Hst).
  exists t', a'. unfold stored_tags. destruct (stored_at t a) as [ti|].
  - destruct Hst as (pi & nti & Hnti & Hi & Hc & Htarget).
    destruct (Delete_target_spec _ _ _ _ _ _ _ _ Hnti Hi Hc Htarget) as (-> & Hnil & _).
    by split.
  - destruct Hst as [-> ->]. by split.
Qed.

(** X13: when some tag stored at the address stays, [Delete] leaves the
    node with the tags [matchFunc] rejects, in their order, and changes
    neither the shape of the tree nor the tags of another node. *)
Theorem Delete_keeps_unmatched_tags (fuel : nat) (t : TreeV4) (a : IPv4Address)
    (f : MatchesFunc) (v : uint16) (ti : nat) :
  built t → key_room 0 t → addr_ok a → 32 ≤ fuel →
  stored_at t a = Some ti →
  filter (λ tag, f tag v = false) (node_tags t ti) ≠ [] →
  ∃ c t' a',
    Delete fuel t (Some a) f v = Ok (c, t', Some a') ∧
    tagsForNode t' ti = Ok (filter (λ tag, f tag v = false) (node_tags t ti)) ∧
    same_shape t t' ∧ other_tags_kept t t' ti.
Proof.
  intros Hb Hroom Hok Hfuel Hat Hkept.
  destruct (Delete_by_stored_at fuel t a f v Hb Hroom Hok Hfuel) as (c & t' & a' & HD & Hst).
  exists c, t', a'. split; [done|]. rewrite Hat in Hst.
  destruct Hst as (pi & nti & Hnti & Hi & Hc & Htarget).
  destruct (Delete_target_spec _ _ _ _ _ _ _ _ Hnti Hi Hc Htarget) as (_ & _ & Hrest).
  apply Hrest. by left.
Qed.

Lemma key_room_check k t :
  (Z.of_nat (length (nodes t)) + 2 * Z.of_nat k <=? 2 ^ 32)%Z = true →
  forallb (λ n, (Z.of_nat (TagCount n) + Z.of_nat k <=? 2 ^ 32)%Z) (nodes t) = true →
  key_room k t.
Proof.
  intros Hlen Hall. split; [by apply Z.leb_le|].
  intros i n Hn. rewrite forallb_forall in Hall.
  apply Z.leb_le, (Hall n). apply list_elem_of_In. by eapply list_elem_of_lookup_2.
Qed.

Lemma example_tree_key_room : key_room 1 example_tree.
Proof. apply key_room_check; vm_compute; reflexivity. Defined.

Lemma key_room_le k k' t : k' ≤ k → key_room k t → key_room k' t.
Proof.
  intros Hk [Hlen Hall]. split; [lia|]. intros i n Hn. specialize (Hall i n Hn). lia.
Qed.

Lemma Delete_counts_matching_tags_witness :
  ∃ t' a',
    Delete 32 example_tree (Some (mkAddr 167772160 16)) matchAll 0%Z
    = Ok (length (filter (λ tag, matchAll tag 0%Z = true)
                         (stored_tags example_tree (mkAddr 167772160 16))),
          t', Some a') ∧
    (stored_tags example_tree (mkAddr 167772160 16) = [] → t' = example_tree).
Proof.
  apply (Delete_counts_matching_tags 32 example_tree (mkAddr 167772160 16) matchAll 0%Z
           example_tree_built (key_room_le 1 0 _ (Nat.le_0_l 1) example_tree_key_room)).
  - split; simpl; lia.
  - lia.
Defined.

Lemma Delete_keeps_unmatched_tags_witness :
  ∃ c t' a',
    Delete 32 example_tree (Some (mkAddr 167772160 16)) matchEq 9%Z = Ok (c, t', Some a') ∧
    tagsForNode t' 5
    = Ok (filter (λ tag, matchEq tag 9%Z = false) (node_tags example_tree 5)) ∧
    same_shape example_tree t' ∧ other_tags_kept example_tree t' 5.
Proof.
  apply (Delete_keeps_unmatched_tags 32 example_tree (mkAddr 167772160 16) matchEq 9%Z 5
           example_tree_built (key_room_le 1 0 _ (Nat.le_0_l 1) example_tree_key_room)).
  - split; simpl; lia.
  - lia.
  - vm_compute. reflexivity.
  - vm_compute. intros H. discriminate H.
Defined.

(** ** Add, then FindTags *)

Lemma is_prefix_refl xs : is_prefix xs xs = true.
Proof. induction xs as [|x xs IH]; simpl; [done|]. by rewrite Bool.eqb_reflx. Qed.

Lemma matching_path_exact fuel t k nk acc ab :
  k ≠ 0 → nodes t !! k = Some nk → acc ++ prefix_bits nk = ab →
  matching_path (S fuel) t k acc ab = [k].
Proof.
  intros Hk Hn <-. simpl. rewrite (eqb_false_of _ _ Hk), Hn, is_prefix_refl.
  by rewrite (lookup_ge_None_2 _ (length (acc ++ prefix_bits nk))).
Qed.

Lemma matching_path_descend fuel t i ni acc ab b :
  i ≠ 0 → nodes t !! i = Some ni →
  is_prefix (acc ++ prefix_bits ni) ab = true →
  ab !! length (acc ++ prefix_bits ni) = Some b →
  matching_path (S fuel) t i acc ab
  = i :: matching_path fuel t (child (negb b) ni) (acc ++ prefix_bits ni) ab.
Proof.
  intros Hi Hn Hpre Hb. simpl. rewrite (eqb_false_of _ _ Hi), Hn, Hpre, Hb.
  by destruct b.
Qed.

Lemma matching_path_nil fuel t acc ab : matching_path fuel t 0 acc ab = [].
Proof. by destruct fuel. Qed.

Lemma at_path_whole live t ab p i a acc :
  at_path live t ab p i a acc → acc ++ address_bits a = ab.
Proof.
  intros [_ _ _ Hrest Hdone]. rewrite Hrest.
  transitivity (take (length acc) ab ++ drop (length acc) ab); [by rewrite Hdone|].
  apply take_drop.
Qed.

Lemma readTag_Some (m : gmap Z uint16) (k : Z) (v : uint16) :
  m !! k = Some v → readTag m k = v.
Proof. intros H. unfold readTag. unfold uint16 in *. by rewrite H. Qed.

Lemma node_tags_single t k nk tag :
  nodes t !! k = Some nk → TagCount nk = 1 → tags t !! tagKey k 0 = Some tag →
  node_tags t k = [tag].
Proof.
  intros Hn Hc Htag. rewrite (node_tags_eq _ _ _ Hn), Hc. simpl.
  by rewrite (readTag_Some _ _ _ Htag).
Qed.

Lemma path_tags_cons t i path : path_tags t (i :: path) = node_tags t i ++ path_tags t path.
Proof. done. Qed.

Lemma path_tags_nil t : path_tags t [] = [].
Proof. done. Qed.

Lemma prefix_bits_set_child s v n : prefix_bits (set_child s v n) = prefix_bits n.
Proof. by destruct s. Qed.

Lemma prefix_bits_set_TagCount c n : prefix_bits (set_TagCount c n) = prefix_bits n.
Proof. done. Qed.

(** Room in the keys for the nodes of [t] and for two more. *)
Lemma key_room_index t k : key_room 1 t → k < length (nodes t) + 2 → index_ok k.
Proof. intros [Hlen _] Hk. unfold index_ok. lia. Qed.

Lemma key_room_count t i n :
  key_room 1 t → nodes t !! i = Some n →
  index_ok i ∧ count_ok (TagCount n) ∧ (Z.of_nat (TagCount n) < 2 ^ 32)%Z.
Proof.
  intros Hroom Hn. pose proof (lookup_lt_Some _ _ _ Hn).
  split; [apply (key_room_index t); [done|lia]|].
  destruct Hroom as [_ Hc]. specialize (Hc i n Hn). unfold count_ok. lia.
Qed.

Section add_path.
Variables (live : nat → Prop) (depth parent : nat → nat) (t : TreeV4).
Variables (ab : list bool) (tag : uint16).
Hypothesis Hinv : inv_with live depth parent t.
Hypothesis Hroom : key_room 1 t.

(** The tag goes to the node the address ends at. *)
Lemma adds_tag_exact fuel p np s i ni a acc :
  at_path live t ab p i a acc →
  live p → nodes t !! p = Some np → child s np = i → i ≠ 0 →
  nodes t !! i = Some ni → depth p < depth i →
  MatchCount ni a = prefixLength ni → MatchCount ni a = Length a →
  is_prefix (acc ++ prefix_bits ni) ab = true →
  ab !! length (acc ++ prefix_bits ni) = None →
  adds_tag live depth t
    (updNode (set_TagCount (S (TagCount ni))) i
       (setTags (<[tagKey i (TagCount ni) := tag]> (tags t)) t))
    ab tag (S fuel) p s i i acc.
Proof.
  intros Hat Hp Hnp Hch Hi Hni Hdep He1 He2 Hpre Hnone.
  set (t' := updNode _ i _).
  assert (Hni' : nodes t' !! i = Some (set_TagCount (S (TagCount ni)) ni)).
  { unfold t'. by rewrite nodes_updNode_same, nodes_setTags, Hni. }
  assert (Htags : tags t' = <[tagKey i (TagCount ni) := tag]> (tags t)).
  { unfold t'. by rewrite tags_updNode, tags_setTags. }
  destruct (key_room_count _ _ _ Hroom Hni) as (Hix & _ & Hcx).
  split; [done|]. split.
  - intros j nj Hj Hdj Hnj.
    assert (Hji : j ≠ i) by (intros ->; lia).
    assert (Hnj' : nodes t' !! j = Some nj).
    { unfold t'. by rewrite nodes_updNode_ne, nodes_setTags. }
    split.
    + rewrite Hnj'. case_decide as Hjp; [|done]. subst j.
      rewrite Hnp in Hnj. injection Hnj as <-. by rewrite <- Hch, set_child_same.
    + destruct (key_room_count _ _ _ Hroom Hnj) as (Hjx & Hjc & _).
      apply (node_tags_insert t t' j nj nj i (TagCount ni) tag); try done. by left.
  - rewrite (matching_path_step t ab i a acc ni None fuel Hi Hni).
    2:{ by apply step_exact. }
    replace (MatchCount ni a <? prefixLength ni) with false
      by (symmetry; apply Nat.ltb_ge; lia).
    rewrite (matching_path_exact fuel t' i _ acc ab Hi Hni').
    2:{ rewrite prefix_bits_set_TagCount. apply is_prefix_take in Hpre.
        rewrite <- Hpre. apply lookup_ge_None in Hnone. by rewrite take_ge. }
    rewrite !path_tags_cons, !path_tags_nil, !app_nil_r.
    by apply (node_tags_snoc t t' i ni _ tag Hni Hni').
Qed.


(** A leaf for the rest of the address goes below the node [q]. *)
Lemma adds_tag_leaf fuel q nq s' k a1 acc' t' :
  live q → nodes t !! q = Some nq → child s' nq = 0 →
  leaf_added live t t' q nq s' k a1 tag →
  acc' ++ address_bits a1 = ab →
  adds_tag live depth t t' ab tag (S fuel) q s' 0 k acc'.
Proof.
  intros Hq Hnq Hch (Hk & Hkr & Hnk & Hnq' & Hfr & Htags & Hal & Hlen) Hwhole.
  assert (Hkx : index_ok k) by (apply (key_room_index t); [done|lia]).
  split; [lia|]. split.
  - intros j nj Hj _ Hnj.
    assert (Hjk : j ≠ k) by (intros ->; done).
    assert (Hnj' : nodes t' !! j
                   = Some (if decide (j = q) then set_child s' k nj else nj)).
    { case_decide as Hjq.
      - subst j. rewrite Hnq in Hnj. by injection Hnj as <-.
      - by rewrite Hfr. }
    split; [done|].
    destruct (key_room_count _ _ _ Hroom Hnj) as (Hjx & Hjc & _).
    apply (node_tags_insert t t' j nj _ k 0 tag Hnj Hnj'); try done.
    + case_decide; [by rewrite TagCount_set_child|done].
    + by left.
  - rewrite matching_path_nil, path_tags_nil, app_nil_l.
    rewrite (matching_path_exact fuel t' k _ acc' ab ltac:(lia) Hnk Hwhole).
    rewrite path_tags_cons, path_tags_nil, app_nil_r.
    apply (node_tags_single t' k _ tag Hnk); [done|].
    rewrite Htags. apply lookup_insert_eq.
Qed.

(** What happens below the child of a node the address matches in full
    is what happens below the node. *)
Lemma adds_tag_lift fuel p np s i ni acc b c' t' :
  live p → nodes t !! p = Some np → child s np = i → i ≠ 0 →
  live i → nodes t !! i = Some ni → depth p < depth i →
  is_prefix (acc ++ prefix_bits ni) ab = true →
  ab !! length (acc ++ prefix_bits ni) = Some b →
  adds_tag live depth t t' ab tag fuel i (negb b) (child (negb b) ni) c'
           (acc ++ prefix_bits ni) →
  adds_tag live depth t t' ab tag (S fuel) p s i i acc.
Proof.
  intros Hp Hnp Hch Hi Hli Hni Hdep Hpre Hb (Hc' & Hframe & Hpath).
  destruct (Hframe i ni Hli (le_n _) Hni) as [Hni' Htagsi].
  rewrite decide_True in Hni' by done.
  split; [done|]. split.
  - intros j nj Hj Hdj Hnj.
    destruct (Hframe j nj Hj ltac:(lia) Hnj) as [Hnj' Htagsj].
    rewrite decide_False in Hnj' by (intros ->; lia).
    split; [|done]. rewrite Hnj'. case_decide as Hjp; [|done]. subst j.
    rewrite Hnp in Hnj. injection Hnj as <-. by rewrite <- Hch, set_child_same.
  - rewrite (matching_path_descend fuel t i ni acc ab b Hi Hni Hpre Hb).
    rewrite (matching_path_descend fuel t' i _ acc ab b Hi Hni');
      rewrite ?prefix_bits_set_child; try done.
    rewrite child_set_child_eq, !path_tags_cons, Hpath, Htagsi.
    by rewrite app_assoc.
Qed.


(** A node for the address goes above the node [i], whose prefix
    the address is a proper prefix of. *)
Lemma adds_tag_above fuel p np s i a acc t' k nk :
  at_path live t ab p i a acc →
  live p → nodes t !! p = Some np → live i → depth p < depth i →
  matching_path (S fuel) t i acc ab = [] →
  ¬ live k → 2 ≤ k < length (nodes t') →
  nodes t' !! k = Some nk → prefix nk = Address a → prefixLength nk = Length a →
  TagCount nk = 1 →
  nodes t' !! p = Some (set_child s k np) →
  (∀ j, j ≠ p → j ≠ i → j ≠ k → nodes t' !! j = nodes t !! j) →
  tags t' = <[tagKey k 0 := tag]> (tags t) →
  length (nodes t') ≤ S (length (nodes t)) →
  adds_tag live depth t t' ab tag (S fuel) p s i k acc.
Proof.
  intros Hat Hp Hnp Hli Hdep Hold Hk Hkr Hnk Hpk Hlk Htk Hnp' Hfr Htags Hlen.
  assert (Hkx : index_ok k) by (apply (key_room_index t); [done|lia]).
  split; [lia|]. split.
  - intros j nj Hj Hdj Hnj.
    assert (Hjk : j ≠ k) by (intros ->; done).
    assert (Hji : j ≠ i) by (intros ->; lia).
    assert (Hnj' : nodes t' !! j
                   = Some (if decide (j = p) then set_child s k nj else nj)).
    { case_decide as Hjp.
      - subst j. rewrite Hnp in Hnj. by injection Hnj as <-.
      - by rewrite Hfr. }
    split; [done|].
    destruct (key_room_count _ _ _ Hroom Hnj) as (Hjx & Hjc & _).
    apply (node_tags_insert t t' j nj _ k 0 tag Hnj Hnj'); try done.
    + case_decide; [by rewrite TagCount_set_child|done].
    + by left.
  - rewrite Hold, path_tags_nil, app_nil_l.
    rewrite (matching_path_exact fuel t' k nk acc ab ltac:(lia) Hnk).
    2:{ unfold prefix_bits. rewrite Hpk, Hlk. apply (at_path_whole _ _ _ _ _ _ _ Hat). }
    rewrite path_tags_cons, path_tags_nil, app_nil_r.
    apply (node_tags_single t' k nk tag Hnk Htk).
    rewrite Htags. apply lookup_insert_eq.
Qed.

(** The bits of the address around the place where it leaves the prefix
    of a node. *)
Lemma split_bits p i a acc m :
  at_path live t ab p i a acc → 1 ≤ m → m < Length a →
  let a1 := ShiftLeft a m in
  let acc1 := acc ++ take m (bits32 (Address a)) in
  is_prefix acc1 ab = true ∧
  ab !! length acc1 = Some (negb (isLeftBit (Address a1))) ∧
  acc1 ++ address_bits a1 = ab.
Proof.
  intros Hat Hm1 Hml a1 acc1.
  pose proof (at_path_whole _ _ _ _ _ _ _ Hat) as Hwhole.
  destruct Hat as [_ Hlen Hr _ _].
  pose proof (length_address_bits a ltac:(lia)) as Hla.
  assert (Htake : take m (bits32 (Address a)) = take m (address_bits a)).
  { unfold address_bits. rewrite take_take. f_equal. lia. }
  assert (Hlacc1 : length acc1 = length acc + m).
  { unfold acc1. rewrite length_app, Htake, length_take. lia. }
  destruct (ShiftLeft_ok a m) as (Hr' & Hl' & Hl1'); [lia..|].
  pose proof (address_bits_ShiftLeft a m ltac:(lia) ltac:(lia)) as Hsh.
  fold a1 in Hsh, Hr', Hl', Hl1'.
  split_and!.
  - apply is_prefix_take. rewrite Hlacc1, <- Hwhole, take_app_add.
    unfold acc1. by rewrite Htake.
  - rewrite Hlacc1, <- Hwhole, lookup_app_r by lia.
    replace (length acc + m - length acc) with m by lia.
    pose proof (address_bits_head a1 Hr' ltac:(lia)) as Hhead.
    by rewrite Hsh, head_lookup, lookup_drop, Nat.add_0_r in Hhead.
  - unfold acc1. rewrite Htake, Hsh, <- app_assoc, take_drop. done.
Qed.

(** The node [i] is split: a common parent for the bits shared with the
    address, over the node and a leaf for the rest of the address. *)
Lemma adds_tag_split fuel p np s i ni a acc t' k1 k2 nk1 nk2 :
  at_path live t ab p i a acc →
  live p → nodes t !! p = Some np → live i → nodes t !! i = Some ni →
  depth p < depth i →
  matching_path (S (S fuel)) t i acc ab = [] →
  1 ≤ MatchCount ni a → MatchCount ni a < Length a →
  MatchCount ni a < prefixLength ni →
  ¬ live k1 → 2 ≤ k1 < length (nodes t') →
  ¬ live k2 → 2 ≤ k2 < length (nodes t') →
  nodes t' !! k1 = Some nk1 → prefix nk1 = Address a →
  prefixLength nk1 = MatchCount ni a → TagCount nk1 = 0 →
  child (negb (isLeftBit (shl32 (prefix ni) (MatchCount ni a)))) nk1 = k2 →
  nodes t' !! k2 = Some nk2 →
  prefix nk2 = Address (ShiftLeft a (MatchCount ni a)) →
  prefixLength nk2 = Length (ShiftLeft a (MatchCount ni a)) → TagCount nk2 = 1 →
  nodes t' !! p = Some (set_child s k1 np) →
  (∀ j, j ≠ p → j ≠ i → j ≠ k1 → j ≠ k2 → nodes t' !! j = nodes t !! j) →
  tags t' = <[tagKey k2 0 := tag]> (tags t) →
  length (nodes t') ≤ S (S (length (nodes t))) →
  adds_tag live depth t t' ab tag (S (S fuel)) p s i k1 acc.
Proof.
  intros Hat Hp Hnp Hli Hni Hdep Hold Hm1 Hml Hmp Hk1 Hkr1 Hk2 Hkr2
         Hnk1 Hp1 Hl1 Ht1 Hc1 Hnk2 Hp2 Hl2 Ht2 Hnp' Hfr Htags Hlen.
  assert (Hkx : index_ok k2) by (apply (key_room_index t); [done|lia]).
  destruct (split_bits p i a acc (MatchCount ni a) Hat Hm1 Hml) as (Hpre & Hbit & Hwhole).
  split; [lia|]. split.
  - intros j nj Hj Hdj Hnj.
    assert (Hjk1 : j ≠ k1) by (intros ->; done).
    assert (Hjk2 : j ≠ k2) by (intros ->; done).
    assert (Hji : j ≠ i) by (intros ->; lia).
    assert (Hnj' : nodes t' !! j
                   = Some (if decide (j = p) then set_child s k1 nj else nj)).
    { case_decide as Hjp.
      - subst j. rewrite Hnp in Hnj. by injection Hnj as <-.
      - by rewrite Hfr. }
    split; [done|].
    destruct (key_room_count _ _ _ Hroom Hnj) as (Hjx & Hjc & _).
    apply (node_tags_insert t t' j nj _ k2 0 tag Hnj Hnj'); try done.
    + case_decide; [by rewrite TagCount_set_child|done].
    + by left.
  - rewrite Hold, path_tags_nil, app_nil_l.
    assert (Hpb1 : prefix_bits nk1 = take (MatchCount ni a) (bits32 (Address a))).
    { unfold prefix_bits. by rewrite Hp1, Hl1. }
    assert (Hpb2 : prefix_bits nk2 = address_bits (ShiftLeft a (MatchCount ni a))).
    { unfold prefix_bits. by rewrite Hp2, Hl2. }
    rewrite (matching_path_descend (S fuel) t' k1 nk1 acc ab
               (negb (isLeftBit (Address (ShiftLeft a (MatchCount ni a)))))
               ltac:(lia) Hnk1); rewrite ?Hpb1; try done.
    rewrite negb_involutive.
    destruct Hat as [_ Hlen' _ _ _].
    pose proof (MatchCount_split ni a ltac:(lia) Hmp Hml) as Hsplit.
    change (shl32 (Address a) (MatchCount ni a))
      with (Address (ShiftLeft a (MatchCount ni a))) in Hsplit.
    rewrite Hsplit, negb_involutive in Hc1. rewrite Hc1.
    rewrite (matching_path_exact fuel t' k2 nk2 _ ab ltac:(lia) Hnk2)
      by (by rewrite Hpb2).
    rewrite !path_tags_cons, path_tags_nil, app_nil_r.
    rewrite (node_tags_nil t' k1 nk1 Hnk1 Ht1), app_nil_l.
    apply (node_tags_single t' k2 nk2 tag Hnk2 Ht2).
    rewrite Htags. apply lookup_insert_eq.
Qed.


(** The loop of [Add] adds the tag at the end of the matching path. *)
Lemma Add_loop_adds fuel :
  ∀ fuel' p np s i a acc,
    at_path live t ab p i a acc →
    live p → nodes t !! p = Some np → child s np = i → i ≠ 0 →
    isLeftBit (Address a) = s → Length a ≤ fuel → Length a ≤ fuel' →
    ∃ t' a' c',
      Add_loop fuel t p i a tag = Ok (t', a') ∧
      adds_tag live depth t t' ab tag fuel' p s i c' acc.
Proof.
  induction fuel as [|fuel IH]; intros fuel' p np s i a acc Hat Hp Hnp Hch Hi Hbit Hf Hf'.
  { destruct Hat. lia. }
  destruct fuel' as [|fuel']; [destruct Hat; lia|].
  pose proof (at_length _ _ _ _ _ _ _ Hat) as Hlen.
  pose proof (at_range _ _ _ _ _ _ _ Hat) as Hr.
  destruct (inv_at_child _ _ _ _ _ _ _ _ Hinv Hp Hnp Hch Hi)
    as (Hli & Hpi & Hnch & Hi1 & ni & Hni & Hbi & Hleni & Hri & Hdi).
  pose proof (alloc_ok_inv _ _ _ _ Hinv) as Hal.
  assert (Hm1 : 1 ≤ MatchCount ni a).
  { apply MatchCount_pos; try done; try lia. congruence. }
  assert (Hdep : depth p < depth i) by lia.
  destruct (lookup_step _ _ _ _ _ _ _ _ _ Hinv Hat Hi) as (n & next & Hn & Hstep & Hnext).
  rewrite Hni in Hn. injection Hn as <-.
  pose proof (matching_path_step t ab i a acc ni next fuel' Hi Hni Hstep) as Hold.
  destruct Hstep as [Hlt Hpre ->|He1 He2 Hpre Hnone ->|b He1 Hlt Hpre Hsome Hbitb ->].
  - apply Nat.ltb_lt in Hlt as Hltb. rewrite Hltb in Hold.
    destruct (decide (MatchCount ni a = Length a)) as [Hml|Hml].
    + destruct (Add_loop_above live fuel t p np s i ni a tag)
        as (t' & k & Hadd & Hk & Hkr & Hnk & Hni' & Hnp' & Hfr & Htags & Hal' & Hlen');
        try done; try lia.
      exists t', a, k. split; [done|].
      apply (adds_tag_above fuel' p np s i a acc t' k
               (set_child (isLeftBit (shl32 (prefix ni) (Length a))) i
                  (mkNode 0 0 (Address a) (Length a) 1)));
        try done; try lia.
      * by rewrite prefix_set_child.
      * by rewrite prefixLength_set_child.
      * by rewrite TagCount_set_child.
    + destruct (MatchCount_le ni a) as [_ Hma].
      destruct fuel' as [|fuel']; [lia|].
      destruct (Add_loop_split live fuel t p np s i ni a tag)
        as (t' & k1 & k2 & Hadd & Hk1 & Hkr1 & Hk2 & Hkr2 & Hk21 & Hnk1 & Hnk2 & Hni' & Hnp'
            & Hfr & Htags & Hal' & Hlen'); try done; try lia.
      exists t', (ShiftLeft a (MatchCount ni a)), k1. split; [done|].
      apply (adds_tag_split fuel' p np s i ni a acc t' k1 k2
               (set_child (negb (isLeftBit (shl32 (prefix ni) (MatchCount ni a)))) k2
                  (set_child (isLeftBit (shl32 (prefix ni) (MatchCount ni a))) i
                     (mkNode 0 0 (Address a) (MatchCount ni a) 0)))
               (mkNode 0 0 (Address (ShiftLeft a (MatchCount ni a)))
                  (Length (ShiftLeft a (MatchCount ni a))) 1));
        try done; try lia.
      * by rewrite !prefix_set_child.
      * by rewrite !prefixLength_set_child.
      * by rewrite !TagCount_set_child.
      * by rewrite child_set_child_eq.
  - rewrite (Add_loop_exact fuel t p i ni a tag) by done.
    eexists _, a, i. split; [done|].
    by apply (adds_tag_exact fuel' p np s i ni a acc).
  - destruct (Hnext _ _ eq_refl) as [Hat' Hlen'].
    set (a1 := ShiftLeft a (MatchCount ni a)) in *.
    set (acc' := acc ++ prefix_bits ni) in *.
    assert (Hstep : ∃ t' a' c',
              (if child (negb b) ni =? 0
               then addLeaf t i (negb b) a1 tag ≫= λ t0, Ok (t0, a1)
               else Add_loop fuel t i (child (negb b) ni) a1 tag) = Ok (t', a') ∧
              adds_tag live depth t t' ab tag fuel' i (negb b) (child (negb b) ni) c' acc').
    { destruct (decide (child (negb b) ni = 0)) as [Hc0|Hc0].
      - rewrite (eqb_true_of _ _ Hc0).
        destruct (addLeaf_spec live t i ni (negb b) a1 tag Hal Hli Hni)
          as (t' & k & Hadd & Hla).
        rewrite Hadd. cbn [mbind result_mbind result_bind].
        exists t', a1, k. split; [done|]. rewrite Hc0.
        pose proof (at_length _ _ _ _ _ _ _ Hat') as Hlen1.
        destruct fuel' as [|fuel']; [lia|].
        apply (adds_tag_leaf fuel' i ni (negb b) k a1 acc' t' Hli Hni Hc0 Hla).
        apply (at_path_whole _ _ _ _ _ _ _ Hat').
      - rewrite (eqb_false_of _ _ Hc0).
        apply (IH fuel' i ni (negb b) (child (negb b) ni) a1 acc' Hat' Hli Hni eq_refl Hc0);
          [done|lia|lia]. }
    destruct Hstep as (t' & a' & c' & Hrun & Hadds).
    exists t', a', i. split.
    + cbn [Add_loop]. rewrite (eqb_false_of _ _ Hi), (getNode_Some _ _ _ Hni).
      cbn [mbind result_mbind result_bind].
      rewrite (eqb_false_of (prefixLength ni) 0), (eqb_false_of (MatchCount ni a) 0) by lia.
      rewrite (eqb_false_of (MatchCount ni a) (Length a)) by lia.
      rewrite (eqb_true_of _ _ He1). fold a1. rewrite Hbitb.
      by destruct b.
    + by apply (adds_tag_lift fuel' p np s i ni acc b c' t').
Qed.

End add_path.

(** [Add] adds the tag at the end of the matching path of the address. *)
Lemma Add_adds fuel t address tag :
  inv t → key_room 1 t → oaddr_ok address → 32 ≤ fuel →
  ∃ t' address',
    Add fuel t address tag = Ok (t', address') ∧
    path_tags t' (matching_nodes t' address)
    = path_tags t (matching_nodes t address) ++ [tag].
Proof.
  intros (live & depth & parent & Hinv) Hroom Hok Hfuel.
  pose proof (inv_root _ _ _ _ Hinv) as Hr.
  destruct (inv_lookup Hinv 1 Hr) as [root Hroot].
  pose proof (alloc_ok_inv _ _ _ _ Hinv) as Hal.
  destruct (key_room_count _ _ _ Hroom Hroot) as (Hx1 & _ & Hc1).
  assert (Hat_root : ∃ t',
            addTag t tag 1 = Ok t' ∧ path_tags t' [1] = path_tags t [1] ++ [tag]).
  { rewrite (addTag_Ok _ _ _ _ Hroot). eexists. split; [done|].
    rewrite !path_tags_cons, !path_tags_nil, !app_nil_r.
    apply (node_tags_snoc _ _ 1 root (set_TagCount (S (TagCount root)) root) tag Hroot);
      try done.
    by rewrite nodes_updNode_same, nodes_setTags, Hroot. }
  unfold Add. rewrite (getNode_Some _ _ _ Hroot). cbn [mbind result_mbind result_bind].
  destruct address as [a|].
  2:{ destruct Hat_root as (t' & -> & Htags). by exists t', None. }
  destruct (decide (Length a = 0)) as [Hz|Hz].
  { rewrite (eqb_true_of _ _ Hz). destruct Hat_root as (t' & -> & Htags).
    exists t', (Some a). split; [done|]. by rewrite !(matching_nodes_root_only _ _ Hz). }
  rewrite (eqb_false_of _ _ Hz).
  destruct (at_path_root _ _ _ _ root a Hinv Hroot Hok ltac:(lia)) as [Hat [bs Hbits]].
  destruct Hok as [Hrange Hlen].
  set (s := isLeftBit (Address a)) in *.
  assert (Hstep : ∃ t' a' c',
            (if child s root =? 0
             then addLeaf t 1 s a tag ≫= λ t0, Ok (t0, Some a)
             else Add_loop fuel t 1 (child s root) a tag ≫= λ '(t0, a0), Ok (t0, Some a0))
            = Ok (t', a') ∧
            adds_tag live depth t t' (address_bits a) tag (Length a) 1 s (child s root) c' []).
  { destruct (decide (child s root = 0)) as [Hc0|Hc0].
    - rewrite (eqb_true_of _ _ Hc0).
      destruct (addLeaf_spec live t 1 root s a tag Hal Hr Hroot) as (t' & k & Hadd & Hla).
      rewrite Hadd. cbn [mbind result_mbind result_bind].
      exists t', (Some a), k. split; [done|]. rewrite Hc0.
      destruct (Length a) as [|l] eqn:Hl; [done|].
      by apply (adds_tag_leaf live depth t (address_bits a) tag Hroom l 1 root s k a [] t').
    - rewrite (eqb_false_of _ _ Hc0).
      destruct (Add_loop_adds live depth parent t (address_bits a) tag Hinv Hroom
                  fuel (Length a) 1 root s (child s root) a [] Hat Hr Hroot eq_refl Hc0)
        as (t' & a' & c' & -> & Hadds); [done|lia|lia|].
      cbn [mbind result_mbind result_bind]. by exists t', (Some a'), c'. }
  destruct Hstep as (t' & a' & c' & Hrun & Hc' & Hframe & Hpath).
  exists t', a'. split.
  { rewrite <- Hrun. unfold s. by destruct (isLeftBit (Address a)). }
  destruct (Hframe 1 root Hr (le_n _) Hroot) as [Hroot' Htags1].
  rewrite decide_True in Hroot' by done.
  rewrite (matching_nodes_below_root t a root bs Hroot Hbits).
  rewrite (matching_nodes_below_root t' a _ bs Hroot' Hbits).
  fold s. replace (if s then Left (set_child s c' root) else Right (set_child s c' root))
    with c' by (by destruct s).
  replace (if s then Left root else Right root) with (child s root) by done.
  by rewrite !path_tags_cons, Hpath, Htags1, app_assoc.
Qed.

(** X14: on a tree built by [Add] and [Delete] with room left in the tag
    keys, [FindTags] for an address, after [Add] of a tag at that
    address, returns what it returned before followed by the new tag. *)
Theorem Add_then_FindTags (fuel : nat) (t : TreeV4) (address : option IPv4Address)
    (tag : uint16) :
  built t → key_room 1 t → oaddr_ok address → 32 ≤ fuel →
  ∃ found t' a1 a2 a3,
    FindTags fuel t address = Ok (found, a1) ∧
    Add fuel t address tag = Ok (t', a2) ∧
    FindTags fuel t' address = Ok (found ++ [tag], a3).
Proof.
  intros Hb Hroom Hok Hfuel. pose proof (built_inv t Hb) as Hinv.
  destruct (FindTags_path fuel t address Hinv Hok Hfuel) as (a1 & Hfind).
  destruct (Add_adds fuel t address tag Hinv Hroom Hok Hfuel) as (t' & a2 & Hadd & Hpath).
  destruct (Add_inv fuel t address tag Hinv Hok Hfuel) as (t'' & a2' & Hadd' & Hinv').
  rewrite Hadd in Hadd'. injection Hadd' as <- <-.
  destruct (FindTags_path fuel t' address Hinv' Hok Hfuel) as (a3 & Hfind').
  eexists _, t', a1, a2, a3. split; [exact Hfind|]. split; [exact Hadd|].
  rewrite Hfind'. unfold path_tags in Hpath. by rewrite Hpath.
Qed.

Lemma Add_then_FindTags_witness :
  ∃ found t' a1 a2 a3,
    FindTags 32 example_tree (cidr 10 0 0 0 12) = Ok (found, a1) ∧
    Add 32 example_tree (cidr 10 0 0 0 12) 9%Z = Ok (t', a2) ∧
    FindTags 32 t' (cidr 10 0 0 0 12) = Ok (found ++ [9%Z], a3).
Proof.
  apply (Add_then_FindTags 32 example_tree (cidr 10 0 0 0 12) 9%Z
           example_tree_built example_tree_key_room).
  - split; simpl; lia.
  - lia.
Defined.

(** ** Lookups after a Delete that keeps the node *)

Lemma same_shape_prefix_bits t t' j nj nj' :
  same_shape t t' → nodes t !! j = Some nj → nodes t' !! j = Some nj' →
  prefix_bits nj' = prefix_bits nj ∧ Left nj' = Left nj ∧ Right nj' = Right nj.
Proof.
  intros (_ & _ & Hsh) Hnj Hnj'. destruct (Hsh j nj Hnj) as (n & Hn & Hl & Hr & Hp & Hpl).
  rewrite Hnj' in Hn. injection Hn as <-. unfold prefix_bits. by rewrite Hp, Hpl.
Qed.

Lemma same_shape_lookup_None t t' j :
  same_shape t t' → nodes t !! j = None → nodes t' !! j = None.
Proof.
  intros (Hlen & _) Hn. apply lookup_ge_None. apply lookup_ge_None in Hn. lia.
Qed.

Lemma matching_path_same_shape t t' ab :
  same_shape t t' →
  ∀ fuel i acc, matching_path fuel t' i acc ab = matching_path fuel t i acc ab.
Proof.
  intros Hsh. induction fuel as [|fuel IH]; intros i acc; [done|]. simpl.
  destruct (i =? 0); [done|].
  destruct (nodes t !! i) as [n|] eqn:Hn.
  - destruct Hsh as (Hlen & Hfree & Hnodes).
    destruct (Hnodes i n Hn) as (n' & -> & Hl & Hr & Hp & Hpl).
    assert (Hpb : prefix_bits n' = prefix_bits n) by (unfold prefix_bits; by rewrite Hp, Hpl).
    rewrite Hpb, Hl, Hr. destruct (is_prefix _ _); [|done].
    destruct (ab !! _) as [b|]; [|done]. by rewrite IH.
  - by rewrite (same_shape_lookup_None t t' i Hsh Hn).
Qed.

Lemma matching_nodes_same_shape t t' address :
  same_shape t t' → matching_nodes t' address = matching_nodes t address.
Proof.
  intros Hsh. unfold matching_nodes. destruct address as [a|]; [|done].
  destruct (nodes t !! 1) as [root|] eqn:Hroot.
  - pose proof Hsh as (Hlen & Hfree & Hnodes).
    destruct (Hnodes 1 root Hroot) as (root' & -> & Hl & Hr & _).
    destruct (address_bits a) as [|b bs]; [done|].
    by rewrite Hl, Hr, (matching_path_same_shape t t' _ Hsh).
  - by rewrite (same_shape_lookup_None t t' 1 Hsh Hroot).
Qed.

(** The nodes of a matching path are nodes of the arena. *)
Lemma matching_path_lookup t ab fuel :
  ∀ i acc j, j ∈ matching_path fuel t i acc ab → ∃ nj, nodes t !! j = Some nj.
Proof.
  induction fuel as [|fuel IH]; intros i acc j; simpl; [by intros ?%elem_of_nil|].
  destruct (i =? 0); [by intros ?%elem_of_nil|].
  destruct (nodes t !! i) as [n|] eqn:Hn; [|by intros ?%elem_of_nil].
  destruct (is_prefix _ _); [|by intros ?%elem_of_nil].
  intros [->|Hj]%elem_of_cons; [by exists n|].
  destruct (ab !! _) as [b|]; [by eapply IH|by apply elem_of_nil in Hj].
Qed.

Lemma matching_nodes_lookup t address root j :
  nodes t !! 1 = Some root → j ∈ matching_nodes t address → ∃ nj, nodes t !! j = Some nj.
Proof.
  intros Hroot. unfold matching_nodes. intros [->|Hj]%elem_of_cons; [by exists root|].
  destruct address as [a|]; [|by apply elem_of_nil in Hj]. rewrite Hroot in Hj.
  destruct (address_bits a) as [|b bs]; [by apply elem_of_nil in Hj|].
  by eapply matching_path_lookup.
Qed.

(** The tags along a path when one node of the tree had its tags
    replaced by [kept]. *)
Lemma path_tags_replaced t t' ti kept path :
  key_room 0 t →
  (∀ j, j ∈ path → ∃ nj, nodes t !! j = Some nj) →
  tagsForNode t' ti = Ok kept → other_tags_kept t t' ti →
  path_tags t' path
  = concat (map (λ j, if decide (j = ti) then kept else node_tags t j) path).
Proof.
  intros Hroom Hpath Hti Hother. unfold path_tags. f_equal.
  apply map_ext_in. intros j Hj%list_elem_of_In.
  destruct (Hpath j Hj) as [nj Hnj].
  case_decide as Hjt.
  - subst j. unfold node_tags. by rewrite Hti.
  - destruct (key_room_node _ _ _ _ Hroom Hnj) as [Hx Hc].
    unfold node_tags. by rewrite (Hother j nj Hjt Hnj Hx Hc).
Qed.

(** X15: after a [Delete] that leaves at least one tag at the address,
    [FindTags] for any address returns what it returned before without
    the deleted tags: the same nodes match, the node of the deleted
    address contributes the tags [matchFunc] rejected and every other
    node the tags it had. *)
Theorem Delete_then_FindTags (fuel : nat) (t : TreeV4) (a : IPv4Address)
    (f : MatchesFunc) (v : uint16) (ti : nat) (b : option IPv4Address) :
  built t → key_room 0 t → addr_ok a → oaddr_ok b → 32 ≤ fuel →
  stored_at t a = Some ti →
  filter (λ tag, f tag v = false) (node_tags t ti) ≠ [] →
  ∃ c t' a' b',
    Delete fuel t (Some a) f v = Ok (c, t', Some a') ∧
    FindTags fuel t' b
    = Ok (concat (map (λ j, if decide (j = ti)
                            then filter (λ tag, f tag v = false) (node_tags t j)
                            else node_tags t j)
                      (matching_nodes t b)), b').
Proof.
  intros Hb Hroom Hok Hokb Hfuel Hat Hkept.
  pose proof (built_inv t Hb) as Hinv.
  destruct (Delete_by_stored_at fuel t a f v Hb Hroom Hok Hfuel) as (c & t' & a' & HD & Hst).
  rewrite Hat in Hst. destruct Hst as (pi & nti & Hnti & Hi & Hc & Htarget).
  destruct (Delete_target_spec _ _ _ _ _ _ _ _ Hnti Hi Hc Htarget) as (_ & _ & Hrest).
  destruct Hrest as (Htags & Hshape & Hother); [by left|].
  destruct (Delete_inv fuel t (Some a) f v Hinv Hok Hfuel) as (c2 & t2 & a2 & HD2 & Hinv').
  rewrite HD in HD2. injection HD2 as <- <- <-.
  destruct (FindTags_path fuel t' b Hinv' Hokb Hfuel) as (b' & Hfind).
  exists c, t', a', b'. split; [done|]. rewrite Hfind. do 2 f_equal.
  rewrite (matching_nodes_same_shape t t' b Hshape).
  destruct Hinv as (live & depth & parent & Hinv).
  destruct (inv_lookup Hinv 1 (inv_root _ _ _ _ Hinv)) as [root Hroot].
  change (concat (map (node_tags t') (matching_nodes t b)))
    with (path_tags t' (matching_nodes t b)).
  rewrite (path_tags_replaced t t' ti (filter (λ tag, f tag v = false) (node_tags t ti))
             (matching_nodes t b) Hroom); try done.
  - f_equal. apply map_ext_in. intros j _. case_decide; [by subst|done].
  - intros j Hj. by eapply matching_nodes_lookup.
Qed.

Lemma Delete_then_FindTags_witness :
  ∃ c t' a' b',
    Delete 32 example_tree (Some (mkAddr 167772160 16)) matchEq 9%Z = Ok (c, t', Some a') ∧
    FindTags 32 t' (cidr 10 0 0 1 32)
    = Ok (concat (map (λ j, if decide (j = 5)
                            then filter (λ tag, matchEq tag 9%Z = false)
                                        (node_tags example_tree j)
                            else node_tags example_tree j)
                      (matching_nodes example_tree (cidr 10 0 0 1 32))), b').
Proof.
  apply (Delete_then_FindTags 32 example_tree (mkAddr 167772160 16) matchEq 9%Z 5
           (cidr 10 0 0 1 32)
           example_tree_built (key_room_le 1 0 _ (Nat.le_0_l 1) example_tree_key_room)).
  - split; simpl; lia.
  - split; simpl; lia.
  - lia.
  - vm_compute. reflexivity.
  - vm_compute. intros H. discriminate H.
Defined.

(** ** FindDeepestTag and FindTags on any tree *)

Lemma deepest_in_app found tag tgs t i n :
  nodes t !! i = Some n → deepest_in found tag tgs →
  deepest_in (if 0 <? TagCount n then true else found)
             (if 0 <? TagCount n then firstTagForNode t i else tag)
             (tgs ++ node_tags t i).
Proof.
  intros Hn Hin. pose proof (firstTagForNode_head t i n Hn) as Hhead.
  destruct (0 <? TagCount n) eqn:Hc.
  - simpl. apply elem_of_app. right.
    destruct (node_tags t i) as [|x l]; [done|]. injection Hhead as ->. by left.
  - apply Nat.ltb_ge in Hc. rewrite (node_tags_nil t i n Hn) by lia.
    by rewrite app_nil_r.
Qed.

Lemma lookup_loops_agree t fuel :
  ∀ i a found tag tgs,
    deepest_in found tag tgs →
    lookups_agree (FindDeepestTag_loop fuel t i a found tag)
                  (FindTags_loop fuel t i a tgs).
Proof.
  induction fuel as [|fuel IH]; intros i a found tag tgs Hin; [done|].
  cbn [FindDeepestTag_loop FindTags_loop].
  destruct (i =? 0); [done|].
  destruct (getNode t i) as [n| |] eqn:Hget; [|done..].
  apply getNode_Ok in Hget. cbn [mbind result_mbind result_bind].
  destruct (MatchCount n a <? prefixLength n); [done|].
  rewrite (tags_if_any _ _ _ Hget). cbn [mbind result_mbind result_bind].
  pose proof (deepest_in_app found tag tgs t i n Hget Hin) as Hin'.
  destruct (0 <? TagCount n); (destruct (MatchCount n a =? Length a); [done|by apply IH]).
Qed.

(** X16: on every tree and address, [FindDeepestTag] and [FindTags]
    agree: they fail together or return together with the address in
    the same state, a tag that [FindDeepestTag] finds is among the tags
    [FindTags] returns, and it finds none only when [FindTags] returns no
    tag. *)
Theorem FindDeepestTag_agrees_with_FindTags (fuel : nat) (t : TreeV4) (a : IPv4Address) :
  lookups_agree (FindDeepestTag fuel t (Some a)) (FindTags fuel t (Some a)).
Proof.
  unfold FindDeepestTag, FindTags.
  destruct (getNode t 1) as [root| |] eqn:Hget; [|done..].
  apply getNode_Ok in Hget. cbn [mbind result_mbind result_bind].
  rewrite (tags_if_any _ _ _ Hget). cbn [mbind result_mbind result_bind].
  pose proof (deepest_in_app false 0%Z [] t 1 root Hget eq_refl) as Hin.
  rewrite app_nil_l in Hin.
  destruct (0 <? TagCount root).
  - destruct (Length a =? 0); [done|].
    pose proof (lookup_loops_agree t fuel
                  (if isLeftBit (Address a) then Left root else Right root) a
                  true (firstTagForNode t 1) (node_tags t 1) Hin) as Hloop.
    destruct (FindDeepestTag_loop _ _ _ _ _ _) as [[[found tag] a1]| |];
      destruct (FindTags_loop _ _ _ _ _) as [[tgs a2]| |]; try done.
    destruct Hloop as [-> ?]. done.
  - destruct (Length a =? 0); [done|].
    pose proof (lookup_loops_agree t fuel
                  (if isLeftBit (Address a) then Left root else Right root) a
                  false 0%Z (node_tags t 1) Hin) as Hloop.
    destruct (FindDeepestTag_loop _ _ _ _ _ _) as [[[found tag] a1]| |];
      destruct (FindTags_loop _ _ _ _ _) as [[tgs a2]| |]; try done.
    destruct Hloop as [-> ?]. done.
Qed.

(** ** The nodes below a node *)

Section below_facts.
Context {live : nat → Prop} {depth parent : nat → nat} {t : TreeV4}.
Hypothesis Hinv : inv_with live depth parent t.

Lemma below_live c j : live c → below t c j → live j.
Proof.
  intros Hc. induction 1 as [|i n s _ IH Hn Hch]; [done|].
  by destruct (inv_child _ _ _ _ Hinv i n s IH Hn Hch).
Qed.

Lemma below_depth c j : live c → below t c j → j = c ∨ depth c < depth j.
Proof.
  intros Hc. induction 1 as [|i n s Hb IH Hn Hch]; [by left|]. right.
  pose proof (inv_child_depth Hinv i n s (below_live c i Hc Hb) Hn Hch). 
  destruct IH as [->|IH]; lia.
Qed.

Lemma below_trans c i j : below t c i → below t i j → below t c j.
Proof. intros Hci. induction 1; [done|]. by eapply below_child. Qed.

Lemma below_child_of c n s : nodes t !! c = Some n → child s n ≠ 0 → below t c (child s n).
Proof. intros Hn Hch. eapply below_child; [apply below_refl|done..]. Qed.

(** A node has one parent. *)
Lemma parent_unique i i' n n' s s' :
  live i → live i' → nodes t !! i = Some n → nodes t !! i' = Some n' →
  child s n ≠ 0 → child s n = child s' n' → i = i' ∧ n = n' ∧ s = s'.
Proof.
  intros Hi Hi' Hn Hn' Hc He.
  assert (Hc' : child s' n' ≠ 0) by congruence.
  destruct (inv_child _ _ _ _ Hinv i n s Hi Hn Hc) as (_ & Hp & _).
  destruct (inv_child _ _ _ _ Hinv i' n' s' Hi' Hn' Hc') as (_ & Hp' & _).
  assert (i = i') by congruence. subst i'.
  assert (n' = n) by congruence. subst n'.
  split; [done|]. split; [done|].
  destruct (decide (s = s')) as [|Hs]; [done|].
  by destruct (inv_sides_ne _ _ _ _ i n s s' Hinv Hi Hn Hc Hs).
Qed.

(** The nodes above a node form a chain. *)
Lemma below_chain c c' j :
  live c → live c' → below t c j → below t c' j → below t c c' ∨ below t c' c.
Proof.
  intros Hc Hc' Hb. revert c' Hc'.
  induction Hb as [|i n s Hb IH Hn Hch]; intros c' Hc' Hb'; [by right|].
  inversion Hb' as [Heq|i' n' s' Hb'' Hn' Hch' Heq].
  - left. by eapply below_child.
  - destruct (parent_unique i' i n' n s' s) as (-> & -> & ->); try done.
    + apply (below_live c' i' Hc' Hb'').
    + apply (below_live c i Hc Hb).
    + by apply IH.
Qed.

(** The subtrees of the two children of a node share no node. *)
Lemma siblings_apart q nq s j :
  live q → nodes t !! q = Some nq →
  child s nq ≠ 0 → child (negb s) nq ≠ 0 →
  below t (child s nq) j → ¬ below t (child (negb s) nq) j.
Proof.
  intros Hq Hnq Hc Hc' Hb Hb'.
  destruct (inv_child _ _ _ _ Hinv q nq s Hq Hnq Hc) as (Hl & _).
  destruct (inv_child _ _ _ _ Hinv q nq (negb s) Hq Hnq Hc') as (Hl' & _).
  pose proof (inv_child_depth Hinv q nq s Hq Hnq Hc) as Hd.
  pose proof (inv_child_depth Hinv q nq (negb s) Hq Hnq Hc') as Hd'.
  assert (Hne : child s nq ≠ child (negb s) nq).
  { apply (inv_sides_ne _ _ _ _ q nq s (negb s) Hinv Hq Hnq Hc). by destruct s. }
  assert (Hno : ∀ s1 s2, s1 ≠ s2 → child s1 nq ≠ 0 → child s2 nq ≠ 0 →
                         live (child s1 nq) → depth q < depth (child s1 nq) →
                         ¬ below t (child s1 nq) (child s2 nq)).
  { intros s1 s2 Hs Hc1 Hc2 Hl1 Hd1 Hbel.
    inversion Hbel as [Heq|i' n' s'' Hb'' Hn' Hch' Heq].
    - by apply (inv_sides_ne _ _ _ _ q nq s2 s1 Hinv Hq Hnq Hc2).
    - destruct (parent_unique i' q n' nq s'' s2) as (-> & -> & ->); try done.
      + apply (below_live _ i' Hl1 Hb'').
      + destruct (below_depth _ _ Hl1 Hb'') as [Heq'|Hlt]; [|lia].
        rewrite <- Heq' in Hd1. lia. }
  destruct (below_chain _ _ j Hl Hl' Hb Hb') as [Hbel|Hbel].
  - by apply (Hno s (negb s)); [destruct s|..].
  - by apply (Hno (negb s) s); [destruct s|..].
Qed.

End below_facts.

(** ** Counting nodes and tags *)

Lemma countNodes_by fuel t i : countNodes fuel t i = count_by (λ _, 1) fuel t i.
Proof.
  revert i. induction fuel as [|fuel IH]; intros i; [done|]. simpl.
  destruct (getNode t i) as [n| |]; [|done..]. simpl. by rewrite !IH.
Qed.

Lemma countTags_by fuel t i : countTags fuel t i = count_by TagCount fuel t i.
Proof.
  revert i. induction fuel as [|fuel IH]; intros i; [done|]. simpl.
  destruct (getNode t i) as [n| |]; [|done..]. simpl. by rewrite !IH.
Qed.

(** One step of a count at a node of the arena. *)
Lemma count_by_step w fuel t i n :
  nodes t !! i = Some n →
  count_by w (S fuel) t i
  = (l ← (if Left n =? 0 then Ok 0 else count_by w fuel t (Left n));
     r ← (if Right n =? 0 then Ok 0 else count_by w fuel t (Right n));
     Ok (w n + l + r)).
Proof. intros Hn. simpl. by rewrite (getNode_Some _ _ _ Hn). Qed.

(** More fuel does not change a count that has returned. *)
Lemma count_by_mono w t fuel :
  ∀ fuel' i x, count_by w fuel t i = Ok x → fuel ≤ fuel' → count_by w fuel' t i = Ok x.
Proof.
  induction fuel as [|fuel IH]; intros fuel' i x Hc Hf; [done|].
  destruct fuel' as [|fuel']; [lia|]. simpl in *.
  destruct (getNode t i) as [n| |]; [|done..]. simpl in *.
  destruct (Left n =? 0).
  - simpl in *. destruct (Right n =? 0); [done|].
    destruct (count_by w fuel t (Right n)) as [r| |] eqn:Hr; [|done..].
    by rewrite (IH fuel' _ r Hr ltac:(lia)).
  - destruct (count_by w fuel t (Left n)) as [l| |] eqn:Hl; [|done..].
    rewrite (IH fuel' _ l Hl ltac:(lia)). simpl in *.
    destruct (Right n =? 0); [done|].
    destruct (count_by w fuel t (Right n)) as [r| |] eqn:Hr; [|done..].
    by rewrite (IH fuel' _ r Hr ltac:(lia)).
Qed.

Section count_facts.
Context {live : nat → Prop} {depth parent : nat → nat} {t : TreeV4}.
Hypothesis Hinv : inv_with live depth parent t.

(** What a child pointer of a live node leads to. *)
Lemma child_cases i n s fuel :
  live i → nodes t !! i = Some n → 33 ≤ depth i + S fuel →
  child s n = 0 ∨
  (child s n ≠ 0 ∧ live (child s n) ∧ 33 ≤ depth (child s n) + fuel).
Proof.
  intros Hi Hn Hf. destruct (decide (child s n = 0)) as [|Hc]; [by left|]. right.
  destruct (inv_child _ _ _ _ Hinv i n s Hi Hn Hc) as (Hl & _).
  pose proof (inv_child_depth Hinv i n s Hi Hn Hc).
  pose proof (inv_depth _ _ _ _ Hinv _ Hl). split; [done|]. split; [done|lia].
Qed.

(** A count from a live node returns the weight of its subtree, with 33
    levels of recursion at most. *)
Lemma count_by_subtree w fuel :
  ∀ i, live i → 33 ≤ depth i + fuel →
       count_by w fuel t i = Ok (sum_list_with (weight_at w t) (subtree fuel t i)).
Proof.
  induction fuel as [|fuel IH]; intros i Hi Hf.
  { pose proof (inv_depth _ _ _ _ Hinv i Hi). lia. }
  destruct (inv_lookup Hinv i Hi) as [n Hn].
  rewrite (count_by_step w fuel t i n Hn). cbn [subtree]. rewrite Hn.
  cbn [sum_list_with]. rewrite sum_list_with_app.
  unfold weight_at at 1. rewrite Hn.
  assert (Hside : ∀ s,
            (if child s n =? 0 then Ok 0 else count_by w fuel t (child s n))
            = Ok (sum_list_with (weight_at w t)
                    (if child s n =? 0 then [] else subtree fuel t (child s n)))).
  { intros s. destruct (child_cases i n s fuel Hi Hn Hf) as [Hz|(Hnz & Hl & Hfc)].
    - by rewrite (eqb_true_of _ _ Hz).
    - rewrite (eqb_false_of _ _ Hnz). by apply IH. }
  pose proof (Hside true) as Hl. pose proof (Hside false) as Hr. simpl in Hl, Hr.
  rewrite Hl. cbn [mbind result_mbind result_bind]. rewrite Hr.
  cbn [mbind result_mbind result_bind]. f_equal. lia.
Qed.

Lemma subtree_below fuel : ∀ i j, j ∈ subtree fuel t i → below t i j.
Proof.
  induction fuel as [|fuel IH]; intros i j; simpl; [by intros ?%elem_of_nil|].
  destruct (nodes t !! i) as [n|] eqn:Hn; [|by intros ?%elem_of_nil].
  intros [->|[Hj|Hj]%elem_of_app]%elem_of_cons; [apply below_refl|..].
  - destruct (Nat.eqb_spec (Left n) 0) as [|Hc]; [by apply elem_of_nil in Hj|].
    eapply below_trans; [apply (below_child_of i n true Hn Hc)|by apply IH].
  - destruct (Nat.eqb_spec (Right n) 0) as [|Hc]; [by apply elem_of_nil in Hj|].
    eapply below_trans; [apply (below_child_of i n false Hn Hc)|by apply IH].
Qed.

Lemma subtree_self fuel i : live i → i ∈ subtree (S fuel) t i.
Proof.
  intros Hi. destruct (inv_lookup Hinv i Hi) as [n Hn]. simpl. rewrite Hn. by left.
Qed.

Lemma subtree_child fuel :
  ∀ i j n s, live i → 33 ≤ depth i + fuel → j ∈ subtree fuel t i →
             nodes t !! j = Some n → child s n ≠ 0 → child s n ∈ subtree fuel t i.
Proof.
  induction fuel as [|fuel IH]; intros i j n s Hi Hf; simpl; [by intros ?%elem_of_nil|].
  destruct (inv_lookup Hinv i Hi) as [ni Hni]. rewrite Hni.
  intros Hj Hn Hc. right. apply elem_of_app.
  assert (Hside : ∀ s', child s' ni ≠ 0 →
            live (child s' ni) ∧ 33 ≤ depth (child s' ni) + fuel).
  { intros s' Hs'. by destruct (child_cases i ni s' fuel Hi Hni Hf) as [?|(_ & ? & ?)]. }
  apply elem_of_cons in Hj as [->|Hj].
  - rewrite Hni in Hn. injection Hn as <-.
    destruct (Hside s Hc) as [Hl Hfc].
    destruct fuel as [|fuel]; [pose proof (inv_depth _ _ _ _ Hinv _ Hl); lia|].
    destruct s; [left|right]; simpl in Hc |- *; rewrite (eqb_false_of _ _ Hc);
      by apply subtree_self.
  - apply elem_of_app in Hj as [Hj|Hj]; [left|right].
    + destruct (Nat.eqb_spec (Left ni) 0) as [|Hcl]; [by apply elem_of_nil in Hj|].
      destruct (Hside true Hcl) as [Hl Hfc]. by apply (IH _ j n s).
    + destruct (Nat.eqb_spec (Right ni) 0) as [|Hcr]; [by apply elem_of_nil in Hj|].
      destruct (Hside false Hcr) as [Hl Hfc]. by apply (IH _ j n s).
Qed.

Lemma below_subtree fuel i j :
  live i → 33 ≤ depth i + fuel → below t i j → j ∈ subtree fuel t i.
Proof.
  intros Hi Hf. induction 1 as [|i' n s Hb IH Hn Hc].
  - destruct fuel as [|fuel]; [pose proof (inv_depth _ _ _ _ Hinv _ Hi); lia|].
    by apply subtree_self.
  - by apply (subtree_child fuel i i' n s).
Qed.

Lemma subtree_NoDup fuel : ∀ i, live i → NoDup (subtree fuel t i).
Proof.
  induction fuel as [|fuel IH]; intros i Hi; simpl; [apply NoDup_nil_2|].
  destruct (inv_lookup Hinv i Hi) as [n Hn]. rewrite Hn.
  assert (Hside : ∀ s, child s n ≠ 0 →
            live (child s n) ∧
            ∀ j, j ∈ subtree fuel t (child s n) → below t (child s n) j ∧ j ≠ i).
  { intros s Hc. destruct (inv_child _ _ _ _ Hinv i n s Hi Hn Hc) as (Hl & _).
    split; [done|]. intros j Hj. pose proof (subtree_below _ _ _ Hj) as Hb.
    split; [done|]. pose proof (inv_child_depth Hinv i n s Hi Hn Hc) as Hd.
    destruct (below_depth Hinv _ _ Hl Hb) as [Hj0|Hlt]; intros ->;
      [rewrite <- Hj0 in Hd|]; lia. }
  apply NoDup_cons. split.
  - intros [Hj|Hj]%elem_of_app.
    + destruct (Nat.eqb_spec (Left n) 0) as [|Hc]; [by apply elem_of_nil in Hj|].
      destruct (Hside true Hc) as [_ Hall]. by destruct (Hall i Hj).
    + destruct (Nat.eqb_spec (Right n) 0) as [|Hc]; [by apply elem_of_nil in Hj|].
      destruct (Hside false Hc) as [_ Hall]. by destruct (Hall i Hj).
  - apply NoDup_app. split_and!.
    + destruct (Nat.eqb_spec (Left n) 0) as [|Hc]; [apply NoDup_nil_2|].
      apply IH. by destruct (Hside true Hc).
    + intros j Hjl Hjr.
      destruct (Nat.eqb_spec (Left n) 0) as [|Hcl]; [by apply elem_of_nil in Hjl|].
      destruct (Nat.eqb_spec (Right n) 0) as [|Hcr]; [by apply elem_of_nil in Hjr|].
      destruct (Hside true Hcl) as [_ Hall]. destruct (Hall j Hjl) as [Hbl _].
      destruct (Hside false Hcr) as [_ Hall']. destruct (Hall' j Hjr) as [Hbr _].
      by apply (siblings_apart Hinv i n true j Hi Hn Hcl Hcr Hbl).
    + destruct (Nat.eqb_spec (Right n) 0) as [|Hc]; [apply NoDup_nil_2|].
      apply IH. by destruct (Hside false Hc).
Qed.

End count_facts.

Lemma reachable_below t j : reachable t j ↔ below t 1 j.
Proof.
  split.
  - induction 1 as [|i n Hr IH Hn Hl|i n Hr IH Hn Hl]; [apply below_refl|..].
    + by apply (below_child t 1 i n true).
    + by apply (below_child t 1 i n false).
  - induction 1 as [|i n s Hb IH Hn Hc]; [apply reachable_root|].
    destruct s; [by eapply reachable_left|by eapply reachable_right].
Qed.

(** The nodes a count from the root visits: each reachable node, once. *)
Lemma visited_nodes t fuel :
  inv t → 33 ≤ fuel →
  NoDup (subtree fuel t 1) ∧
  (∀ j, j ∈ subtree fuel t 1 ↔ reachable t j) ∧
  (∀ w, count_by w fuel t 1 = Ok (sum_list_with (weight_at w t) (subtree fuel t 1))).
Proof.
  intros (live & depth & parent & Hinv) Hf.
  pose proof (inv_root _ _ _ _ Hinv) as Hr.
  assert (Hf' : 33 ≤ depth 1 + fuel) by lia.
  split; [by apply (subtree_NoDup Hinv)|]. split.
  - intros j. rewrite reachable_below. split.
    + apply (subtree_below fuel).
    + by apply (below_subtree Hinv).
  - intros w. by apply (count_by_subtree Hinv).
Qed.

Lemma sum_list_with_ext_in {A} (f g : A → nat) (l : list A) :
  (∀ x, x ∈ l → f x = g x) → sum_list_with f l = sum_list_with g l.
Proof.
  induction l as [|x l IH]; intros H; simpl; [done|].
  rewrite (H x) by (by left). rewrite IH; [done|]. intros y Hy. apply H. by right.
Qed.

Lemma sum_list_with_ones {A} (l : list A) : sum_list_with (λ _, 1) l = length l.
Proof. induction l as [|x l IH]; simpl; [done|]. by rewrite IH. Qed.

(** X17: on a tree built by [Add] and [Delete], [countNodes] from the
    root returns, within 33 levels of recursion, the number of nodes
    reachable from the root, each counted once. *)
Theorem countNodes_counts_reachable (fuel : nat) (t : TreeV4) :
  built t → 33 ≤ fuel →
  ∃ l, NoDup l ∧ (∀ j, j ∈ l ↔ reachable t j) ∧ countNodes fuel t 1 = Ok (length l).
Proof.
  intros Hb Hf. pose proof (built_inv t Hb) as Hinv.
  destruct (visited_nodes t fuel Hinv Hf) as (Hnd & Hin & Hcount).
  exists (subtree fuel t 1). split; [done|]. split; [done|].
  rewrite countNodes_by, Hcount. f_equal.
  rewrite <- sum_list_with_ones. apply sum_list_with_ext_in.
  intros j Hj. apply Hin in Hj.
  destruct Hinv as (live & depth & parent & Hinv).
  destruct (inv_lookup Hinv j (reachable_live _ _ _ _ _ Hinv Hj)) as [n Hn].
  unfold weight_at. by rewrite Hn.
Qed.

Lemma countNodes_counts_reachable_witness :
  ∃ l, NoDup l ∧ (∀ j, j ∈ l ↔ reachable example_tree j) ∧
       countNodes 33 example_tree 1 = Ok (length l).
Proof.
  apply (countNodes_counts_reachable 33 example_tree example_tree_built). lia.
Defined.

(** X18: on a tree built by [Add] and [Delete], [countTags] from the
    root returns the number of tags of the nodes reachable from the
    root, each node counted once. *)
Theorem countTags_counts_tags (fuel : nat) (t : TreeV4) :
  built t → 33 ≤ fuel →
  ∃ l, NoDup l ∧ (∀ j, j ∈ l ↔ reachable t j) ∧
       countTags fuel t 1 = Ok (sum_list_with (λ j, length (node_tags t j)) l).
Proof.
  intros Hb Hf. pose proof (built_inv t Hb) as Hinv.
  destruct (visited_nodes t fuel Hinv Hf) as (Hnd & Hin & Hcount).
  exists (subtree fuel t 1). split; [done|]. split; [done|].
  rewrite countTags_by, Hcount. f_equal.
  apply sum_list_with_ext_in. intros j Hj. apply Hin in Hj.
  destruct Hinv as (live & depth & parent & Hinv).
  destruct (inv_lookup Hinv j (reachable_live _ _ _ _ _ Hinv Hj)) as [n Hn].
  unfold weight_at. by rewrite Hn, (length_node_tags _ _ _ Hn).
Qed.

Lemma countTags_counts_tags_witness :
  ∃ l, NoDup l ∧ (∀ j, j ∈ l ↔ reachable example_tree j) ∧
       countTags 33 example_tree 1
       = Ok (sum_list_with (λ j, length (node_tags example_tree j)) l).
Proof.
  apply (countTags_counts_tags 33 example_tree example_tree_built). lia.
Defined.

(** ** Counts after Add *)

Lemma side_count_mono w t fuel fuel' c x :
  side_count w fuel t c = Ok x → fuel ≤ fuel' → side_count w fuel' t c = Ok x.
Proof. unfold side_count. destruct (c =? 0); [done|]. apply count_by_mono. Qed.

(** A count at a node, by the side [s] and the other side. *)
Lemma count_by_sides w fuel t i n s x :
  nodes t !! i = Some n →
  count_by w (S fuel) t i = Ok x ↔
  ∃ a b, side_count w fuel t (child s n) = Ok a ∧
         side_count w fuel t (child (negb s) n) = Ok b ∧ x = w n + a + b.
Proof.
  intros Hn. rewrite (count_by_step w fuel t i n Hn).
  change (if Left n =? 0 then Ok 0 else count_by w fuel t (Left n))
    with (side_count w fuel t (Left n)).
  change (if Right n =? 0 then Ok 0 else count_by w fuel t (Right n))
    with (side_count w fuel t (Right n)).
  destruct (side_count w fuel t (Left n)) as [l| |] eqn:Hl;
    destruct (side_count w fuel t (Right n)) as [r| |] eqn:Hr;
    cbn [mbind result_mbind result_bind]; destruct s; simpl; rewrite ?Hl, ?Hr;
    split; try done;
    try (intros [= <-]; eexists _, _; split; [done|]; split; [done|]; lia);
    try (intros (a & b & [= <-] & [= <-] & ->); f_equal; lia);
    try (by intros (a & b & ? & ? & _)).
Qed.

Lemma count_by_fuel w fuel t i x : count_by w fuel t i = Ok x → ∃ f, fuel = S f.
Proof. destruct fuel as [|f]; [done|]. by exists f. Qed.

(** A count sees the nodes below its start only. *)
Lemma count_by_unchanged w t t' fuel :
  ∀ c, (∀ j, below t c j → nodes t' !! j = nodes t !! j) →
       count_by w fuel t' c = count_by w fuel t c.
Proof.
  induction fuel as [|fuel IH]; intros c Hsame; [done|]. simpl.
  unfold getNode. rewrite (Hsame c (below_refl t c)).
  destruct (nodes t !! c) as [n|] eqn:Hn; [|done]. simpl.
  assert (Hside : ∀ s, (if child s n =? 0 then Ok 0 else count_by w fuel t' (child s n))
                       = (if child s n =? 0 then Ok 0 else count_by w fuel t (child s n))).
  { intros s. destruct (Nat.eqb_spec (child s n) 0) as [|Hc]; [done|].
    apply IH. intros j Hj. apply Hsame.
    eapply below_trans; [|exact Hj]. eapply below_child; [apply below_refl|done..]. }
  pose proof (Hside true) as Hl. pose proof (Hside false) as Hr. simpl in Hl, Hr.
  by rewrite Hl, Hr.
Qed.

Lemma side_count_unchanged w t t' fuel c :
  (c ≠ 0 → ∀ j, below t c j → nodes t' !! j = nodes t !! j) →
  side_count w fuel t' c = side_count w fuel t c.
Proof.
  intros Hsame. unfold side_count. destruct (Nat.eqb_spec c 0) as [|Hc]; [done|].
  by apply count_by_unchanged, Hsame.
Qed.

Section add_counts.
Variables (live : nat → Prop) (depth parent : nat → nat) (t : TreeV4).
Variables (alpha beta : nat).
Hypothesis Hinv : inv_with live depth parent t.

(** The count at a node one of whose sides has grown. *)
Lemma count_lift q nq s' c'' t' :
  live q → nodes t !! q = Some nq →
  nodes t' !! q = Some (set_child s' c'' nq) →
  (child (negb s') nq ≠ 0 →
   ∀ j, below t (child (negb s') nq) j → nodes t' !! j = nodes t !! j) →
  (∀ cf y, side_count (linear_weight alpha beta) cf t (child s' nq) = Ok y →
     ∃ cf' m, m ≤ 2 ∧
       side_count (linear_weight alpha beta) cf' t' c'' = Ok (y + m * alpha + beta)) →
  ∀ cf x, count_by (linear_weight alpha beta) cf t q = Ok x →
    ∃ cf' m, m ≤ 2 ∧
      count_by (linear_weight alpha beta) cf' t' q = Ok (x + m * alpha + beta).
Proof.
  intros Hq Hnq Hnq' Hsib Hside cf x Hx.
  destruct (count_by_fuel _ _ _ _ _ Hx) as [f ->].
  apply (count_by_sides _ f t q nq s' x Hnq) in Hx as (a & b & Ha & Hb & ->).
  destruct (Hside f a Ha) as (cf' & m & Hm & Ha').
  exists (S (max cf' f)), m. split; [done|].
  apply (count_by_sides _ _ t' q _ s' _ Hnq').
  exists (a + m * alpha + beta), b. split_and!.
  - rewrite child_set_child_eq. apply (side_count_mono _ _ cf'); [done|lia].
  - rewrite child_set_child_ne by (by destruct s').
    rewrite (side_count_unchanged _ t t') by done.
    apply (side_count_mono _ _ f); [done|lia].
  - unfold linear_weight. rewrite TagCount_set_child. lia.
Qed.


(** The nodes below a child of [i] are live and differ from [i] and from
    the nodes that are not deeper than [i]. *)
Lemma below_child_facts i ni s j :
  live i → nodes t !! i = Some ni → child s ni ≠ 0 → below t (child s ni) j →
  live j ∧ depth i < depth j.
Proof.
  intros Hi Hni Hc Hb.
  destruct (inv_child _ _ _ _ Hinv i ni s Hi Hni Hc) as (Hl & _).
  pose proof (inv_child_depth Hinv i ni s Hi Hni Hc) as Hd.
  split; [apply (below_live Hinv _ _ Hl Hb)|].
  destruct (below_depth Hinv _ _ Hl Hb) as [->|]; lia.
Qed.

(** The count at a node that keeps its children, when nothing below
    them changes and it gets [d] more tags. *)
Lemma count_same_node i ni ni' t' d cf x :
  live i → nodes t !! i = Some ni → nodes t' !! i = Some ni' →
  Left ni' = Left ni → Right ni' = Right ni → TagCount ni' = TagCount ni + d →
  (∀ j, live j → depth i < depth j → nodes t' !! j = nodes t !! j) →
  count_by (linear_weight alpha beta) cf t i = Ok x →
  count_by (linear_weight alpha beta) cf t' i = Ok (x + beta * d).
Proof.
  intros Hi Hni Hni' Hl Hr Htc Hsame Hx.
  destruct (count_by_fuel _ _ _ _ _ Hx) as [f ->].
  apply (count_by_sides _ f t i ni true x Hni) in Hx as (a & b & Ha & Hb & ->).
  apply (count_by_sides _ f t' i ni' true _ Hni').
  assert (Hside : ∀ s, side_count (linear_weight alpha beta) f t' (child s ni)
                       = side_count (linear_weight alpha beta) f t (child s ni)).
  { intros s. apply side_count_unchanged. intros Hc j Hj.
    destruct (below_child_facts i ni s j Hi Hni Hc Hj). by apply Hsame. }
  pose proof (Hside true) as Hsl. pose proof (Hside false) as Hsr.
  exists a, b. simpl in *. rewrite Hl, Hr, Hsl, Hsr. split; [done|]. split; [done|].
  unfold linear_weight. rewrite Htc. lia.
Qed.

(** The count at a new leaf. *)
Lemma count_leaf t' k nk :
  nodes t' !! k = Some nk → Left nk = 0 → Right nk = 0 → TagCount nk = 1 →
  count_by (linear_weight alpha beta) 1 t' k = Ok (alpha + beta).
Proof.
  intros Hnk Hl Hr Htc. apply (count_by_sides _ 0 t' k nk true _ Hnk).
  exists 0, 0. unfold side_count. simpl. rewrite Hl, Hr. simpl.
  split; [done|]. split; [done|]. unfold linear_weight. rewrite Htc. lia.
Qed.

Lemma add_counts_exact p np s i ni m :
  live p → nodes t !! p = Some np → child s np = i → i ≠ 0 →
  live i → nodes t !! i = Some ni →
  add_counts live t
    (updNode (set_TagCount (S (TagCount ni))) i (setTags m t)) alpha beta p s i i.
Proof.
  intros Hp Hnp Hch Hi Hli Hni. set (t' := updNode _ i _).
  assert (Hother : ∀ j, j ≠ i → nodes t' !! j = nodes t !! j).
  { intros j Hj. unfold t'. by rewrite nodes_updNode_ne, nodes_setTags. }
  split; [done|]. split.
  - intros j nj Hj Hnb Hnj.
    assert (Hji : j ≠ i) by (intros ->; apply Hnb, below_refl).
    rewrite (Hother j Hji), Hnj. case_decide as Hjp; [|done]. subst j.
    rewrite Hnp in Hnj. injection Hnj as <-. by rewrite <- Hch, set_child_same.
  - intros cf x Hx. exists cf, 0. split; [lia|].
    replace (x + 0 * alpha + beta) with (x + beta * 1) by lia.
    apply (count_same_node i ni (set_TagCount (S (TagCount ni)) ni) t' 1 cf x);
      try done.
    + unfold t'. by rewrite nodes_updNode_same, nodes_setTags, Hni.
    + simpl. lia.
    + intros j Hj Hd. apply Hother. intros ->. lia.
Qed.

(** The facts of a node [k] that now stands between [p] and [i]. *)
Lemma add_counts_above p np s i ni t' k nk ni' m0 :
  live p → nodes t !! p = Some np → live i → nodes t !! i = Some ni →
  depth p < depth i → ¬ live k → k ≠ 0 →
  nodes t' !! k = Some nk → TagCount nk = m0 →
  (∃ s2, child s2 nk = i ∧
     side_count (linear_weight alpha beta) 1 t' (child (negb s2) nk)
     = Ok ((1 - m0) * (alpha + beta))) →
  nodes t' !! i = Some ni' → Left ni' = Left ni → Right ni' = Right ni →
  TagCount ni' = TagCount ni →
  nodes t' !! p = Some (set_child s k np) →
  (∀ j, live j → j ≠ p → j ≠ i → nodes t' !! j = nodes t !! j) →
  m0 ≤ 1 →
  add_counts live t t' alpha beta p s i k.
Proof.
  intros Hp Hnp Hli Hni Hdep Hk Hk0 Hnk Htk (s2 & Hs2 & Hother) Hni' Hl Hr Htc Hnp' Hfr Hm0.
  split; [done|]. split.
  - intros j nj Hj Hnb Hnj.
    assert (Hji : j ≠ i) by (intros ->; apply Hnb, below_refl).
    case_decide as Hjp.
    + subst j. rewrite Hnp in Hnj. by injection Hnj as <-.
    + by rewrite Hfr.
  - intros cf x Hx.
    pose proof (count_same_node i ni ni' t' 0 cf x Hli Hni Hni' Hl Hr ltac:(lia)) as Hx'.
    rewrite Nat.mul_0_r, Nat.add_0_r in Hx'.
    specialize (Hx' ltac:(intros j Hj Hd; apply Hfr; [done|intros ->; lia..]) Hx).
    destruct (count_by_fuel _ _ _ _ _ Hx) as [f Hf].
    exists (S cf), (2 - m0). split; [lia|].
    apply (count_by_sides _ cf t' k nk s2 _ Hnk).
    exists x, ((1 - m0) * (alpha + beta)). split_and!.
    + rewrite Hs2. unfold side_count.
      by rewrite (eqb_false_of i 0) by (intros ->; by apply (inv_not_live_0 Hinv)).
    + apply (side_count_mono _ _ 1); [done|lia].
    + unfold linear_weight. rewrite Htk.
      destruct m0 as [|[|m0]]; simpl; lia.
Qed.


(** The count at the node [q] when the side [s'] of [q] has grown and
    nothing else has changed but below that side. *)
Lemma count_at_parent q nq s' c'' t' :
  live q → nodes t !! q = Some nq →
  nodes t' !! q = Some (set_child s' c'' nq) →
  (∀ j nj, live j → j ≠ q → (child s' nq ≠ 0 → ¬ below t (child s' nq) j) →
           nodes t !! j = Some nj → nodes t' !! j = Some nj) →
  (∀ cf y, side_count (linear_weight alpha beta) cf t (child s' nq) = Ok y →
     ∃ cf' m, m ≤ 2 ∧
       side_count (linear_weight alpha beta) cf' t' c'' = Ok (y + m * alpha + beta)) →
  ∀ cf x, count_by (linear_weight alpha beta) cf t q = Ok x →
    ∃ cf' m, m ≤ 2 ∧
      count_by (linear_weight alpha beta) cf' t' q = Ok (x + m * alpha + beta).
Proof.
  intros Hq Hnq Hnq' Hfr Hside.
  apply (count_lift q nq s' c'' t' Hq Hnq Hnq'); [|done].
  intros Hc j Hj.
  destruct (below_child_facts q nq (negb s') j Hq Hnq Hc Hj) as [Hlj Hdj].
  destruct (inv_lookup Hinv j Hlj) as [nj Hnj].
  rewrite Hnj. apply Hfr; try done.
  - intros ->. lia.
  - intros Hc' Hb.
    apply (siblings_apart Hinv q nq (negb s') j Hq Hnq Hc); [|done|].
    + by rewrite negb_involutive.
    + by rewrite negb_involutive.
Qed.

Lemma add_counts_lift p np s i ni s' c'' t' :
  live p → nodes t !! p = Some np → child s np = i → i ≠ 0 →
  live i → nodes t !! i = Some ni → depth p < depth i →
  nodes t' !! i = Some (set_child s' c'' ni) →
  (∀ j nj, live j → j ≠ i → (child s' ni ≠ 0 → ¬ below t (child s' ni) j) →
           nodes t !! j = Some nj → nodes t' !! j = Some nj) →
  (∀ cf y, side_count (linear_weight alpha beta) cf t (child s' ni) = Ok y →
     ∃ cf' m, m ≤ 2 ∧
       side_count (linear_weight alpha beta) cf' t' c'' = Ok (y + m * alpha + beta)) →
  add_counts live t t' alpha beta p s i i.
Proof.
  intros Hp Hnp Hch Hi Hli Hni Hdep Hni' Hfr Hside.
  split; [done|]. split.
  - intros j nj Hj Hnb Hnj.
    assert (Hji : j ≠ i) by (intros ->; apply Hnb, below_refl).
    rewrite (Hfr j nj Hj Hji); [|intros Hc Hb|done].
    + case_decide as Hjp; [|done]. subst j.
      rewrite Hnp in Hnj. injection Hnj as <-. by rewrite <- Hch, set_child_same.
    + apply Hnb. eapply below_trans; [|exact Hb]. by apply below_child_of.
  - by apply (count_at_parent i ni s' c'' t').
Qed.


Variable tag : uint16.

(** [Add] below the side [s'] of the node [q]: a leaf when the side is
    empty, the loop otherwise. *)
Lemma Add_below_counts fuel q nq s' a1 :
  live q → nodes t !! q = Some nq →
  (child s' nq ≠ 0 →
   ∃ t' a' c', Add_loop fuel t q (child s' nq) a1 tag = Ok (t', a') ∧
               add_counts live t t' alpha beta q s' (child s' nq) c') →
  ∃ t' a' c'',
    (if child s' nq =? 0 then addLeaf t q s' a1 tag ≫= λ t0, Ok (t0, a1)
     else Add_loop fuel t q (child s' nq) a1 tag) = Ok (t', a') ∧
    nodes t' !! q = Some (set_child s' c'' nq) ∧
    (∀ j nj, live j → j ≠ q → (child s' nq ≠ 0 → ¬ below t (child s' nq) j) →
             nodes t !! j = Some nj → nodes t' !! j = Some nj) ∧
    (∀ cf y, side_count (linear_weight alpha beta) cf t (child s' nq) = Ok y →
       ∃ cf' m, m ≤ 2 ∧
         side_count (linear_weight alpha beta) cf' t' c'' = Ok (y + m * alpha + beta)).
Proof.
  intros Hq Hnq Hloop. pose proof (alloc_ok_inv _ _ _ _ Hinv) as Hal.
  destruct (decide (child s' nq = 0)) as [Hc0|Hc0].
  - rewrite (eqb_true_of _ _ Hc0).
    destruct (addLeaf_spec live t q nq s' a1 tag Hal Hq Hnq)
      as (t' & k & Hadd & Hk & Hkr & Hnk & Hnq' & Hfr & _).
    rewrite Hadd. cbn [mbind result_mbind result_bind].
    exists t', a1, k. split; [done|]. split; [done|]. split.
    + intros j nj Hj Hjq _ Hnj. rewrite Hfr; [done| |done]. by intros ->.
    + intros cf y. rewrite Hc0. unfold side_count at 1. simpl. intros [= <-].
      exists 1, 1. split; [lia|]. unfold side_count.
      rewrite (eqb_false_of k 0) by lia.
      rewrite (count_leaf t' k _ Hnk); [f_equal; lia|done..].
  - rewrite (eqb_false_of _ _ Hc0).
    destruct (Hloop Hc0) as (t' & a' & c' & Hrun & Hc' & Hframe & Hcount).
    exists t', a', c'. split; [done|].
    assert (Hnb : ¬ below t (child s' nq) q).
    { intros Hb. destruct (below_child_facts q nq s' q Hq Hnq Hc0 Hb). lia. }
    split; [|split].
    + pose proof (Hframe q nq Hq Hnb Hnq) as Hq'. by rewrite decide_True in Hq'.
    + intros j nj Hj Hjq Hnbj Hnj.
      rewrite (Hframe j nj Hj (Hnbj Hc0) Hnj). by rewrite decide_False.
    + intros cf y. unfold side_count. rewrite (eqb_false_of _ _ Hc0), (eqb_false_of _ _ Hc').
      apply Hcount.
Qed.

(** The loop of [Add] and the counts. *)
Lemma Add_loop_counts fuel :
  ∀ p np s i a,
    live p → nodes t !! p = Some np → child s np = i → i ≠ 0 →
    isLeftBit (Address a) = s → (0 ≤ Address a < 2 ^ 32)%Z →
    1 ≤ Length a ≤ 32 → Length a ≤ fuel →
    ∃ t' a' c',
      Add_loop fuel t p i a tag = Ok (t', a') ∧
      add_counts live t t' alpha beta p s i c'.
Proof.
  induction fuel as [|fuel IH]; intros p np s i a Hp Hnp Hch Hi Hbit Hrange Hlen Hfuel;
    [lia|].
  destruct (inv_at_child _ _ _ _ _ _ _ _ Hinv Hp Hnp Hch Hi)
    as (Hli & Hpi & Hnch & Hi1 & ni & Hni & Hbi & Hleni & Hri & Hdi).
  pose proof (alloc_ok_inv _ _ _ _ Hinv) as Hal.
  assert (Hm1 : 1 ≤ MatchCount ni a).
  { apply MatchCount_pos; try done; try lia. congruence. }
  assert (Hdep : depth p < depth i) by lia.
  assert (Hk0 : ∀ k, 2 ≤ k → k ≠ 0) by lia.
  destruct (MatchCount_le ni a) as [Hmn Hma].
  destruct (decide (MatchCount ni a = Length a)) as [Hml|Hml].
  - destruct (decide (MatchCount ni a = prefixLength ni)) as [Hmp|Hmp].
    + rewrite (Add_loop_exact fuel t p i ni a tag) by done.
      eexists _, a, i. split; [done|]. by apply (add_counts_exact p np s i ni).
    + destruct (Add_loop_above live fuel t p np s i ni a tag)
        as (t' & k & Hadd & Hk & Hkr & Hnk & Hni' & Hnp' & Hfr & _);
        try done; try lia.
      exists t', a, k. split; [done|].
      apply (add_counts_above p np s i ni t' k _ (ShiftPrefix (Length a) ni) 1
               Hp Hnp Hli Hni Hdep Hk (Hk0 k ltac:(lia)) Hnk); try done.
      * by rewrite TagCount_set_child.
      * exists (isLeftBit (shl32 (prefix ni) (Length a))).
        rewrite child_set_child_eq. split; [done|].
        destruct (isLeftBit (shl32 (prefix ni) (Length a))); reflexivity.
      * intros j Hj Hjp Hji. apply Hfr; try done. by intros ->.
  - destruct (ShiftLeft_ok a (MatchCount ni a)) as (Hr1 & Hl1 & Hl1'); [lia..|].
    destruct (decide (MatchCount ni a = prefixLength ni)) as [Hmp|Hmp].
    + set (a1 := ShiftLeft a (MatchCount ni a)) in *.
      set (s' := isLeftBit (Address a1)).
      destruct (Add_below_counts fuel i ni s' a1 Hli Hni)
        as (t' & a' & c'' & Hrun & Hni' & Hfr & Hside).
      { intros Hc0. apply (IH i ni s' (child s' ni) a1); try done. lia. }
      exists t', a', i. split.
      * cbn [Add_loop]. rewrite (eqb_false_of _ _ Hi), (getNode_Some _ _ _ Hni).
        cbn [mbind result_mbind result_bind].
        rewrite (eqb_false_of (prefixLength ni) 0), (eqb_false_of (MatchCount ni a) 0) by lia.
        rewrite (eqb_false_of _ _ Hml), (eqb_true_of _ _ Hmp). fold a1.
        rewrite <- Hrun. unfold s'. by destruct (isLeftBit (Address a1)).
      * by apply (add_counts_lift p np s i ni s' c'' t').
    + destruct (Add_loop_split live fuel t p np s i ni a tag)
        as (t' & k1 & k2 & Hadd & Hk1 & Hkr1 & Hk2 & Hkr2 & Hk21 & Hnk1 & Hnk2 & Hni' & Hnp'
            & Hfr & _); try done; try lia.
      exists t', (ShiftLeft a (MatchCount ni a)), k1. split; [done|].
      apply (add_counts_above p np s i ni t' k1 _ (ShiftPrefix (MatchCount ni a) ni) 0
               Hp Hnp Hli Hni Hdep Hk1 (Hk0 k1 ltac:(lia)) Hnk1); try done.
      * by rewrite !TagCount_set_child.
      * exists (isLeftBit (shl32 (prefix ni) (MatchCount ni a))).
        split; [by destruct (isLeftBit (shl32 (prefix ni) (MatchCount ni a)))|].
        rewrite child_set_child_eq.
        unfold side_count. rewrite (eqb_false_of k2 0) by lia.
        rewrite (count_leaf t' k2 _ Hnk2); [f_equal; lia|done..].
      * intros j Hj Hjp Hji. apply Hfr; try done; by intros ->.
      * lia.
Qed.

End add_counts.

Lemma count_by_ext w w' t fuel :
  (∀ n, w n = w' n) → ∀ i, count_by w fuel t i = count_by w' fuel t i.
Proof.
  intros Hw. induction fuel as [|fuel IH]; intros i; [done|]. simpl.
  destruct (getNode t i) as [n| |]; [|done..]. simpl. by rewrite !IH, Hw.
Qed.

(** [Add] and the counts from the root. *)
Lemma Add_counts fuel t address tag alpha beta :
  inv t → oaddr_ok address → 32 ≤ fuel →
  ∃ t' address',
    Add fuel t address tag = Ok (t', address') ∧
    ∀ cf x, count_by (linear_weight alpha beta) cf t 1 = Ok x →
      ∃ cf' m, m ≤ 2 ∧
        count_by (linear_weight alpha beta) cf' t' 1 = Ok (x + m * alpha + beta).
Proof.
  intros (live & depth & parent & Hinv) Hok Hfuel.
  pose proof (inv_root _ _ _ _ Hinv) as Hr.
  destruct (inv_lookup Hinv 1 Hr) as [root Hroot].
  assert (Hat_root : ∃ t',
            addTag t tag 1 = Ok t' ∧
            ∀ cf x, count_by (linear_weight alpha beta) cf t 1 = Ok x →
              ∃ cf' m, m ≤ 2 ∧
                count_by (linear_weight alpha beta) cf' t' 1 = Ok (x + m * alpha + beta)).
  { rewrite (addTag_Ok _ _ _ _ Hroot). eexists. split; [done|].
    intros cf x Hx. exists cf, 0. split; [lia|].
    replace (x + 0 * alpha + beta) with (x + beta * 1) by lia.
    apply (count_same_node live depth parent t alpha beta Hinv 1 root
             (set_TagCount (S (TagCount root)) root) _ 1 cf x); try done.
    - by rewrite nodes_updNode_same, nodes_setTags, Hroot.
    - simpl. lia.
    - intros j Hj Hd. rewrite nodes_updNode_ne, nodes_setTags; [done|].
      intros Hj1. rewrite Hj1 in Hd. lia. }
  unfold Add. rewrite (getNode_Some _ _ _ Hroot). cbn [mbind result_mbind result_bind].
  destruct address as [a|].
  2:{ destruct Hat_root as (t' & -> & Hcount). by exists t', None. }
  destruct (decide (Length a = 0)) as [Hz|Hz].
  { rewrite (eqb_true_of _ _ Hz). destruct Hat_root as (t' & -> & Hcount).
    by exists t', (Some a). }
  rewrite (eqb_false_of _ _ Hz). destruct Hok as [Hrange Hlen].
  set (s := isLeftBit (Address a)).
  destruct (Add_below_counts live depth parent t alpha beta Hinv tag fuel 1 root s a Hr Hroot)
    as (t' & a' & c'' & Hrun & Hroot' & Hfr & Hside).
  { intros Hc0.
    apply (Add_loop_counts live depth parent t alpha beta Hinv tag fuel 1 root s
             (child s root) a); try done; lia. }
  exists t', (Some a'). split.
  - assert (Hgo : (if child s root =? 0
                   then addLeaf t 1 s a tag ≫= λ t0, Ok (t0, Some a)
                   else Add_loop fuel t 1 (child s root) a tag
                          ≫= λ '(t0, a0), Ok (t0, Some a0)) = Ok (t', Some a')).
    { destruct (child s root =? 0).
      - destruct (addLeaf t 1 s a tag) as [t0| |]; [|done..].
        cbn [mbind result_mbind result_bind] in *. by injection Hrun as -> ->.
      - by rewrite Hrun. }
    rewrite <- Hgo. unfold s. by destruct (isLeftBit (Address a)).
  - by apply (count_at_parent live depth parent t alpha beta Hinv 1 root s c'' t').
Qed.

(** The count from the root after [Add], at the same fuel. *)
Lemma Add_counts_root fuel cfuel t address tag alpha beta :
  inv t → oaddr_ok address → 32 ≤ fuel → 33 ≤ cfuel →
  ∃ n m t' address',
    count_by (linear_weight alpha beta) cfuel t 1 = Ok n ∧
    Add fuel t address tag = Ok (t', address') ∧ m ≤ 2 ∧
    count_by (linear_weight alpha beta) cfuel t' 1 = Ok (n + m * alpha + beta).
Proof.
  intros Hinv Hok Hfuel Hcf.
  destruct (visited_nodes t cfuel Hinv Hcf) as (_ & _ & Hcount).
  destruct (Add_counts fuel t address tag alpha beta Hinv Hok Hfuel)
    as (t' & a' & Hadd & Hgrow).
  destruct (Add_inv fuel t address tag Hinv Hok Hfuel) as (t2 & a2 & Hadd2 & Hinv').
  rewrite Hadd in Hadd2. injection Hadd2 as <- <-.
  destruct (visited_nodes t' cfuel Hinv' Hcf) as (_ & _ & Hcount').
  destruct (Hgrow cfuel _ (Hcount _)) as (cf' & m & Hm & Hcf').
  eexists _, m, t', a'. split; [apply Hcount|]. split; [done|]. split; [done|].
  pose proof (count_by_mono _ _ _ (max cf' cfuel) _ _ Hcf' ltac:(lia)) as H1.
  pose proof (count_by_mono _ _ _ (max cf' cfuel) _ _ (Hcount' (linear_weight alpha beta))
                ltac:(lia)) as H2.
  rewrite H1 in H2. injection H2 as H2. rewrite Hcount'. by rewrite <- H2.
Qed.

(** X19: on a tree built by [Add] and [Delete], [Add] makes [countTags]
    from the root grow by exactly one. *)
Theorem Add_increments_countTags (fuel cfuel : nat) (t : TreeV4)
    (address : option IPv4Address) (tag : uint16) :
  built t → oaddr_ok address → 32 ≤ fuel → 33 ≤ cfuel →
  ∃ n t' address',
    countTags cfuel t 1 = Ok n ∧
    Add fuel t address tag = Ok (t', address') ∧
    countTags cfuel t' 1 = Ok (S n).
Proof.
  intros Hb Hok Hfuel Hcf. pose proof (built_inv t Hb) as Hinv.
  destruct (Add_counts_root fuel cfuel t address tag 0 1 Hinv Hok Hfuel Hcf)
    as (n & m & t' & a' & Hn & Hadd & _ & Hn').
  exists n, t', a'. rewrite !countTags_by.
  rewrite (count_by_ext TagCount (linear_weight 0 1)) by (intros ?; unfold linear_weight; lia).
  rewrite (count_by_ext TagCount (linear_weight 0 1) t') by (intros ?; unfold linear_weight; lia).
  split; [done|]. split; [done|]. rewrite Hn'. f_equal. lia.
Qed.

Lemma Add_increments_countTags_witness :
  ∃ n t' address',
    countTags 33 example_tree 1 = Ok n ∧
    Add 32 example_tree (cidr 10 1 0 0 16) 9%Z = Ok (t', address') ∧
    countTags 33 t' 1 = Ok (S n).
Proof.
  apply (Add_increments_countTags 32 33 example_tree (cidr 10 1 0 0 16) 9%Z
           example_tree_built).
  - split; simpl; lia.
  - lia.
  - lia.
Defined.

(** X20: on a tree built by [Add] and [Delete], [Add] makes [countNodes]
    from the root grow by two nodes at most, and never shrink. *)
Theorem Add_grows_countNodes (fuel cfuel : nat) (t : TreeV4)
    (address : option IPv4Address) (tag : uint16) :
  built t → oaddr_ok address → 32 ≤ fuel → 33 ≤ cfuel →
  ∃ n m t' address',
    countNodes cfuel t 1 = Ok n ∧
    Add fuel t address tag = Ok (t', address') ∧
    countNodes cfuel t' 1 = Ok (n + m) ∧ m ≤ 2.
Proof.
  intros Hb Hok Hfuel Hcf. pose proof (built_inv t Hb) as Hinv.
  destruct (Add_counts_root fuel cfuel t address tag 1 0 Hinv Hok Hfuel Hcf)
    as (n & m & t' & a' & Hn & Hadd & Hm & Hn').
  exists n, m, t', a'. rewrite !countNodes_by.
  rewrite (count_by_ext (λ _, 1) (linear_weight 1 0))
    by (intros ?; unfold linear_weight; lia).
  rewrite (count_by_ext (λ _, 1) (linear_weight 1 0) t')
    by (intros ?; unfold linear_weight; lia).
  split; [done|]. split; [done|]. split; [|done]. rewrite Hn'. f_equal. lia.
Qed.

Lemma Add_grows_countNodes_witness :
  ∃ n m t' address',
    countNodes 33 example_tree 1 = Ok n ∧
    Add 32 example_tree (cidr 10 1 0 0 16) 9%Z = Ok (t', address') ∧
    countNodes 33 t' 1 = Ok (n + m) ∧ m ≤ 2.
Proof.
  apply (Add_grows_countNodes 32 33 example_tree (cidr 10 1 0 0 16) 9%Z
           example_tree_built).
  - split; simpl; lia.
  - lia.
  - lia.
Defined.

(** ** Counts after Delete *)

Section count_region.
Variables (live : nat → Prop) (depth parent : nat → nat) (t : TreeV4).
Variable w : treeNodeV4 → nat.
Hypothesis Hinv : inv_with live depth parent t.

(** The count at the node [q] when the count of its side [s'] has gone
    from [y] to [y'] with [y' + loss = y + gain], and nothing else has
    changed but below that side. *)
Lemma count_lift_by (gain loss : nat) q nq s' t' :
  live q → nodes t !! q = Some nq → child s' nq ≠ 0 →
  nodes t' !! q = Some nq →
  (∀ j, live j → ¬ below t (child s' nq) j → nodes t' !! j = nodes t !! j) →
  (∀ cf y, count_by w cf t (child s' nq) = Ok y →
     ∃ cf' y', count_by w cf' t' (child s' nq) = Ok y' ∧ y' + loss = y + gain) →
  ∀ cf x, count_by w cf t q = Ok x →
    ∃ cf' x', count_by w cf' t' q = Ok x' ∧ x' + loss = x + gain.
Proof.
  intros Hq Hnq Hc Hnq' Hfr Hside cf x Hx.
  destruct (count_by_fuel _ _ _ _ _ Hx) as [f ->].
  apply (count_by_sides _ f t q nq s' x Hnq) in Hx as (a & b & Ha & Hb & ->).
  unfold side_count in Ha. rewrite (eqb_false_of _ _ Hc) in Ha.
  destruct (Hside f a Ha) as (cf' & a' & Ha' & Hrel).
  exists (S (max cf' f)), (w nq + a' + b). split; [|lia].
  apply (count_by_sides _ _ t' q nq s' _ Hnq').
  exists a', b. split_and!; [| |done].
  - unfold side_count. rewrite (eqb_false_of _ _ Hc).
    apply (count_by_mono _ _ cf'); [done|lia].
  - rewrite (side_count_unchanged _ t t').
    + apply (side_count_mono _ _ f); [done|lia].
    + intros Hc' j Hj.
      destruct (below_child_facts live depth parent t Hinv q nq (negb s') j Hq Hnq Hc' Hj)
        as [Hlj Hdj].
      apply Hfr; [done|]. intros Hb'.
      apply (siblings_apart Hinv q nq (negb s') j Hq Hnq Hc'); [|done|].
      * by rewrite negb_involutive.
      * by rewrite negb_involutive.
Qed.

(** A change below the reachable node [r] shows in the count from the
    root as it shows in the count from [r]. *)
Lemma count_region (gain loss : nat) r t' :
  below t 1 r →
  (∀ j, live j → ¬ below t r j → nodes t' !! j = nodes t !! j) →
  (∀ cf y, count_by w cf t r = Ok y →
     ∃ cf' y', count_by w cf' t' r = Ok y' ∧ y' + loss = y + gain) →
  ∀ cf x, count_by w cf t 1 = Ok x →
    ∃ cf' x', count_by w cf' t' 1 = Ok x' ∧ x' + loss = x + gain.
Proof.
  pose proof (inv_root _ _ _ _ Hinv) as Hr.
  induction 1 as [|i n s Hb IH Hn Hc]; intros Hfr Hlocal; [done|].
  pose proof (below_live Hinv 1 i Hr Hb) as Hi.
  apply IH.
  - intros j Hj Hnb. apply Hfr; [done|]. intros Hb'. apply Hnb.
    eapply below_trans; [|exact Hb']. by apply below_child_of.
  - apply (count_lift_by gain loss i n s t' Hi Hn Hc); [|done..].
    rewrite Hfr, Hn; [done..|]. intros Hb'.
    destruct (below_child_facts live depth parent t Hinv i n s i Hi Hn Hc Hb'). lia.
Qed.

End count_region.

(** The traversal of [Delete] stops below the node it started under. *)
Lemma Delete_loop_below t fuel :
  ∀ p np s i a pi ti a',
    nodes t !! p = Some np → child s np = i →
    Delete_loop fuel t p i a = Ok (Some (pi, ti), a') →
    below t p pi ∧ ∃ npi s', nodes t !! pi = Some npi ∧ child s' npi = ti ∧ ti ≠ 0.
Proof.
  induction fuel as [|fuel IH]; intros p np s i a pi ti a' Hnp Hch; [done|]. simpl.
  destruct (Nat.eqb_spec i 0) as [|Hi]; [done|].
  destruct (getNode t i) as [n| |] eqn:Hget; [|done..]. apply getNode_Ok in Hget.
  simpl. destruct (MatchCount n a <? prefixLength n); [done|].
  destruct (MatchCount n a =? Length a).
  { intros [= <- <- <-]. split; [apply below_refl|]. by exists np, s. }
  assert (Hstep : ∀ s2, Delete_loop fuel t i (child s2 n) (ShiftLeft a (MatchCount n a))
                        = Ok (Some (pi, ti), a') →
            below t p pi ∧ ∃ npi s', nodes t !! pi = Some npi ∧ child s' npi = ti ∧ ti ≠ 0).
  { intros s2 Hrun. destruct (IH i n s2 _ _ pi ti a' Hget eq_refl Hrun) as [Hb Hrest].
    split; [|done]. eapply below_trans; [|exact Hb].
    rewrite <- Hch. apply (below_child_of (t:=t) p np s Hnp). by rewrite Hch. }
  destruct (isLeftBit _); [apply (Hstep true)|apply (Hstep false)].
Qed.

Section compaction_counts.
Context (live : nat → Prop) (depth parent : nat → nat) (t : TreeV4).
Context (pi ti : nat) (npi nti : treeNodeV4) (s' : bool).
Context (alpha beta : nat).
Hypothesis Hinv : inv_with live depth parent t.
Hypothesis Hpi : live pi.
Hypothesis Hnpi : nodes t !! pi = Some npi.
Hypothesis Hch : child s' npi = ti.
Hypothesis Hti0 : ti ≠ 0.
Hypothesis Hnti : nodes t !! ti = Some nti.

(** The count at the parent of the target, by its parts. *)
Lemma count_at_target_parent cf x :
  count_by (linear_weight alpha beta) cf t pi = Ok x →
  ∃ f l r b,
    side_count (linear_weight alpha beta) f t (Left nti) = Ok l ∧
    side_count (linear_weight alpha beta) f t (Right nti) = Ok r ∧
    side_count (linear_weight alpha beta) (S f) t (child (negb s') npi) = Ok b ∧
    x = linear_weight alpha beta npi + (linear_weight alpha beta nti + l + r) + b.
Proof.
  intros Hx. destruct (count_by_fuel _ _ _ _ _ Hx) as [f1 ->].
  apply (count_by_sides _ f1 t pi npi s' x Hnpi) in Hx as (a & b & Ha & Hb & ->).
  rewrite Hch in Ha. unfold side_count in Ha. rewrite (eqb_false_of _ _ Hti0) in Ha.
  destruct (count_by_fuel _ _ _ _ _ Ha) as [f ->].
  apply (count_by_sides _ f t ti nti true a Hnti) in Ha as (l & r & Hl & Hr & ->).
  by exists f, l, r, b.
Qed.

(** The nodes below the target and below its sibling. *)
Lemma target_facts :
  live ti ∧ depth pi < depth ti ∧ pi ≠ ti ∧
  (∀ j, below t ti j → live j ∧ j ≠ pi ∧
        (child (negb s') npi ≠ 0 → ¬ below t (child (negb s') npi) j)) ∧
  (child (negb s') npi ≠ 0 →
   ∀ j, below t (child (negb s') npi) j → live j ∧ j ≠ pi ∧ ¬ below t ti j).
Proof.
  assert (Hc : child s' npi ≠ 0) by (by rewrite Hch).
  destruct (inv_child _ _ _ _ Hinv pi npi s' Hpi Hnpi Hc) as (Hl & _).
  pose proof (inv_child_depth Hinv pi npi s' Hpi Hnpi Hc) as Hd.
  rewrite Hch in Hl, Hd.
  split; [done|]. split; [done|]. split; [intros ->; lia|]. split.
  - intros j Hj. split; [apply (below_live Hinv _ _ Hl Hj)|]. split.
    + destruct (below_depth Hinv _ _ Hl Hj) as [->|]; intros ->; lia.
    + intros Hc'. apply (siblings_apart Hinv pi npi s' j Hpi Hnpi Hc Hc').
      by rewrite Hch.
  - intros Hc' j Hj.
    destruct (below_child_facts live depth parent t Hinv pi npi (negb s') j Hpi Hnpi Hc' Hj)
      as [Hlj Hdj].
    split; [done|]. split; [intros ->; lia|].
    intros Hb. apply (siblings_apart Hinv pi npi s' j Hpi Hnpi Hc Hc'); [|done].
    by rewrite Hch.
Qed.

(** A side of the target or of its parent keeps its count when nothing
    below it has changed. *)
Lemma side_kept t' f c :
  (c ≠ 0 → ∀ j, below t c j → nodes t' !! j = nodes t !! j) →
  ∀ y, side_count (linear_weight alpha beta) f t c = Ok y →
       side_count (linear_weight alpha beta) f t' c = Ok y.
Proof. intros Hsame y Hy. by rewrite (side_count_unchanged _ t t'). Qed.


Context (m' : gmap Z uint16).
Let t1 := updNode (set_TagCount 0) ti (setTags m' t).

(** The nodes below a child of the target, and below the sibling of the
    target, are not the nodes a compaction writes. *)
Lemma below_target_child s2 j :
  child s2 nti ≠ 0 → below t (child s2 nti) j →
  live j ∧ j ≠ pi ∧ j ≠ ti ∧ below t ti j.
Proof.
  intros Hc Hj. destruct target_facts as (Hli & Hd & Hne & Hbt & _).
  assert (Hb : below t ti j).
  { eapply below_trans; [|exact Hj]. by apply below_child_of. }
  destruct (Hbt j Hb) as (Hlj & Hjp & _).
  destruct (below_child_facts live depth parent t Hinv ti nti s2 j Hli Hnti Hc Hj).
  split; [done|]. split; [done|]. split; [intros ->; lia|done].
Qed.

Lemma below_sibling j :
  child (negb s') npi ≠ 0 → below t (child (negb s') npi) j →
  live j ∧ j ≠ pi ∧ j ≠ ti ∧ ¬ below t ti j.
Proof.
  intros Hc Hj. destruct target_facts as (_ & _ & _ & _ & Hbs).
  destruct (Hbs Hc j Hj) as (Hlj & Hjp & Hnb).
  split; [done|]. split; [done|]. split; [|done]. intros ->. apply Hnb, below_refl.
Qed.

Lemma not_below_parent j : ¬ below t pi j → j ≠ pi ∧ ¬ below t ti j.
Proof.
  intros Hnb. split; [intros ->; apply Hnb, below_refl|].
  intros Hb. apply Hnb. eapply below_trans; [|exact Hb].
  rewrite <- Hch. apply (below_child_of (t:=t) pi npi s' Hnpi). by rewrite Hch.
Qed.

Lemma weight_target :
  linear_weight alpha beta nti = alpha + beta * TagCount nti.
Proof. done. Qed.

(** The target has no child and goes; its parent stays as it is. *)
Lemma shrinks_leaf :
  Left nti = 0 → Right nti = 0 →
  shrinks live t (Delete_release (updNode (set_child s' 0) pi t1) ti) alpha beta pi
          (TagCount nti).
Proof.
  intros Hl Hr. destruct target_facts as (Hli & Hd & Hne & _).
  set (T := Delete_release _ ti).
  assert (HTpi : nodes T !! pi = Some (set_child s' 0 npi)).
  { unfold T, t1. by nodes_simpl. }
  assert (HTfr : ∀ j, j ≠ pi → j ≠ ti → nodes T !! j = nodes t !! j).
  { intros j ? ?. unfold T, t1. by nodes_simpl. }
  split.
  - intros j Hj Hnb. destruct (not_below_parent j Hnb) as [Hjp Hnbt].
    apply HTfr; [done|]. intros ->. apply Hnbt, below_refl.
  - exists 1. split; [lia|]. intros cf x Hx.
    destruct (count_at_target_parent cf x Hx) as (f & l & r & b & Hl0 & Hr0 & Hb & ->).
    rewrite Hl in Hl0. rewrite Hr in Hr0. injection Hl0 as <-. injection Hr0 as <-.
    eexists (S (S f)), _. split.
    + apply (count_by_sides _ _ T pi _ s' _ HTpi).
      eexists 0, b. split_and!; [|..|reflexivity].
      * by rewrite child_set_child_eq.
      * rewrite child_set_child_ne by (by destruct s').
        apply (side_kept T (S f)); [|done]. intros Hc j Hj.
        destruct (below_sibling j Hc Hj) as (_ & ? & ? & _). by apply HTfr.
    + unfold linear_weight. rewrite TagCount_set_child. lia.
Qed.


(** The target has one child, which takes its place. *)
Lemma shrinks_lift sc c nc mp len :
  child sc nti = c → c ≠ 0 → child (negb sc) nti = 0 → nodes t !! c = Some nc →
  shrinks live t
    (Delete_release (updNode (set_prefix mp len) c (updNode (set_child s' c) pi t1)) ti)
    alpha beta pi (TagCount nti).
Proof.
  intros Hc Hc0 Hother Hnc. destruct target_facts as (Hli & Hd & Hne & _).
  assert (Hc0' : child sc nti ≠ 0) by (by rewrite Hc).
  destruct (inv_child _ _ _ _ Hinv ti nti sc Hli Hnti Hc0') as (Hlc & _).
  pose proof (inv_child_depth Hinv ti nti sc Hli Hnti Hc0') as Hdc.
  rewrite Hc in Hlc, Hdc.
  assert (Hcti : c ≠ ti) by (intros ->; lia).
  assert (Hcpi : c ≠ pi) by (intros ->; lia).
  set (T := Delete_release _ ti).
  assert (HTpi : nodes T !! pi = Some (set_child s' c npi)).
  { unfold T, t1. by nodes_simpl. }
  assert (HTc : nodes T !! c = Some (set_prefix mp len nc)).
  { unfold T, t1. by nodes_simpl. }
  assert (HTfr : ∀ j, j ≠ pi → j ≠ ti → j ≠ c → nodes T !! j = nodes t !! j).
  { intros j ? ? ?. unfold T, t1. by nodes_simpl. }
  split.
  - intros j Hj Hnb. destruct (not_below_parent j Hnb) as [Hjp Hnbt].
    apply HTfr; [done|intros ->; apply Hnbt, below_refl|].
    intros ->. apply Hnbt. rewrite <- Hc. by apply below_child_of.
  - exists 1. split; [lia|]. intros cf x Hx.
    destruct (count_at_target_parent cf x Hx) as (f & l & r & b & Hl0 & Hr0 & Hb & ->).
    assert (Hy : ∃ y, count_by (linear_weight alpha beta) f t c = Ok y ∧ l + r = y).
    { destruct sc; simpl in Hc, Hother; rewrite Hc, Hother in *;
        unfold side_count in Hl0, Hr0; simpl in Hl0, Hr0;
        rewrite (eqb_false_of _ _ Hc0) in *.
      - injection Hr0 as <-. exists l. split; [done|lia].
      - injection Hl0 as <-. by exists r. }
    destruct Hy as (y & Hy & Hlr).
    pose proof (count_same_node live depth parent t alpha beta Hinv c nc
                  (set_prefix mp len nc) T 0 f y Hlc Hnc HTc eq_refl eq_refl
                  ltac:(simpl; lia)) as Hy'.
    rewrite Nat.mul_0_r, Nat.add_0_r in Hy'.
    specialize (Hy' ltac:(intros j Hj Hdj; apply HTfr; intros ->; lia) Hy).
    eexists (S (S f)), _. split.
    + apply (count_by_sides _ _ T pi _ s' _ HTpi).
      eexists y, b. split_and!; [|..|reflexivity].
      * rewrite child_set_child_eq. unfold side_count. rewrite (eqb_false_of _ _ Hc0).
        apply (count_by_mono _ _ f); [done|lia].
      * rewrite child_set_child_ne by (by destruct s').
        apply (side_kept T (S f)); [|done]. intros Hc' j Hj.
        destruct (below_sibling j Hc' Hj) as (_ & ? & ? & Hnbt). apply HTfr; try done.
        intros ->. apply Hnbt. rewrite <- Hc. by apply below_child_of.
    + unfold linear_weight. rewrite TagCount_set_child. lia.
Qed.

(** The target has two children, which its parent takes. *)
Lemma shrinks_absorb mp len :
  Left nti ≠ 0 → Right nti ≠ 0 → child (negb s') npi = 0 →
  shrinks live t
    (Delete_release
       (updNode (set_prefix mp len) pi
          (updNode (set_Right (Right nti)) pi (updNode (set_Left (Left nti)) pi t1))) ti)
    alpha beta pi (TagCount nti).
Proof.
  intros Hl Hr Hsingle. destruct target_facts as (Hli & Hd & Hne & _).
  set (T := Delete_release _ ti).
  assert (HTpi : nodes T !! pi
                 = Some (set_prefix mp len (set_Right (Right nti)
                                              (set_Left (Left nti) npi)))).
  { unfold T, t1. by nodes_simpl. }
  assert (HTfr : ∀ j, j ≠ pi → j ≠ ti → nodes T !! j = nodes t !! j).
  { intros j ? ?. unfold T, t1. by nodes_simpl. }
  split.
  - intros j Hj Hnb. destruct (not_below_parent j Hnb) as [Hjp Hnbt].
    apply HTfr; [done|]. intros ->. apply Hnbt, below_refl.
  - exists 1. split; [lia|]. intros cf x Hx.
    destruct (count_at_target_parent cf x Hx) as (f & l & r & b & Hl0 & Hr0 & Hb & ->).
    rewrite Hsingle in Hb. injection Hb as <-.
    assert (Hkept : ∀ s2 y, side_count (linear_weight alpha beta) f t (child s2 nti) = Ok y →
              side_count (linear_weight alpha beta) (S f) T (child s2 nti) = Ok y).
    { intros s2 y Hy. apply (side_kept T (S f)).
      - intros Hc j Hj. destruct (below_target_child s2 j Hc Hj) as (_ & ? & ? & _).
        by apply HTfr.
      - apply (side_count_mono _ _ f); [done|lia]. }
    eexists (S (S f)), _. split.
    + apply (count_by_sides _ _ T pi _ true _ HTpi).
      eexists l, r. split_and!; [|..|reflexivity].
      * apply (Hkept true l Hl0).
      * apply (Hkept false r Hr0).
    + unfold linear_weight. simpl. lia.
Qed.

(** The target has no child and its sibling is merged into the parent. *)
Lemma shrinks_merge nS TM mp len :
  Left nti = 0 → Right nti = 0 → TagCount npi = 0 →
  child (negb s') npi ≠ 0 → nodes t !! child (negb s') npi = Some nS →
  nodes TM !! pi
  = Some (mkNode (Left nS) (Right nS) mp len (TagCount npi + TagCount nS)) →
  (∀ j, j ≠ pi → j ≠ child (negb s') npi → nodes TM !! j = nodes t1 !! j) →
  shrinks live t (Delete_release TM ti) alpha beta pi (TagCount nti).
Proof.
  intros Hl Hr Htc HS0 HnS HTMpi HTMfr.
  destruct target_facts as (Hli & Hd & Hne & _).
  set (S0 := child (negb s') npi) in *.
  destruct (inv_child _ _ _ _ Hinv pi npi (negb s') Hpi Hnpi HS0) as (HlS & _).
  pose proof (inv_child_depth Hinv pi npi (negb s') Hpi Hnpi HS0) as HdS.
  fold S0 in HlS, HdS.
  destruct (below_sibling S0 HS0 (below_refl t S0)) as (_ & HSpi & HSti & _).
  set (T := Delete_release TM ti).
  assert (HTpi : nodes T !! pi
                 = Some (mkNode (Left nS) (Right nS) mp len (TagCount npi + TagCount nS))).
  { unfold T. by nodes_simpl. }
  assert (HTfr : ∀ j, j ≠ pi → j ≠ ti → j ≠ S0 → nodes T !! j = nodes t !! j).
  { intros j ? ? ?. unfold T. nodes_simpl. rewrite HTMfr by done. unfold t1.
    by nodes_simpl. }
  split.
  - intros j Hj Hnb. destruct (not_below_parent j Hnb) as [Hjp Hnbt].
    apply HTfr; [done|intros ->; apply Hnbt, below_refl|].
    intros ->. apply Hnb. by apply below_child_of.
  - exists 2. split; [lia|]. intros cf x Hx.
    destruct (count_at_target_parent cf x Hx) as (f & l & r & b & Hl0 & Hr0 & Hb & ->).
    rewrite Hl in Hl0. rewrite Hr in Hr0. injection Hl0 as <-. injection Hr0 as <-.
    unfold side_count in Hb. fold S0 in Hb. rewrite (eqb_false_of _ _ HS0) in Hb.
    apply (count_by_sides _ f t S0 nS true b HnS) in Hb as (sl & sr & Hsl & Hsr & ->).
    assert (Hkept : ∀ s2 y, side_count (linear_weight alpha beta) f t (child s2 nS) = Ok y →
              side_count (linear_weight alpha beta) f T (child s2 nS) = Ok y).
    { intros s2 y Hy. apply (side_kept T f); [|done].
      intros Hc j Hj.
      destruct (below_child_facts live depth parent t Hinv S0 nS s2 j HlS HnS Hc Hj)
        as [Hlj Hdj].
      assert (Hb : below t S0 j).
      { eapply below_trans; [|exact Hj]. by apply below_child_of. }
      destruct (below_sibling j HS0 Hb) as (_ & ? & ? & _).
      apply HTfr; try done. intros ->. lia. }
    eexists (S f), _. split.
    + apply (count_by_sides _ _ T pi _ true _ HTpi).
      eexists sl, sr. split_and!; [|..|reflexivity].
      * apply (Hkept true sl Hsl).
      * apply (Hkept false sr Hsr).
    + unfold linear_weight. simpl. rewrite Htc. lia.
Qed.

End compaction_counts.

Section shrink_tags.
Context (live : nat → Prop) (depth parent : nat → nat) (t : TreeV4).
Context (alpha beta : nat).
Hypothesis Hinv : inv_with live depth parent t.

(** Tags go from a node and nothing else changes. *)
Lemma shrinks_tags ti nti k d m' :
  live ti → nodes t !! ti = Some nti → k + d = TagCount nti →
  shrinks live t (updNode (set_TagCount k) ti (setTags m' t)) alpha beta ti d.
Proof.
  intros Hli Hnti Hkd. set (T := updNode _ ti _).
  assert (HTti : nodes T !! ti = Some (set_TagCount k nti)).
  { unfold T. by rewrite nodes_updNode_same, nodes_setTags, Hnti. }
  assert (HTfr : ∀ j, j ≠ ti → nodes T !! j = nodes t !! j).
  { intros j ?. unfold T. by rewrite nodes_updNode_ne, nodes_setTags. }
  split.
  - intros j Hj Hnb. apply HTfr. intros ->. apply Hnb, below_refl.
  - exists 0. split; [lia|]. intros cf x Hx.
    destruct (count_by_fuel _ _ _ _ _ Hx) as [f ->].
    apply (count_by_sides _ f t ti nti true x Hnti) in Hx as (l & r & Hl & Hr & ->).
    assert (Hkept : ∀ s2 y, side_count (linear_weight alpha beta) f t (child s2 nti) = Ok y →
              side_count (linear_weight alpha beta) f T (child s2 nti) = Ok y).
    { intros s2 y Hy. rewrite (side_count_unchanged _ t T); [done|].
      intros Hc j Hj.
      destruct (below_child_facts live depth parent t Hinv ti nti s2 j Hli Hnti Hc Hj).
      apply HTfr. intros ->. lia. }
    eexists (S f), _. split.
    + apply (count_by_sides _ _ T ti _ true _ HTti).
      eexists l, r. split_and!; [|..|reflexivity].
      * apply (Hkept true l Hl).
      * apply (Hkept false r Hr).
    + unfold linear_weight. simpl. rewrite <- Hkd. lia.
Qed.

(** What shrinks below a child shrinks below its parent. *)
Lemma shrinks_parent pi npi s' t' d :
  live pi → nodes t !! pi = Some npi → child s' npi ≠ 0 →
  shrinks live t t' alpha beta (child s' npi) d →
  shrinks live t t' alpha beta pi d.
Proof.
  intros Hpi Hnpi Hc [Hfr (m & Hm & Hcount)].
  assert (Hnb : ¬ below t (child s' npi) pi).
  { intros Hb.
    destruct (below_child_facts live depth parent t Hinv pi npi s' pi Hpi Hnpi Hc Hb). lia. }
  split.
  - intros j Hj Hnbj. apply Hfr; [done|]. intros Hb. apply Hnbj.
    eapply below_trans; [|exact Hb]. by apply below_child_of.
  - exists m. split; [done|].
    apply (count_lift_by live depth parent t _ Hinv 0 (m * alpha + beta * d) pi npi s' t');
      try done.
    by rewrite Hfr, Hnpi.
Qed.

End shrink_tags.

Section compact_counts.
Context (live : nat → Prop) (depth parent : nat → nat) (t : TreeV4).
Context (pi ti : nat) (npi nti : treeNodeV4) (s' : bool) (m' : gmap Z uint16).
Context (alpha beta : nat).
Hypothesis Hinv : inv_with live depth parent t.
Hypothesis Hpi : live pi.
Hypothesis Hnpi : nodes t !! pi = Some npi.
Hypothesis Hch : child s' npi = ti.
Hypothesis Hti0 : ti ≠ 0.
Hypothesis Hnti : nodes t !! ti = Some nti.

Let t1 := updNode (set_TagCount 0) ti (setTags m' t).

(** The compaction of [Delete] and the counts below the parent of the
    target. *)
Lemma Delete_compact_counts d :
  ∃ t', Delete_compact t1 pi ti d = Ok (d, t') ∧
        shrinks live t t' alpha beta pi (TagCount nti).
Proof.
  destruct (compaction_facts live depth parent t pi ti npi nti s' Hinv Hpi Hnpi Hch Hti0 Hnti)
    as (Hli & Hpti & Hnch & Hi1 & Hb & Hlen & Hrange & Hd & Hp).
  pose proof (Left_eqb_target live depth parent t pi ti npi nti s'
                Hinv Hpi Hnpi Hch Hti0 Hnti) as Heqb.
  assert (Hc : child s' npi ≠ 0) by (by rewrite Hch).
  destruct (decide (Left nti = 0)) as [Hl|Hl];
    destruct (decide (Right nti = 0)) as [Hr|Hr].
  - (* no child *)
    destruct ((1 <? pi) && (TagCount npi =? 0) && negb (child (negb s') npi =? 0))
      eqn:Hcond.
    + apply andb_true_iff in Hcond as [[Hc1 Hc2]%andb_true_iff Hc3].
      pose proof Hc2 as Hc2'. pose proof Hc3 as Hc3'.
      apply Nat.eqb_eq in Hc2'. apply negb_true_iff, Nat.eqb_neq in Hc3'.
      destruct (compaction_child_kept live depth parent t Hinv pi npi (negb s') _
                  (λ _, True) Hpi Hnpi eq_refl Hc3')
        as (HSl & HSp & HSne & HS1 & nS & HnS & _).
      destruct (Delete_mergeSibling_Ok live depth parent t pi ti npi nti s' m'
                  Hinv Hpi Hnpi Hch Hti0 Hnti nS HnS HSne Hnch)
        as (TM & HTM & HTMpi & HTMfr & _).
      exists (Delete_release TM ti). split.
      * unfold Delete_compact, t1. do 2 get_head.
        rewrite (eqb_true_of _ _ Hl), (eqb_true_of _ _ Hr). cbn [negb andb].
        rewrite Heqb.
        destruct s'; cbn [child negb] in *; get_head;
          rewrite Hc1, Hc2, Hc3; cbn [andb];
          [change (set_Left 0) with (set_child true 0)
          |change (set_Right 0) with (set_child false 0)];
          by rewrite HTM.
      * by apply (shrinks_merge live depth parent t pi ti npi nti s' alpha beta
                    Hinv Hpi Hnpi Hch Hti0 Hnti m' nS TM _ _ Hl Hr Hc2' Hc3' HnS HTMpi).
    + exists (Delete_release (updNode (set_child s' 0) pi t1) ti). split.
      * unfold Delete_compact, t1. do 2 get_head.
        rewrite (eqb_true_of _ _ Hl), (eqb_true_of _ _ Hr). cbn [negb andb].
        rewrite Heqb.
        destruct s'; cbn [child negb] in *; get_head; by rewrite Hcond.
      * by apply (shrinks_leaf live depth parent t pi ti npi nti s' alpha beta
                    Hinv Hpi Hnpi Hch Hti0 Hnti m').
  - (* only a right child *)
    destruct (compaction_lift_inv live depth parent t pi ti npi nti s' m'
                Hinv Hpi Hnpi Hch Hti0 Hnti false (Right nti) eq_refl Hr)
      as (nc & Hnc & Hcti & Hcpi & _).
    pose proof (Delete_liftChild_Ok live depth parent t pi ti npi nti s' m'
                  Hinv Hpi Hnpi Hch Hti0 Hnti (Right nti) nc Hnc Hcti Hcpi) as Hlift.
    eexists. split.
    + unfold Delete_compact. unfold t1 in *. do 2 get_head.
      rewrite (eqb_true_of _ _ Hl), (eqb_false_of _ _ Hr). cbn [negb andb].
      by rewrite Hlift.
    + by apply (shrinks_lift live depth parent t pi ti npi nti s' alpha beta
                  Hinv Hpi Hnpi Hch Hti0 Hnti m' false (Right nti) nc).
  - (* only a left child *)
    destruct (compaction_lift_inv live depth parent t pi ti npi nti s' m'
                Hinv Hpi Hnpi Hch Hti0 Hnti true (Left nti) eq_refl Hl)
      as (nc & Hnc & Hcti & Hcpi & _).
    pose proof (Delete_liftChild_Ok live depth parent t pi ti npi nti s' m'
                  Hinv Hpi Hnpi Hch Hti0 Hnti (Left nti) nc Hnc Hcti Hcpi) as Hlift.
    eexists. split.
    + unfold Delete_compact. unfold t1 in *. do 2 get_head.
      rewrite (eqb_false_of _ _ Hl), (eqb_true_of _ _ Hr). cbn [negb andb].
      by rewrite Hlift.
    + by apply (shrinks_lift live depth parent t pi ti npi nti s' alpha beta
                  Hinv Hpi Hnpi Hch Hti0 Hnti m' true (Left nti) nc).
  - (* two children *)
    destruct (((Left npi =? 0) || (Right npi =? 0)) && (1 <? pi)) eqn:Hcond.
    + apply andb_true_iff in Hcond as [Hc1 Hc2].
      eexists. split.
      * unfold Delete_compact, t1. do 2 get_head.
        rewrite (eqb_false_of _ _ Hl), (eqb_false_of _ _ Hr). cbn [negb andb].
        rewrite Hc1, Hc2. do 3 get_head. reflexivity.
      * apply (shrinks_absorb live depth parent t pi ti npi nti s' alpha beta
                 Hinv Hpi Hnpi Hch Hti0 Hnti m'); try done.
        apply orb_true_iff in Hc1 as [Hz|Hz]; apply Nat.eqb_eq in Hz;
          destruct s'; simpl in *; congruence.
    + exists t1. split.
      * unfold Delete_compact, t1. do 2 get_head.
        rewrite (eqb_false_of _ _ Hl), (eqb_false_of _ _ Hr). cbn [negb andb].
        destruct ((Left npi =? 0) || (Right npi =? 0)); [|done].
        simpl in Hcond. by rewrite Hcond.
      * pose proof (shrinks_parent live depth parent t alpha beta Hinv pi npi s' t1
                      (TagCount nti) Hpi Hnpi Hc) as Hup.
        rewrite Hch in Hup. apply Hup.
        by apply (shrinks_tags live depth parent t alpha beta Hinv ti nti 0).
Qed.

End compact_counts.

Lemma shrinks_refl live t alpha beta r : shrinks live t t alpha beta r 0.
Proof.
  split; [done|]. exists 0. split; [lia|]. intros cf x Hx. exists cf, x.
  split; [done|lia].
Qed.

(** [Delete] from its target on, and the counts. *)
Lemma Delete_target_counts live depth parent t pi ti f v alpha beta :
  inv_with live depth parent t →
  (ti = 1 ∨ ∃ npi s', below t 1 pi ∧ nodes t !! pi = Some npi ∧ child s' npi = ti ∧ ti ≠ 0) →
  ∃ c t' r,
    Delete_target t pi ti f v = Ok (c, t') ∧ below t 1 r ∧
    shrinks live t t' alpha beta r c.
Proof.
  intros Hinv Hti. pose proof (inv_root _ _ _ _ Hinv) as Hroot.
  assert (Hbti : below t 1 ti).
  { destruct Hti as [->|(npi & s' & Hb & Hnpi & Hch & Hti0)]; [apply below_refl|].
    rewrite <- Hch. eapply below_child; [exact Hb|done|by rewrite Hch]. }
  pose proof (below_live Hinv 1 ti Hroot Hbti) as Hlti.
  destruct (inv_lookup Hinv ti Hlti) as [nti Hnti].
  unfold Delete_target. rewrite (getNode_Some _ _ _ Hnti). fields.
  destruct (TagCount nti =? 0).
  { exists 0, t, ti. split; [done|]. split; [done|]. apply shrinks_refl. }
  destruct (deleteTag_spec t ti nti v f Hnti) as (m' & d & k & -> & Hdk). fields.
  assert (Hkept : shrinks live t (updNode (set_TagCount k) ti (setTags m' t))
                          alpha beta ti d).
  { apply (shrinks_tags live depth parent t alpha beta Hinv ti nti k d); try done. lia. }
  destruct (Nat.ltb_spec 0 k) as [Hk|Hk].
  { by eexists d, _, ti. }
  assert (k = 0) as -> by lia.
  destruct (Nat.eqb_spec ti 1) as [Hti1|Hti1].
  { by eexists d, _, ti. }
  destruct Hti as [?|(npi & s' & Hb & Hnpi & Hch & Hti0)]; [done|].
  pose proof (below_live Hinv 1 pi Hroot Hb) as Hpi.
  destruct (Delete_compact_counts live depth parent t pi ti npi nti s' m' alpha beta
              Hinv Hpi Hnpi Hch Hti0 Hnti d) as (t' & Ht' & Hshrinks).
  rewrite Ht'. exists d, t', pi. split; [done|]. split; [done|].
  by replace d with (TagCount nti) by lia.
Qed.

(** [Delete] and the counts from the root. *)
Lemma Delete_counts fuel t address f v alpha beta :
  inv t → oaddr_ok address → 32 ≤ fuel →
  ∃ c t' address' m,
    Delete fuel t address f v = Ok (c, t', address') ∧ m ≤ 2 ∧
    ∀ cf x, count_by (linear_weight alpha beta) cf t 1 = Ok x →
      ∃ cf' x', count_by (linear_weight alpha beta) cf' t' 1 = Ok x' ∧
                x' + (m * alpha + beta * c) = x.
Proof.
  intros Hinv0 Hok Hfuel.
  destruct (Delete_inv fuel t address f v Hinv0 Hok Hfuel) as (c & t' & a' & HD & _).
  destruct Hinv0 as (live & depth & parent & Hinv).
  pose proof (inv_root _ _ _ _ Hinv) as Hr.
  destruct (inv_lookup Hinv 1 Hr) as [root Hroot].
  assert (Hgo : ∀ pi ti c t',
            (ti = 1 ∨ ∃ npi s', below t 1 pi ∧ nodes t !! pi = Some npi ∧
                                child s' npi = ti ∧ ti ≠ 0) →
            Delete_target t pi ti f v = Ok (c, t') →
            ∃ m, m ≤ 2 ∧
              ∀ cf x, count_by (linear_weight alpha beta) cf t 1 = Ok x →
                ∃ cf' x', count_by (linear_weight alpha beta) cf' t' 1 = Ok x' ∧
                          x' + (m * alpha + beta * c) = x).
  { intros pi ti c0 t0 Hti Htarget.
    destruct (Delete_target_counts live depth parent t pi ti f v alpha beta Hinv Hti)
      as (c1 & t1 & r & Htarget' & Hbr & Hfr & m & Hm & Hlocal).
    rewrite Htarget in Htarget'. injection Htarget' as <- <-.
    exists m. split; [done|]. intros cf x Hx.
    destruct (count_region live depth parent t _ Hinv 0 (m * alpha + beta * c0) r t0
                Hbr Hfr Hlocal cf x Hx) as (cf' & x' & Hx' & Hrel).
    exists cf', x'. split; [done|lia]. }
  exists c, t', a'. pose proof HD as HD0.
  unfold Delete in HD. rewrite (getNode_Some _ _ _ Hroot) in HD.
  cbn [mbind result_mbind result_bind] in HD.
  assert (Hroot_case : ∀ a0,
            (Delete_target t 0 1 f v ≫= λ '(c, t), Ok (c, t, a0)) = Ok (c, t', a') →
            ∃ m, m ≤ 2 ∧
              ∀ cf x, count_by (linear_weight alpha beta) cf t 1 = Ok x →
                ∃ cf' x', count_by (linear_weight alpha beta) cf' t' 1 = Ok x' ∧
                          x' + (m * alpha + beta * c) = x).
  { intros a0 Hrun.
    destruct (Delete_target t 0 1 f v) as [[c0 t0]| |] eqn:Htarget; [|done..].
    cbn [mbind result_mbind result_bind] in Hrun. injection Hrun as -> -> _.
    apply (Hgo 0 1 c t'); [by left|done]. }
  assert (Hsame : ∃ m, m ≤ 2 ∧
            ∀ cf x, count_by (linear_weight alpha beta) cf t 1 = Ok x →
              ∃ cf' x', count_by (linear_weight alpha beta) cf' t 1 = Ok x' ∧
                        x' + (m * alpha + beta * 0) = x).
  { exists 0. split; [lia|]. intros cf x Hx. exists cf, x. split; [done|lia]. }
  destruct address as [a|].
  2:{ destruct (Hroot_case None HD) as (m & Hm & Hcount). by exists m. }
  destruct (Length a =? 0).
  { destruct (Hroot_case (Some a) HD) as (m & Hm & Hcount). by exists m. }
  destruct (Delete_loop fuel t 1 _ a) as [[[[pi ti]|] a1]| |] eqn:Hloop; [| |done..].
  - cbn [mbind result_mbind result_bind] in HD.
    destruct (Delete_target t pi ti f v) as [[c0 t0]| |] eqn:Htarget; [|done..].
    cbn [mbind result_mbind result_bind] in HD. injection HD as -> -> _.
    destruct (Delete_loop_below t fuel 1 root (isLeftBit (Address a)) _ a pi ti a1
                Hroot eq_refl) as (Hb & npi & s' & Hnpi & Hch & Hti0).
    { rewrite <- Hloop. by destruct (isLeftBit (Address a)). }
    destruct (Hgo pi ti c t') as (m & Hm & Hcount); [|done|by exists m].
    right. by exists npi, s'.
  - cbn [mbind result_mbind result_bind] in HD. injection HD as <- <- _.
    destruct Hsame as (m & Hm & Hcount). by exists m.
Qed.

(** The count from the root after [Delete], at the same fuel. *)
Lemma Delete_counts_root fuel cfuel t address f v alpha beta :
  inv t → oaddr_ok address → 32 ≤ fuel → 33 ≤ cfuel →
  ∃ n n' m c t' address',
    count_by (linear_weight alpha beta) cfuel t 1 = Ok n ∧
    Delete fuel t address f v = Ok (c, t', address') ∧ m ≤ 2 ∧
    count_by (linear_weight alpha beta) cfuel t' 1 = Ok n' ∧
    n' + (m * alpha + beta * c) = n.
Proof.
  intros Hinv Hok Hfuel Hcf.
  destruct (visited_nodes t cfuel Hinv Hcf) as (_ & _ & Hcount).
  destruct (Delete_counts fuel t address f v alpha beta Hinv Hok Hfuel)
    as (c & t' & a' & m & HD & Hm & Hshrink).
  destruct (Delete_inv fuel t address f v Hinv Hok Hfuel) as (c2 & t2 & a2 & HD2 & Hinv').
  rewrite HD in HD2. injection HD2 as <- <- <-.
  destruct (visited_nodes t' cfuel Hinv' Hcf) as (_ & _ & Hcount').
  destruct (Hshrink cfuel _ (Hcount _)) as (cf' & x' & Hcf' & Hrel).
  eexists _, _, m, c, t', a'. split; [apply Hcount|]. split; [done|]. split; [done|].
  split; [apply Hcount'|].
  pose proof (count_by_mono _ _ _ (max cf' cfuel) _ _ Hcf' ltac:(lia)) as H1.
  pose proof (count_by_mono _ _ _ (max cf' cfuel) _ _ (Hcount' (linear_weight alpha beta))
                ltac:(lia)) as H2.
  rewrite H1 in H2. injection H2 as H2. by rewrite <- H2.
Qed.

(** X21: on a tree built by [Add] and [Delete], [countTags] from the
    root goes down by exactly the count that [Delete] returns. *)
Theorem Delete_decrements_countTags (fuel cfuel : nat) (t : TreeV4)
    (address : option IPv4Address) (f : MatchesFunc) (v : uint16) :
  built t → oaddr_ok address → 32 ≤ fuel → 33 ≤ cfuel →
  ∃ n n' c t' address',
    countTags cfuel t 1 = Ok n ∧
    Delete fuel t address f v = Ok (c, t', address') ∧
    countTags cfuel t' 1 = Ok n' ∧ n' + c = n.
Proof.
  intros Hb Hok Hfuel Hcf. pose proof (built_inv t Hb) as Hinv.
  destruct (Delete_counts_root fuel cfuel t address f v 0 1 Hinv Hok Hfuel Hcf)
    as (n & n' & m & c & t' & a' & Hn & HD & _ & Hn' & Hrel).
  exists n, n', c, t', a'. rewrite !countTags_by.
  rewrite (count_by_ext TagCount (linear_weight 0 1)) by (intros ?; unfold linear_weight; lia).
  rewrite (count_by_ext TagCount (linear_weight 0 1) t') by (intros ?; unfold linear_weight; lia).
  split; [done|]. split; [done|]. split; [done|]. lia.
Qed.

Lemma Delete_decrements_countTags_witness :
  ∃ n n' c t' address',
    countTags 33 example_tree 1 = Ok n ∧
    Delete 32 example_tree (cidr 10 0 0 0 16) matchAll 0%Z = Ok (c, t', address') ∧
    countTags 33 t' 1 = Ok n' ∧ n' + c = n.
Proof.
  apply (Delete_decrements_countTags 32 33 example_tree (cidr 10 0 0 0 16) matchAll 0%Z
           example_tree_built).
  - split; simpl; lia.
  - lia.
  - lia.
Defined.

(** X22: on a tree built by [Add] and [Delete], [Delete] takes two nodes
    at most from the count of [countNodes], and adds none. *)
Theorem Delete_shrinks_countNodes (fuel cfuel : nat) (t : TreeV4)
    (address : option IPv4Address) (f : MatchesFunc) (v : uint16) :
  built t → oaddr_ok address → 32 ≤ fuel → 33 ≤ cfuel →
  ∃ n n' m c t' address',
    countNodes cfuel t 1 = Ok n ∧
    Delete fuel t address f v = Ok (c, t', address') ∧
    countNodes cfuel t' 1 = Ok n' ∧ n' + m = n ∧ m ≤ 2.
Proof.
  intros Hb Hok Hfuel Hcf. pose proof (built_inv t Hb) as Hinv.
  destruct (Delete_counts_root fuel cfuel t address f v 1 0 Hinv Hok Hfuel Hcf)
    as (n & n' & m & c & t' & a' & Hn & HD & Hm & Hn' & Hrel).
  exists n, n', m, c, t', a'. rewrite !countNodes_by.
  rewrite (count_by_ext (λ _, 1) (linear_weight 1 0))
    by (intros ?; unfold linear_weight; lia).
  rewrite (count_by_ext (λ _, 1) (linear_weight 1 0) t')
    by (intros ?; unfold linear_weight; lia).
  split; [done|]. split; [done|]. split; [done|]. split; [lia|done].
Qed.

Lemma Delete_shrinks_countNodes_witness :
  ∃ n n' m c t' address',
    countNodes 33 example_tree 1 = Ok n ∧
    Delete 32 example_tree (cidr 10 0 0 0 16) matchAll 0%Z = Ok (c, t', address') ∧
    countNodes 33 t' 1 = Ok n' ∧ n' + m = n ∧ m ≤ 2.
Proof.
  apply (Delete_shrinks_countNodes 32 33 example_tree (cidr 10 0 0 0 16) matchAll 0%Z
           example_tree_built).
  - split; simpl; lia.
  - lia.
  - lia.
Defined.
